(** * Cursor Dotfiles Sync: the synchronisation engine, embedded in Rocq

    The development follows the TypeScript sources of the extension:
    - [github.ts]  (class [GitHubClient]),
    - [config.ts]  ([parseRepoUrl], [getSyncState], [updateSyncState]),
    - [sync.ts]    (class [SyncManager]).

    JavaScript strings are sequences of UTF-16 code units; regular
    expressions follow ECMAScript (Annex B, no flags unless stated); paths
    follow Node's [path.posix]. *)

From Stdlib Require Import List NArith ZArith String Ascii Bool Arith Lia.
Import ListNotations.

Set Implicit Arguments.

(* ================================================================== *)
(** * JavaScript strings *)
(* ================================================================== *)

Module JS.

(** A code unit of a JavaScript string. *)
Definition char := N.
Definition jsstring := list char.

Definition ch (a : ascii) : char := N_of_ascii a.
Arguments ch _%_char.

(** The string literal [s], as code units (ASCII literals only). *)
Fixpoint str (s : string) : jsstring :=
  match s with
  | EmptyString => []
  | String a t => ch a :: str t
  end.

(** [a === b] on strings. *)
Fixpoint eqs (a b : jsstring) : bool :=
  match a, b with
  | [], [] => true
  | x :: a', y :: b' => N.eqb x y && eqs a' b'
  | _, _ => false
  end.

(** [s.startsWith(pre)] *)
Fixpoint startsWith (s pre : jsstring) : bool :=
  match pre, s with
  | [], _ => true
  | p :: pre', c :: s' => N.eqb c p && startsWith s' pre'
  | _ :: _, [] => false
  end.

(** [s.indexOf(sub)], [None] standing for [-1]. *)
Fixpoint indexOf (s sub : jsstring) : option nat :=
  if startsWith s sub then Some 0
  else match s with
       | [] => None
       | _ :: s' => option_map S (indexOf s' sub)
       end.

(** [s.includes(sub)] *)
Definition includes (s sub : jsstring) : bool :=
  match indexOf s sub with Some _ => true | None => false end.

(** [s.split(sep)[0]] for a non-empty separator: the part of [s] before the
    first occurrence of [sep], all of [s] when there is none. *)
Definition split_head (s sep : jsstring) : jsstring :=
  match indexOf s sep with
  | Some i => firstn i s
  | None => s
  end.

(** [s.lastIndexOf(c)] for a one-character needle. *)
Fixpoint lastIndexOf_from (i : nat) (s : jsstring) (c : char) (found : option nat)
  : option nat :=
  match s with
  | [] => found
  | x :: s' => lastIndexOf_from (S i) s' c (if N.eqb x c then Some i else found)
  end.

Definition lastIndexOf (s : jsstring) (c : char) : option nat :=
  lastIndexOf_from 0 s c None.

(** [s.substring(0, n)] *)
Definition substring0 (s : jsstring) (n : nat) : jsstring := firstn n s.

(** [arr.join(sep)] *)
Fixpoint join (sep : jsstring) (l : list jsstring) : jsstring :=
  match l with
  | [] => []
  | [x] => x
  | x :: l' => x ++ sep ++ join sep l'
  end.

(** Decimal rendering of a number, as template literals do for integers. *)
Fixpoint digits_of (fuel : nat) (n : N) (acc : jsstring) : jsstring :=
  match fuel with
  | O => acc
  | S f =>
      let d := (48 + n mod 10)%N in
      if (n <? 10)%N then d :: acc else digits_of f (n / 10)%N (d :: acc)
  end.

Definition dec (n : N) : jsstring := digits_of (S (N.to_nat (N.log2 n))) n [].

(** Values thrown by JavaScript code: an [Error] instance with its message
    (this covers [SyntaxError], [TypeError] and Node's system errors), or
    some other value. *)
Inductive exn :=
| ErrorObj (message : jsstring)
| NonError.

(** [error instanceof Error ? error.message : 'Unknown error'] *)
Definition message_of (e : exn) : jsstring :=
  match e with
  | ErrorObj m => m
  | NonError => str "Unknown error"
  end.

End JS.
Import JS.

(* ================================================================== *)
(** * Regular expressions (ECMAScript, Annex B, no [u] flag) *)
(* ================================================================== *)

Module RegExp.

Inductive class_escape := Digit | Word | Space.

Inductive class_atom :=
| CAChar (c : char)
| CARange (lo hi : char)
| CAEsc (neg : bool) (k : class_escape).

Inductive re :=
| REmpty
| RChar (c : char)
| RDot
| RClass (neg : bool) (items : list class_atom)
| RBol
| REol
| RWordB (neg : bool)
| RSeq (a b : re)
| RAlt (a b : re)
| RQuant (min : nat) (max : option nat) (greedy : bool) (a : re)
| RGroup (idx : nat) (a : re).

Definition between (lo hi c : char) : bool := (N.leb lo c && N.leb c hi)%bool.
Arguments between (lo hi c)%_N.

(** LineTerminator: LF, CR, LS, PS. *)
Definition isLineTerminator (c : char) : bool :=
  N.eqb c 10 || N.eqb c 13 || N.eqb c 8232 || N.eqb c 8233.

(** WhiteSpace and LineTerminator, the set of [\s]. *)
Definition isSpace (c : char) : bool :=
  between 9 13 c || N.eqb c 32 || N.eqb c 160 || N.eqb c 5760
  || between 8192 8202 c || N.eqb c 8232 || N.eqb c 8233 || N.eqb c 8239
  || N.eqb c 8287 || N.eqb c 12288 || N.eqb c 65279.

Definition isDigit (c : char) : bool := between 48 57 c.

Definition isWord (c : char) : bool :=
  between 97 122 c || between 65 90 c || isDigit c || N.eqb c 95.

Definition escape_matches (k : class_escape) (c : char) : bool :=
  match k with
  | Digit => isDigit c
  | Word => isWord c
  | Space => isSpace c
  end.

Definition atom_matches (a : class_atom) (c : char) : bool :=
  match a with
  | CAChar x => N.eqb c x
  | CARange lo hi => between lo hi c
  | CAEsc neg k => xorb neg (escape_matches k c)
  end.

Definition class_matches (items : list class_atom) (c : char) : bool :=
  existsb (fun a => atom_matches a c) items.

(** A string every code unit of which the dot accepts. *)
Definition no_line_terminator (P : jsstring) : bool :=
  forallb (fun c => negb (isLineTerminator c)) P.

(** ** The backtracking matcher

    A match state is the position in the input, the code unit before it,
    what remains of the input, and the captures so far. *)
Record mstate := MState {
  m_pos : nat;
  m_prev : option char;
  m_rest : jsstring;
  m_caps : list (nat * (nat * nat))
}.

Definition cont := mstate -> option mstate.

Definition step_char (p : char -> bool) (k : cont) (x : mstate) : option mstate :=
  match m_rest x with
  | c :: rest =>
      if p c then k (MState (S (m_pos x)) (Some c) rest (m_caps x)) else None
  | [] => None
  end.

Definition set_cap (i : nat) (span : nat * nat) (x : mstate) : mstate :=
  MState (m_pos x) (m_prev x) (m_rest x)
         ((i, span) :: filter (fun e => negb (Nat.eqb (fst e) i)) (m_caps x)).

Definition clear_caps (inner : list nat) (x : mstate) : mstate :=
  MState (m_pos x) (m_prev x) (m_rest x)
         (filter (fun e => negb (existsb (Nat.eqb (fst e)) inner)) (m_caps x)).

Fixpoint groups_of (r : re) : list nat :=
  match r with
  | RSeq a b | RAlt a b => groups_of a ++ groups_of b
  | RQuant _ _ _ a => groups_of a
  | RGroup i a => i :: groups_of a
  | _ => []
  end.

Definition is_zero (o : option nat) : bool :=
  match o with Some 0 => true | _ => false end.

(** RepeatMatcher of the language specification.  An iteration of a
    quantifier whose minimum is exhausted must consume input, so the
    recursion is bounded by the minimum plus what remains of the input. *)
Fixpoint repeat_matcher (fuel : nat) (m : cont -> cont) (min : nat)
    (max : option nat) (greedy : bool) (inner : list nat) (k : cont)
    (x : mstate) {struct fuel} : option mstate :=
  match fuel with
  | O => None
  | S fuel' =>
      if is_zero max then k x
      else
        let d := fun y : mstate =>
          if Nat.eqb min 0 && Nat.eqb (m_pos y) (m_pos x) then None
          else repeat_matcher fuel' m (Nat.pred min) (option_map Nat.pred max)
                              greedy inner k y in
        let xr := clear_caps inner x in
        if negb (Nat.eqb min 0) then m d xr
        else if greedy then
          match m d xr with Some z => Some z | None => k x end
        else
          match k x with Some z => Some z | None => m d xr end
  end.

Definition at_word_boundary (x : mstate) : bool :=
  let a := match m_prev x with Some c => isWord c | None => false end in
  let b := match m_rest x with c :: _ => isWord c | [] => false end in
  xorb a b.

Fixpoint rmatch (r : re) (k : cont) (x : mstate) {struct r} : option mstate :=
  match r with
  | REmpty => k x
  | RChar c => step_char (N.eqb c) k x
  | RDot => step_char (fun c => negb (isLineTerminator c)) k x
  | RClass neg items => step_char (fun c => xorb neg (class_matches items c)) k x
  | RBol => if Nat.eqb (m_pos x) 0 then k x else None
  | REol => match m_rest x with [] => k x | _ :: _ => None end
  | RWordB neg => if xorb neg (at_word_boundary x) then k x else None
  | RSeq a b => rmatch a (rmatch b k) x
  | RAlt a b =>
      match rmatch a k x with Some z => Some z | None => rmatch b k x end
  | RQuant min max greedy a =>
      repeat_matcher (min + List.length (m_rest x) + 1) (rmatch a) min max greedy
                     (groups_of a) k x
  | RGroup i a =>
      rmatch a (fun y => k (set_cap i (m_pos x, m_pos y) y)) x
  end.

(** A match attempt at one start index, then the search over start indices
    that [RegExpBuiltinExec] performs for a regular expression that is
    neither global nor sticky. *)
Definition match_here (r : re) (pos : nat) (prev : option char) (rest : jsstring)
  : option mstate :=
  rmatch r (fun y => Some y) (MState pos prev rest []).

Fixpoint search (r : re) (pos : nat) (prev : option char) (rest : jsstring)
  : option (nat * mstate) :=
  match match_here r pos prev rest with
  | Some y => Some (pos, y)
  | None =>
      match rest with
      | [] => None
      | c :: rest' => search r (S pos) (Some c) rest'
      end
  end.

(** [r.exec(s)]: start and end index of the match and the capture table. *)
Definition exec (r : re) (s : jsstring) : option (nat * mstate) := search r 0 None s.

(** [r.test(s)] *)
Definition test (r : re) (s : jsstring) : bool :=
  match exec r s with Some _ => true | None => false end.

Definition slice (s : jsstring) (a b : nat) : jsstring := firstn (b - a) (skipn a s).

(** Capture [i] of a match ([match[i]]); [None] is [undefined]. *)
Definition capture (s : jsstring) (y : mstate) (i : nat) : option jsstring :=
  match find (fun e => Nat.eqb (fst e) i) (m_caps y) with
  | Some (_, (a, b)) => Some (slice s a b)
  | None => None
  end.

(** [s.replace(r, repl)] for a regular expression without the global flag
    and a replacement text free of [$]. *)
Definition replace (r : re) (repl : jsstring) (s : jsstring) : jsstring :=
  match exec r s with
  | Some (i, y) => firstn i s ++ repl ++ skipn (m_pos y) s
  | None => s
  end.

(** [s.replace(/r/g, repl)]: every match from left to right; after an empty
    match the search resumes one code unit further. *)
Fixpoint replace_all_from (fuel : nat) (r : re) (repl : jsstring)
    (pos : nat) (prev : option char) (rest : jsstring) {struct fuel} : jsstring :=
  match fuel with
  | O => rest
  | S fuel' =>
      match search r pos prev rest with
      | None => rest
      | Some (i, y) =>
          let before := firstn (i - pos) rest in
          let e := m_pos y in
          if Nat.eqb e i then
            match skipn (i - pos) rest with
            | [] => before ++ repl
            | c :: rest' =>
                before ++ repl ++ c :: replace_all_from fuel' r repl (S i) (Some c) rest'
            end
          else
            before ++ repl
              ++ replace_all_from fuel' r repl e (m_prev y) (skipn (e - pos) rest)
      end
  end.

Definition replace_all (r : re) (repl : jsstring) (s : jsstring) : jsstring :=
  replace_all_from (S (List.length s)) r repl 0 None s.

(** ** The pattern parser

    [new RegExp(src)] either yields a regular expression or throws a
    [SyntaxError].  The parser covers disjunction, capturing groups,
    character classes, the quantifiers, the assertions [^ $ \b \B], the
    class escapes and the identity escapes.  Groups opening with [(?] and
    numeric, [\c], [\x], [\u] and [\k] escapes are outside the model:
    [PUnmodelled], about which nothing is claimed. *)
Inductive parsed (A : Type) :=
| POk (a : A)
| PSyntaxError (reason : string)
| PUnmodelled.
Arguments POk {A} a.
Arguments PSyntaxError {A} reason.
Arguments PUnmodelled {A}.

Definition pbind {A B : Type} (p : parsed A) (f : A -> parsed B) : parsed B :=
  match p with
  | POk a => f a
  | PSyntaxError r => PSyntaxError r
  | PUnmodelled => PUnmodelled
  end.

Definition is_ch (c : char) (a : ascii) : bool := N.eqb c (ch a).
Arguments is_ch c a%_char.

Fixpoint parse_digits (s : jsstring) (acc : option nat) : option nat * jsstring :=
  match s with
  | c :: t =>
      if isDigit c then
        parse_digits t
          (Some (10 * (match acc with Some n => n | None => 0 end)
                 + N.to_nat (c - 48)))
      else (acc, s)
  | [] => (acc, s)
  end.

(** What follows a left brace when it forms a quantifier: [n}], [n,}] or
    [n,m}]. *)
Definition parse_braces (t : jsstring) : option (nat * option nat * jsstring) :=
  match parse_digits t None with
  | (Some n, c :: r) =>
      if is_ch c "}" then Some (n, Some n, r)
      else if is_ch c "," then
        match r with
        | d :: r' =>
            if is_ch d "}" then Some (n, None, r')
            else
              match parse_digits r None with
              | (Some m, e :: r2) =>
                  if is_ch e "}" then Some (n, Some m, r2) else None
              | _ => None
              end
        | [] => None
        end
      else None
  | _ => None
  end.

Definition le_max (n : nat) (max : option nat) : bool :=
  match max with Some m => Nat.leb n m | None => true end.

Definition lazy_suffix (q : nat * option nat) (t : jsstring)
  : parsed (option (nat * option nat * bool) * jsstring) :=
  match t with
  | c :: t' =>
      if is_ch c "?" then POk (Some (q, false), t') else POk (Some (q, true), t)
  | [] => POk (Some (q, true), t)
  end.

Definition parse_quantifier (s : jsstring)
  : parsed (option (nat * option nat * bool) * jsstring) :=
  match s with
  | c :: t =>
      if is_ch c "*" then lazy_suffix (0, None) t
      else if is_ch c "+" then lazy_suffix (1, None) t
      else if is_ch c "?" then lazy_suffix (0, Some 1) t
      else if is_ch c "{" then
        match parse_braces t with
        | Some (n, mx, r) =>
            if le_max n mx then lazy_suffix (n, mx) r
            else PSyntaxError "numbers out of order in {} quantifier"
        | None => POk (None, s)
        end
      else POk (None, s)
  | [] => POk (None, s)
  end.

Definition quantified (a : re) (s : jsstring) (g : nat)
  : parsed (re * jsstring * nat) :=
  pbind (parse_quantifier s) (fun qr =>
    match fst qr with
    | Some (min, max, greedy) => POk (RQuant min max greedy a, snd qr, g)
    | None => POk (a, snd qr, g)
    end).

(** The code unit after a backslash, inside or outside a class. *)
Inductive escaped :=
| EClass (neg : bool) (k : class_escape)
| EChar (c : char)
| ELetterB (upper : bool)
| EUnmodelled.

Definition classify_escape (e : char) : escaped :=
  if is_ch e "d" then EClass false Digit
  else if is_ch e "D" then EClass true Digit
  else if is_ch e "w" then EClass false Word
  else if is_ch e "W" then EClass true Word
  else if is_ch e "s" then EClass false Space
  else if is_ch e "S" then EClass true Space
  else if is_ch e "t" then EChar 9%N
  else if is_ch e "n" then EChar 10%N
  else if is_ch e "v" then EChar 11%N
  else if is_ch e "f" then EChar 12%N
  else if is_ch e "r" then EChar 13%N
  else if is_ch e "b" then ELetterB false
  else if is_ch e "B" then ELetterB true
  else if isDigit e || is_ch e "c" || is_ch e "x" || is_ch e "u" || is_ch e "k"
  then EUnmodelled
  else EChar e.

Definition parse_class_atom (s : jsstring) : parsed (class_atom * jsstring) :=
  match s with
  | [] => PSyntaxError "Unterminated character class"
  | c :: t =>
      if is_ch c "\" then
        match t with
        | [] => PSyntaxError "\ at end of pattern"
        | e :: t' =>
            match classify_escape e with
            | EClass neg k => POk (CAEsc neg k, t')
            | EChar x => POk (CAChar x, t')
            | ELetterB false => POk (CAChar 8%N, t')
            | ELetterB true => POk (CAChar e, t')
            | EUnmodelled => PUnmodelled
            end
        end
      else POk (CAChar c, t)
  end.

Fixpoint parse_class_items (fuel : nat) (s : jsstring) (acc : list class_atom)
  : parsed (list class_atom * jsstring) :=
  match fuel with
  | O => PUnmodelled
  | S f =>
      match s with
      | [] => PSyntaxError "Unterminated character class"
      | c :: t =>
          if is_ch c "]" then POk (rev acc, t)
          else
            pbind (parse_class_atom s) (fun ar =>
              let a := fst ar in
              match snd ar with
              | [] => PSyntaxError "Unterminated character class"
              | d :: r1 =>
                  if is_ch d "-" then
                    match r1 with
                    | [] => PSyntaxError "Unterminated character class"
                    | e :: _ =>
                        if is_ch e "]" then parse_class_items f (snd ar) (a :: acc)
                        else
                          pbind (parse_class_atom r1) (fun br =>
                            match a, fst br with
                            | CAChar lo, CAChar hi =>
                                if N.leb lo hi
                                then parse_class_items f (snd br) (CARange lo hi :: acc)
                                else PSyntaxError "Range out of order in character class"
                            | _, b =>
                                parse_class_items f (snd br) (b :: CAChar d :: a :: acc)
                            end)
                    end
                  else parse_class_items f (snd ar) (a :: acc)
              end)
      end
  end.

Definition parse_class (t : jsstring) (g : nat) : parsed (re * jsstring * nat) :=
  let neg := match t with c :: _ => is_ch c "^" | [] => false end in
  let body := if neg then tl t else t in
  pbind (parse_class_items (S (List.length body)) body []) (fun ir =>
    quantified (RClass neg (fst ir)) (snd ir) g).

Fixpoint parse_disjunction (fuel : nat) (s : jsstring) (g : nat) {struct fuel}
  : parsed (re * jsstring * nat) :=
  match fuel with
  | O => PUnmodelled
  | S f =>
      pbind (parse_alternative f s g) (fun '(a, r, g1) =>
        match r with
        | c :: r' =>
            if is_ch c "|" then
              pbind (parse_disjunction f r' g1) (fun '(b, r2, g2) =>
                POk (RAlt a b, r2, g2))
            else POk (a, r, g1)
        | [] => POk (a, r, g1)
        end)
  end
with parse_alternative (fuel : nat) (s : jsstring) (g : nat) {struct fuel}
  : parsed (re * jsstring * nat) :=
  match fuel with
  | O => PUnmodelled
  | S f =>
      match s with
      | [] => POk (REmpty, s, g)
      | c :: _ =>
          if is_ch c "|" || is_ch c ")" then POk (REmpty, s, g)
          else
            pbind (parse_term f s g) (fun '(a, r, g1) =>
              pbind (parse_alternative f r g1) (fun '(b, r2, g2) =>
                POk (RSeq a b, r2, g2)))
      end
  end
with parse_term (fuel : nat) (s : jsstring) (g : nat) {struct fuel}
  : parsed (re * jsstring * nat) :=
  match fuel with
  | O => PUnmodelled
  | S f =>
      match s with
      | [] => POk (REmpty, s, g)
      | c :: t =>
          if is_ch c "^" then POk (RBol, t, g)
          else if is_ch c "$" then POk (REol, t, g)
          else if is_ch c "(" then
            if match t with q :: _ => is_ch q "?" | [] => false end
            then PUnmodelled
            else
              pbind (parse_disjunction f t (S g)) (fun '(a, r, g1) =>
                match r with
                | d :: r' =>
                    if is_ch d ")" then quantified (RGroup g a) r' g1
                    else PSyntaxError "Unterminated group"
                | [] => PSyntaxError "Unterminated group"
                end)
          else if is_ch c "*" || is_ch c "+" || is_ch c "?" then
            PSyntaxError "Nothing to repeat"
          else if is_ch c "{" then
            match parse_braces t with
            | Some _ => PSyntaxError "Nothing to repeat"
            | None => quantified (RChar c) t g
            end
          else if is_ch c "[" then parse_class t g
          else if is_ch c "." then quantified RDot t g
          else if is_ch c "\" then
            match t with
            | [] => PSyntaxError "\ at end of pattern"
            | e :: t' =>
                match classify_escape e with
                | EClass neg k => quantified (RClass false [CAEsc neg k]) t' g
                | EChar x => quantified (RChar x) t' g
                | ELetterB neg => POk (RWordB neg, t', g)
                | EUnmodelled => PUnmodelled
                end
            end
          else quantified (RChar c) t g
      end
  end.

(** [new RegExp(src)] *)
Definition compile (src : jsstring) : parsed re :=
  pbind (parse_disjunction (4 * List.length src + 8) src 1) (fun '(r, rest, _) =>
    match rest with
    | [] => POk r
    | _ :: _ => PSyntaxError "Unmatched ')'"
    end).

(** The message of the [SyntaxError] thrown for [src], in V8's wording. *)
Definition syntax_error (src : jsstring) (reason : string) : exn :=
  ErrorObj (str "Invalid regular expression: /" ++ src ++ str "/: " ++ str reason).

(** A regular-expression literal of the source text, written as there
    between the slashes. *)
Definition lit (src : string) : re :=
  match compile (str src) with
  | POk r => r
  | _ => RClass false []
  end.

End RegExp.

Import RegExp.

(* ================================================================== *)
(** * Outcomes of a call *)
(* ================================================================== *)

(** A call returns a value or throws.  [Beyond] marks a run that leaves
    the model: a regular expression outside the modelled fragment, or a
    traversal of the remote tree that outlives its fuel.  No handler
    catches it and no theorem speaks about it. *)
Inductive outcome (A : Type) :=
| Ret (a : A)
| Throw (e : exn)
| Beyond.
Arguments Ret {A} a.
Arguments Throw {A} e.
Arguments Beyond {A}.

(** [new RegExp(src)] *)
Definition new_RegExp (src : jsstring) : outcome re :=
  match compile src with
  | POk r => Ret r
  | PSyntaxError reason => Throw (syntax_error src reason)
  | PUnmodelled => Beyond
  end.

(* ================================================================== *)
(** * The pattern matcher ([github.ts], [sync.ts]) *)
(* ================================================================== *)

Module Glob.

(** The chain of [replace] calls that turns a glob into the source of a
    regular expression. *)
Definition regexStr (pattern : jsstring) : jsstring :=
  replace_all (lit "{{GLOBSTAR}}") (str ".*")
    (replace_all (lit "\?") (str ".")
      (replace_all (lit "\*") (str "[^/]*")
        (replace_all (lit "\*\*") (str "{{GLOBSTAR}}")
          (replace_all (lit "\.") (str "\.") pattern)))).

(** [GitHubClient.matchPattern(path, pattern)] *)
Definition matchPattern (path pattern : jsstring) : outcome bool :=
  if eqs pattern path then Ret true
  else
    match new_RegExp (str "^" ++ regexStr pattern ++ str "$") with
    | Ret regex => Ret (test regex path)
    | Throw e => Throw e
    | Beyond => Beyond
    end.

(** [GitHubClient.matchesPatterns(path, patterns)] *)
Fixpoint matchesPatterns (path : jsstring) (patterns : list jsstring)
  : outcome bool :=
  match patterns with
  | [] => Ret false
  | pattern :: rest =>
      match matchPattern path pattern with
      | Ret true => Ret true
      | Ret false => matchesPatterns path rest
      | Throw e => Throw e
      | Beyond => Beyond
      end
  end.

(** [SyncManager.matchPattern(filePath, pattern)]: the same text as the
    client's. *)
Definition SyncManager_matchPattern (filePath pattern : jsstring) : outcome bool :=
  if eqs pattern filePath then Ret true
  else
    match new_RegExp (str "^" ++ regexStr pattern ++ str "$") with
    | Ret regex => Ret (test regex filePath)
    | Throw e => Throw e
    | Beyond => Beyond
    end.

(** [SyncManager.matchesAnyPattern(filePath, patterns)] *)
Fixpoint matchesAnyPattern (filePath : jsstring) (patterns : list jsstring)
  : outcome bool :=
  match patterns with
  | [] => Ret false
  | pattern :: rest =>
      match SyncManager_matchPattern filePath pattern with
      | Ret true => Ret true
      | Ret false => matchesAnyPattern filePath rest
      | Throw e => Throw e
      | Beyond => Beyond
      end
  end.

Definition is_empty (s : jsstring) : bool :=
  match s with [] => true | _ :: _ => false end.

(** [GitHubClient.shouldProcessDirectory(path, patterns)] *)
Fixpoint shouldProcessDirectory (path : jsstring) (patterns : list jsstring)
  : bool :=
  match patterns with
  | [] => false
  | pattern :: rest =>
      if includes pattern (str "**") then
        let base := replace (lit "\/$") [] (split_head pattern (str "**")) in
        if is_empty base || startsWith path base || startsWith base path
        then true
        else shouldProcessDirectory path rest
      else if includes pattern (str "/") then
        let dir :=
          match lastIndexOf pattern (ch "/") with
          | Some i => substring0 pattern i
          | None => []
          end in
        if eqs path dir || startsWith path (dir ++ str "/")
           || startsWith dir (path ++ str "/")
        then true
        else shouldProcessDirectory path rest
      else shouldProcessDirectory path rest
  end.

(** [patterns.map(p => p.replace(/^\.?cursor\/?/, ''))] *)
Definition normalizePatterns (patterns : list jsstring) : list jsstring :=
  map (fun p => replace (lit "^\.?cursor\/?") [] p) patterns.

End Glob.

(* ================================================================== *)
(** * Configuration ([config.ts], [types.ts]) *)
(* ================================================================== *)

Module Config.

(** The configured policy, and how one conflict was resolved. *)
Inductive ConflictResolution := policy_ask | policy_keepLocal | policy_useRemote.
Inductive Resolution := keepLocal | useRemote | skip.
Inductive DefaultTarget := dt_global | dt_workspace | dt_ask.
Inductive SyncTarget := global | workspace.
Inductive SyncDirection := dir_pull | dir_push.

Record SyncConfig := {
  repoUrl : jsstring;
  branch : jsstring;
  repoPath : jsstring;
  defaultSyncTarget : DefaultTarget;
  autoSyncEnabled : bool;
  autoSyncIntervalMinutes : Z;
  syncOnStartup : bool;
  syncOnNewWorkspace : bool;
  githubToken : jsstring;
  conflictResolution : ConflictResolution;
  filesToSync : list jsstring
}.

(** The fallback of [filesToSync] in [getConfig]. *)
Definition default_filesToSync : list jsstring :=
  [str ".cursorrules"; str "rules/**"; str "mcp.json"; str "prompts/**"].

Record RepoInfo := { owner : jsstring; repo : jsstring }.

Definition repo_patterns : list re :=
  [ lit "^([^\/]+)\/([^\/\.]+)$";
    lit "github\.com\/([^\/]+)\/([^\/\.]+)";
    lit "github\.com:([^\/]+)\/([^\/\.]+)" ].

(** [match[i]] of a successful [url.match(pattern)]. *)
Definition group (url : jsstring) (y : mstate) (i : nat) : jsstring :=
  match capture url y i with Some g => g | None => [] end.

Fixpoint first_match (patterns : list re) (url : jsstring) : option RepoInfo :=
  match patterns with
  | [] => None
  | pattern :: rest =>
      match exec pattern url with
      | Some (_, y) =>
          Some {| owner := group url y 1;
                  repo := replace (lit "\.git$") [] (group url y 2) |}
      | None => first_match rest url
      end
  end.

(** [parseRepoUrl(url)] *)
Definition parseRepoUrl (url : jsstring) : option RepoInfo :=
  match url with
  | [] => None
  | _ :: _ => first_match repo_patterns url
  end.

(** ** The persisted sync state *)
Record SyncState := {
  lastSyncedAt : option Z;
  lastSyncTarget : option SyncTarget;
  lastSyncDirection : option SyncDirection;
  lastSyncFiles : list jsstring;
  lastError : option jsstring
}.

(** [Partial<SyncState>]: each field present or absent. *)
Record PartialSyncState := {
  p_lastSyncedAt : option (option Z);
  p_lastSyncTarget : option (option SyncTarget);
  p_lastSyncDirection : option (option SyncDirection);
  p_lastSyncFiles : option (list jsstring);
  p_lastError : option (option jsstring)
}.

Definition getDefaultState : SyncState :=
  {| lastSyncedAt := None; lastSyncTarget := None; lastSyncDirection := None;
     lastSyncFiles := []; lastError := None |}.

Definition pick {A : Type} (current : A) (partial : option A) : A :=
  match partial with Some v => v | None => current end.

(** [{ ...current, ...partial }] *)
Definition spread (current : SyncState) (partial : PartialSyncState) : SyncState :=
  {| lastSyncedAt := pick (lastSyncedAt current) (p_lastSyncedAt partial);
     lastSyncTarget := pick (lastSyncTarget current) (p_lastSyncTarget partial);
     lastSyncDirection :=
       pick (lastSyncDirection current) (p_lastSyncDirection partial);
     lastSyncFiles := pick (lastSyncFiles current) (p_lastSyncFiles partial);
     lastError := pick (lastError current) (p_lastError partial) |}.

(** The module variable [globalState]: [None] until [initStateStorage] has
    run, then the host's memento, which holds a value under [STATE_KEY] or
    nothing yet. *)
Definition Memento := option SyncState.
Definition GlobalState := option Memento.

(** [getSyncState()] *)
Definition getSyncState (globalState : GlobalState) : SyncState :=
  match globalState with
  | None => getDefaultState
  | Some memento =>
      match memento with Some v => v | None => getDefaultState end
  end.

(** [updateSyncState(partial)], as the new value of [globalState]. *)
Definition updateSyncState (partial : PartialSyncState) (globalState : GlobalState)
  : GlobalState :=
  match globalState with
  | None => None
  | Some _ => Some (Some (spread (getSyncState globalState) partial))
  end.

End Config.

Import Glob Config.

(* ================================================================== *)
(** * Node's [path] module (POSIX flavour) *)
(* ================================================================== *)

Module Path.

Definition slash : char := ch "/".

(** [s.split('/')] *)
Fixpoint split_slash (s : jsstring) : list jsstring :=
  match s with
  | [] => [[]]
  | c :: t =>
      if N.eqb c slash then [] :: split_slash t
      else
        match split_slash t with
        | h :: r => (c :: h) :: r
        | [] => [[c]]
        end
  end.

(** One segment of [normalizeString]; [res] holds the segments kept so
    far, the last one first.  Empty segments and [.] are dropped, [..]
    removes the last kept segment unless that is [..] itself or nothing is
    left, in which case it is kept when [allowAboveRoot]. *)
Definition norm_step (allowAboveRoot : bool) (res : list jsstring)
    (seg : jsstring) : list jsstring :=
  if is_empty seg || eqs seg (str ".") then res
  else if eqs seg (str "..") then
    match res with
    | top :: below =>
        if eqs top (str "..") then (if allowAboveRoot then seg :: res else res)
        else below
    | [] => if allowAboveRoot then [seg] else []
    end
  else seg :: res.

Definition normalizeSegments (path : jsstring) (allowAboveRoot : bool)
  : list jsstring :=
  rev (fold_left (norm_step allowAboveRoot) (split_slash path) []).

Definition normalizeString (path : jsstring) (allowAboveRoot : bool) : jsstring :=
  JS.join (str "/") (normalizeSegments path allowAboveRoot).

Definition isAbsolute (path : jsstring) : bool :=
  match path with c :: _ => N.eqb c slash | [] => false end.

Definition endsWithSlash (path : jsstring) : bool :=
  match rev path with c :: _ => N.eqb c slash | [] => false end.

(** [path.normalize(p)] *)
Definition normalize (path : jsstring) : jsstring :=
  match path with
  | [] => str "."
  | _ :: _ =>
      let absolute := isAbsolute path in
      let trailing := endsWithSlash path in
      let p := normalizeString path (negb absolute) in
      if is_empty p then
        (if absolute then str "/" else if trailing then str "./" else str ".")
      else
        let p' := if trailing then p ++ str "/" else p in
        if absolute then slash :: p' else p'
  end.

(** [path.join(a, b)] *)
Definition join (a b : jsstring) : jsstring :=
  match a, b with
  | [], [] => str "."
  | [], _ => normalize b
  | _, [] => normalize a
  | _, _ => normalize (a ++ str "/" ++ b)
  end.

(** The loop of [path.dirname], from the last index down to 1; [r] lists
    the code units at those indices, so the index of its head is its
    length. *)
Fixpoint dirname_end (r : jsstring) (matchedSlash : bool) : option nat :=
  match r with
  | [] => None
  | c :: r' =>
      if N.eqb c slash then
        (if matchedSlash then dirname_end r' true else Some (List.length r))
      else dirname_end r' false
  end.

(** [path.dirname(p)] *)
Definition dirname (path : jsstring) : jsstring :=
  match path with
  | [] => str "."
  | c0 :: t =>
      let hasRoot := N.eqb c0 slash in
      match dirname_end (rev t) true with
      | None => if hasRoot then str "/" else str "."
      | Some e =>
          if hasRoot && Nat.eqb e 1 then str "//" else firstn e path
      end
  end.

(** [path.resolve(p)], in a process whose working directory is [cwd]. *)
Definition resolve (cwd p : jsstring) : jsstring :=
  let resolvedPath :=
    if isAbsolute p then p ++ str "/"
    else if is_empty p then cwd ++ str "/"
    else cwd ++ str "/" ++ p ++ str "/" in
  let resolvedAbsolute := isAbsolute p || isAbsolute cwd in
  let n := normalizeString resolvedPath (negb resolvedAbsolute) in
  if resolvedAbsolute then slash :: n
  else if is_empty n then str "." else n.

(** The segments of a resolved path. *)
Definition segments (resolved : jsstring) : list jsstring :=
  filter (fun seg => negb (is_empty seg)) (split_slash resolved).

Fixpoint strip_common (from to : list jsstring)
  : list jsstring * list jsstring :=
  match from, to with
  | f :: from', t :: to' =>
      if eqs f t then strip_common from' to' else (from, to)
  | _, _ => (from, to)
  end.

(** [path.relative(from, to)]: both paths are resolved, their common
    leading segments dropped, and one [..] emitted for each segment left
    of [from] before what is left of [to]. *)
Definition relative (cwd from to : jsstring) : jsstring :=
  if eqs from to then []
  else
    let from' := resolve cwd from in
    let to' := resolve cwd to in
    if eqs from' to' then []
    else
      let '(up, down) := strip_common (segments from') (segments to') in
      JS.join (str "/") (map (fun _ => str "..") up ++ down).

(** A segment that normalisation keeps as it is. *)
Definition plain_segment (seg : jsstring) : bool :=
  negb (is_empty seg) && negb (eqs seg (str ".")) && negb (eqs seg (str "..")).

(** A relative path in normal form: segments separated by single
    slashes, none of them empty, [.] or [..]. *)
Definition normalized_relative (p : jsstring) : bool :=
  forallb plain_segment (split_slash p).

End Path.

(** ** Shapes of normalised paths, for the properties of the path mapper *)

Module PathShape.

Import Path.

Definition slash_free (seg : jsstring) : bool :=
  forallb (fun c => negb (N.eqb c slash)) seg.

(** A segment kept by normalisation: plain and without slash. *)
Definition solid (seg : jsstring) : bool := plain_segment seg && slash_free seg.

(** The shape of what [normalizeString] keeps: plain segments above
    leading [..] segments, which occur only when permitted. *)
Definition shaped (allow : bool) (res : list jsstring) : Prop :=
  exists k C,
    res = rev C ++ repeat (str "..") k
    /\ forallb solid C = true
    /\ (allow = false -> k = 0).

(** The text of a normalised path with the given segments. *)
Definition render (absolute : bool) (segs : list jsstring) : jsstring :=
  if absolute then slash :: JS.join (str "/") segs else JS.join (str "/") segs.

Definition filled (seg : jsstring) : bool := negb (is_empty seg) && slash_free seg.

(** The segments [path.resolve] reaches for the path [render absolute
    (rev res)], in a process whose working directory is [cwd]. *)
Definition reached (cwd : jsstring) (absolute : bool) (res : list jsstring)
  : list jsstring :=
  fold_left (norm_step false) (split_slash (render absolute (rev res)))
    (if absolute then []
     else fold_left (norm_step false) (split_slash cwd) []).

End PathShape.
Import PathShape.

(* ================================================================== *)
(** * Node's [path] module (Windows flavour) *)
(* ================================================================== *)

Module Win32.

Definition backslash : char := 92%N.
Definition colon : char := 58%N.

Definition isPathSeparator (c : char) : bool :=
  N.eqb c Path.slash || N.eqb c backslash.

Definition isWindowsDeviceRoot (c : char) : bool :=
  between 65 90 c || between 97 122 c.

(** The segments between separators of either kind. *)
Fixpoint split_separators (s : jsstring) : list jsstring :=
  match s with
  | [] => [[]]
  | c :: t =>
      if isPathSeparator c then [] :: split_separators t
      else
        match split_separators t with
        | h :: r => (c :: h) :: r
        | [] => [[c]]
        end
  end.

(** The paths of this model: a drive letter, a colon and a separator,
    then the tail; the device and the tail are returned.  UNC paths,
    paths rooted without a drive, and paths relative to the working
    directory of the process or of a drive are left out. *)
Definition drive_absolute (path : jsstring) : option (jsstring * jsstring) :=
  match path with
  | d :: c :: s :: tail =>
      if isWindowsDeviceRoot d && N.eqb c colon && isPathSeparator s
      then Some ([d; c], tail)
      else None
  | _ => None
  end.

(** [normalizeString(tail, false, '\\', isPathSeparator)], as segments. *)
Definition normalizeSegments (tail : jsstring) : list jsstring :=
  rev (fold_left (Path.norm_step false) (split_separators tail) []).

Definition endsWithSeparator (path : jsstring) : bool :=
  match rev path with c :: _ => isPathSeparator c | [] => false end.

(** [path.win32.normalize(p)] *)
Definition normalize (path : jsstring) : outcome jsstring :=
  match drive_absolute path with
  | Some (device, tail) =>
      let t := JS.join [backslash] (normalizeSegments tail) in
      let t' := if negb (is_empty t) && endsWithSeparator path
                then t ++ [backslash] else t in
      Ret (device ++ backslash :: t')
  | None => Beyond
  end.

(** [path.win32.join(a, b)] *)
Definition join (a b : jsstring) : outcome jsstring :=
  match a, b with
  | [], [] => Ret (str ".")
  | [], _ => normalize b
  | _, [] => normalize a
  | _, _ => normalize (a ++ backslash :: b)
  end.

(** The loop of [path.win32.dirname] over the tail, from its last index
    down; [r] lists the code units at those indices, and the index in the
    tail of the separator found is returned. *)
Fixpoint dirname_end (r : jsstring) (matchedSlash : bool) : option nat :=
  match r with
  | [] => None
  | c :: r' =>
      if isPathSeparator c then
        (if matchedSlash then dirname_end r' true else Some (List.length r'))
      else dirname_end r' false
  end.

(** [path.win32.dirname(p)] *)
Definition dirname (path : jsstring) : outcome jsstring :=
  match drive_absolute path with
  | Some (_, tail) =>
      Ret (firstn (match dirname_end (rev tail) true with
                   | Some e => 3 + e
                   | None => 3
                   end) path)
  | None => Beyond
  end.

(** [path.win32.resolve(p)]: a path of this model is absolute and names
    its drive, so neither the working directory nor the environment is
    consulted. *)
Definition resolve (path : jsstring) : outcome jsstring :=
  match drive_absolute path with
  | Some (device, tail) =>
      Ret (device ++ backslash :: JS.join [backslash] (normalizeSegments tail))
  | None => Beyond
  end.

(** [s.toLowerCase()] on ASCII text. *)
Definition toLowerCase (s : jsstring) : outcome jsstring :=
  if forallb (fun c => N.ltb c 128) s
  then Ret (map (fun c => if between 65 90 c then (c + 32)%N else c) s)
  else Beyond.

Definition segments (resolved : jsstring) : list jsstring :=
  filter (fun seg => negb (is_empty seg)) (split_separators resolved).

(** The common leading segments are dropped; [from] and [low] are in
    lower case, [orig] is [low] as it was written. *)
Fixpoint strip_common (from low orig : list jsstring)
  : list jsstring * list jsstring :=
  match from, low, orig with
  | f :: from', t :: low', _ :: orig' =>
      if eqs f t then strip_common from' low' orig' else (from, orig)
  | _, _, _ => (from, orig)
  end.

(** [path.win32.relative(from, to)]: both paths are resolved and compared
    in lower case; on different drives the answer is the resolved [to];
    otherwise one [..] for each segment left of [from], then what is left
    of [to] as it was written, all separated by backslashes. *)
Definition relative (from to : jsstring) : outcome jsstring :=
  if eqs from to then Ret []
  else
    match resolve from, resolve to with
    | Ret fromOrig, Ret toOrig =>
        if eqs fromOrig toOrig then Ret []
        else
          match toLowerCase fromOrig, toLowerCase toOrig with
          | Ret from', Ret to' =>
              if eqs from' to' then Ret []
              else
                match segments from', segments to' with
                | f :: _, t :: _ =>
                    if eqs f t then
                      let '(up, down) :=
                        strip_common (segments from') (segments to')
                          (segments toOrig) in
                      Ret (JS.join [backslash]
                             (map (fun _ => str "..") up ++ down))
                    else Ret toOrig
                | _, _ => Beyond
                end
          | _, _ => Beyond
          end
    | _, _ => Beyond
    end.

(** [SyncManager.mapToLocalPath(remotePath, targetDir)], where [path] is
    [path.win32]. *)
Definition mapToLocalPath (remotePath targetDir : jsstring) : outcome jsstring :=
  if eqs remotePath (str ".cursorrules") then
    match dirname targetDir with
    | Ret parent => join parent (str ".cursorrules")
    | other => other
    end
  else join targetDir remotePath.

(** [SyncManager.mapToRemotePath(localPath, targetDir)], where [path] is
    [path.win32]. *)
Definition mapToRemotePath (localPath targetDir : jsstring) : outcome jsstring :=
  match dirname targetDir with
  | Ret parent =>
      match join parent (str ".cursorrules") with
      | Ret rules =>
          if eqs localPath rules then Ret (str ".cursorrules")
          else relative targetDir localPath
      | other => other
      end
  | other => other
  end.

End Win32.

(* ================================================================== *)
(** * The local file system *)
(* ================================================================== *)

Module FS.

#[local] Set Warnings "-register-all".

(** A tree of regular files and directories; a directory lists its
    entries in the order [readdir] reports them.  Links, devices and
    permissions are not modelled. *)
Inductive node :=
| File (content : jsstring)
| Dir (entries : list (jsstring * node)).

Inductive errno := ENOENT | ENOTDIR | EEXIST | EISDIR.

Fixpoint find_entry (name : jsstring) (entries : list (jsstring * node))
  : option node :=
  match entries with
  | [] => None
  | (n, child) :: rest => if eqs n name then Some child else find_entry name rest
  end.

Fixpoint set_entry (name : jsstring) (child : node)
    (entries : list (jsstring * node)) : list (jsstring * node) :=
  match entries with
  | [] => [(name, child)]
  | (n, c) :: rest =>
      if eqs n name then (n, child) :: rest
      else (n, c) :: set_entry name child rest
  end.

Fixpoint lookup (segs : list jsstring) (n : node) : errno + node :=
  match segs with
  | [] => inr n
  | s :: rest =>
      match n with
      | File _ => inl ENOTDIR
      | Dir entries =>
          match find_entry s entries with
          | Some child => lookup rest child
          | None => inl ENOENT
          end
      end
  end.

(** [mkdir(p, { recursive: true })] *)
Fixpoint mkdirp (segs : list jsstring) (n : node) : errno + node :=
  match n with
  | File _ => inl (match segs with [] => EEXIST | _ :: _ => ENOTDIR end)
  | Dir entries =>
      match segs with
      | [] => inr n
      | s :: rest =>
          let child :=
            match find_entry s entries with Some c => c | None => Dir [] end in
          match mkdirp rest child with
          | inl e => inl e
          | inr child' => inr (Dir (set_entry s child' entries))
          end
      end
  end.

(** [writeFile(p, content)] *)
Fixpoint write (segs : list jsstring) (content : jsstring) (n : node)
  : errno + node :=
  match segs with
  | [] =>
      match n with
      | File _ => inr (File content)
      | Dir _ => inl EISDIR
      end
  | s :: rest =>
      match n with
      | File _ => inl ENOTDIR
      | Dir entries =>
          match find_entry s entries with
          | Some child =>
              match write rest content child with
              | inl e => inl e
              | inr child' => inr (Dir (set_entry s child' entries))
              end
          | None =>
              match rest with
              | [] => inr (Dir (set_entry s (File content) entries))
              | _ :: _ => inl ENOENT
              end
          end
      end
  end.

Definition describe (e : errno) : jsstring :=
  match e with
  | ENOENT => str "ENOENT: no such file or directory"
  | ENOTDIR => str "ENOTDIR: not a directory"
  | EEXIST => str "EEXIST: file already exists"
  | EISDIR => str "EISDIR: illegal operation on a directory"
  end.

(** The [Error] Node throws for a failed system call. *)
Definition error (e : errno) (syscall : string) (path : jsstring) : exn :=
  ErrorObj (describe e ++ str ", " ++ str syscall ++ str " '" ++ path ++ str "'").

(** The same for a call on an open descriptor, which names no path. *)
Definition error_on_descriptor (e : errno) (syscall : string) : exn :=
  ErrorObj (describe e ++ str ", " ++ str syscall).

End FS.

(* ================================================================== *)
(** * The world around the engine *)
(* ================================================================== *)

Module Host.

Inductive EntryType := t_file | t_dir | t_other.

(** An element of a listing of the contents API ([GitHubApiFile]). *)
Record GitHubApiFile := {
  f_name : jsstring;
  f_path : jsstring;
  f_sha : jsstring;
  f_size : Z;
  f_type : EntryType;
  f_download_url : option jsstring;
  f_content : option jsstring;
  f_encoding : option jsstring
}.

(** What [response.json()] yields: an array of entries, one entry, an
    object with at most a [message], or a rejection. *)
Inductive JsonBody :=
| JArray (files : list GitHubApiFile)
| JObject (file : GitHubApiFile)
| JMessage (message : option jsstring)
| JInvalid (e : exn).

Record Response := {
  status : N;
  statusText : jsstring;
  text : jsstring;
  json : JsonBody
}.

(** [response.ok] *)
Definition ok (r : Response) : bool := between 200 299 (status r).

Inductive Method := GET | PUT.

(** The JSON body of a create-or-update call; [pb_content] is the base64
    text. *)
Record PutBody := {
  pb_message : jsstring;
  pb_content : jsstring;
  pb_branch : jsstring;
  pb_sha : option jsstring
}.

Record Request := {
  rq_method : Method;
  rq_url : jsstring;
  rq_headers : list (jsstring * jsstring);
  rq_body : option PutBody
}.

Inductive Severity := warning | information.

Record Prompt := {
  pr_severity : Severity;
  pr_message : jsstring;
  pr_modal : bool;
  pr_items : list jsstring
}.

(** The collaborators of the engine, each a function of a state [W] of
    its own: the network, the user answering a prompt (the title picked,
    or nothing on dismissal), the diff view, the clock, and base64. *)
Record Host (W : Type) := {
  net_fetch : Request -> W -> (Response + exn) * W;
  user_pick : Prompt -> W -> option jsstring * W;
  open_diff : jsstring -> jsstring -> jsstring -> W -> option exn * W;
  date_now : W -> Z * W;
  base64_encode : jsstring -> jsstring;
  base64_decode : jsstring -> jsstring
}.

(** The process environment and the editor's settings. *)
Record Env := {
  HOME : option jsstring;
  USERPROFILE : option jsstring;
  workspaceFolder : option jsstring;
  cwd : jsstring;
  getConfig : SyncConfig
}.

End Host.
Import Host.

(* ================================================================== *)
(** * The engine: [GitHubClient] and [SyncManager] *)
(* ================================================================== *)

Module Engine.

Record GitHubFile := {
  gf_name : jsstring;
  gf_path : jsstring;
  gf_sha : jsstring;
  gf_size : Z;
  gf_type : EntryType;
  gf_download_url : option jsstring
}.

Record GitHubContent := {
  gc_path : option jsstring;
  gc_content : jsstring;
  gc_sha : option jsstring;
  gc_encoding : option jsstring
}.

Record ConflictInfo := {
  ci_path : jsstring;
  localContent : jsstring;
  remoteContent : jsstring;
  resolution : option Resolution
}.

Record SyncResult := {
  success : bool;
  filesProcessed : nat;
  errors : list jsstring;
  conflicts : list ConflictInfo
}.

(** A JavaScript [Map] from strings to strings, in insertion order. *)
Definition JsMap := list (jsstring * jsstring).

Fixpoint map_set (key value : jsstring) (m : JsMap) : JsMap :=
  match m with
  | [] => [(key, value)]
  | (k, v) :: rest =>
      if eqs k key then (k, value) :: rest else (k, v) :: map_set key value rest
  end.

Definition map_keys (m : JsMap) : list jsstring := map fst m.

(** The fields of a [GitHubClient]. *)
Record GitHubClient := {
  repoInfo : RepoInfo;
  gh_branch : jsstring;
  basePath : jsstring;
  token : option jsstring
}.

(** What a run can observe and change: the local files, the module
    variable [globalState], the collaborators' state, the requests sent so
    far (latest first), and the [result] object of the running call. *)
Record State (W : Type) := {
  fs : FS.node;
  globalState : GlobalState;
  world : W;
  sent : list Request;
  result : SyncResult
}.
Arguments fs {W} _.
Arguments globalState {W} _.
Arguments world {W} _.
Arguments sent {W} _.
Arguments result {W} _.

Definition GITHUB_API : jsstring := str "https://api.github.com".
Definition GITHUB_RAW : jsstring := str "https://raw.githubusercontent.com".
Definition CURSOR_DIR : jsstring := str ".cursor".

(** [a || b] on environment variables: the first that is set and not
    empty. *)
Definition or_else (a : option jsstring) (b : jsstring) : jsstring :=
  match a with
  | Some (c :: t) => c :: t
  | _ => b
  end.

(** Truthiness of a string that may be [null] or [undefined]. *)
Definition truthy (o : option jsstring) : bool :=
  match o with Some (_ :: _) => true | _ => false end.

(** [new GitHubClient()] *)
Definition new_GitHubClient (config : SyncConfig) : outcome GitHubClient :=
  match parseRepoUrl (repoUrl config) with
  | None => Throw (ErrorObj (str "Invalid repository URL configured"))
  | Some info =>
      Ret {| repoInfo := info;
             gh_branch := branch config;
             basePath := repoPath config;
             token := match githubToken config with
                      | [] => None
                      | t => Some t
                      end |}
  end.

(** [GitHubClient.getHeaders()] *)
Definition getHeaders (c : GitHubClient) : list (jsstring * jsstring) :=
  [(str "Accept", str "application/vnd.github.v3+json");
   (str "User-Agent", str "sync-code-dotfiles")]
  ++ (if truthy (token c)
      then [(str "Authorization", str "token " ++ or_else (token c) [])]
      else []).

Section WithHost.

Context {W : Type}.
Variable host : Host W.
Variable env : Env.

(** ** Calls that read and change the state, and may throw *)
Definition M (A : Type) : Type := State W -> outcome A * State W.

Definition ret {A : Type} (a : A) : M A := fun s => (Ret a, s).

Definition bind {A B : Type} (m : M A) (f : A -> M B) : M B :=
  fun s =>
    match m s with
    | (Ret a, s') => f a s'
    | (Throw e, s') => (Throw e, s')
    | (Beyond, s') => (Beyond, s')
    end.

Definition throw {A : Type} (e : exn) : M A := fun s => (Throw e, s).

Definition lift {A : Type} (o : outcome A) : M A := fun s => (o, s).

(** [try { m } catch (e) { h e }] *)
Definition try_catch {A : Type} (m : M A) (h : exn -> M A) : M A :=
  fun s =>
    match m s with
    | (Throw e, s') => h e s'
    | other => other
    end.

Notation "x <- c ;; k" := (bind c (fun x => k))
  (at level 61, c at next level, right associativity).
Notation "c ;;; k" := (bind c (fun _ => k))
  (at level 61, right associativity).

Definition get_result : M SyncResult := fun s => (Ret (result s), s).

Definition update_result (f : SyncResult -> SyncResult) : M unit :=
  fun s =>
    (Ret tt, {| fs := fs s; globalState := globalState s; world := world s;
                sent := sent s; result := f (result s) |}).

Definition with_world {A : Type} (f : W -> A * W) : M A :=
  fun s =>
    let '(a, w) := f (world s) in
    (Ret a, {| fs := fs s; globalState := globalState s; world := w;
               sent := sent s; result := result s |}).

(** [fetch(url, init)] *)
Definition fetch (rq : Request) : M Response :=
  fun s =>
    let '(r, w) := net_fetch host rq (world s) in
    let s' := {| fs := fs s; globalState := globalState s; world := w;
                 sent := rq :: sent s; result := result s |} in
    match r with
    | inl response => (Ret response, s')
    | inr e => (Throw e, s')
    end.

(** ** File-system calls *)
Definition locate (p : jsstring) : list jsstring :=
  Path.segments (Path.resolve (cwd env) p).

(** [fs.existsSync(p)] *)
Definition existsSync (p : jsstring) : M bool :=
  fun s =>
    (Ret (match FS.lookup (locate p) (fs s) with inr _ => true | inl _ => false end),
     s).

Definition set_fs (n : FS.node) : M unit :=
  fun s =>
    (Ret tt, {| fs := n; globalState := globalState s; world := world s;
                sent := sent s; result := result s |}).

(** [fs.promises.mkdir(p, { recursive: true })] *)
Definition mkdir (p : jsstring) : M unit :=
  fun s =>
    match FS.mkdirp (locate p) (fs s) with
    | inr n => set_fs n s
    | inl e => (Throw (FS.error e "mkdir" p), s)
    end.

(** [fs.promises.readFile(p, 'utf-8')] *)
Definition readFile (p : jsstring) : M jsstring :=
  fun s =>
    match FS.lookup (locate p) (fs s) with
    | inr (FS.File content) => (Ret content, s)
    | inr (FS.Dir _) => (Throw (FS.error_on_descriptor FS.EISDIR "read"), s)
    | inl e => (Throw (FS.error e "open" p), s)
    end.

(** [fs.promises.writeFile(p, content, 'utf-8')] *)
Definition writeFile (p content : jsstring) : M unit :=
  fun s =>
    match FS.write (locate p) content (fs s) with
    | inr n => set_fs n s
    | inl e => (Throw (FS.error e "open" p), s)
    end.

(** ** [config.ts]: the persisted state *)

(** [updateSyncState(partial)] with a memento that takes every write.
    The write [globalState.update] is a call to the host and can be
    rejected: [Storing.updateSyncState] below is the function with that
    outcome, and [Storing.pull] and [Storing.push] are the operations
    built on it. *)
Definition updateSyncState (partial : PartialSyncState) : M unit :=
  fun s =>
    (Ret tt, {| fs := fs s;
                globalState := Config.updateSyncState partial (globalState s);
                world := world s; sent := sent s; result := result s |}).

(** ** [GitHubClient] *)
Definition to_file (f : GitHubApiFile) : GitHubFile :=
  {| gf_name := f_name f; gf_path := f_path f; gf_sha := f_sha f;
     gf_size := f_size f; gf_type := f_type f;
     gf_download_url := f_download_url f |}.

Definition contents_url (c : GitHubClient) (fullPath : jsstring) : jsstring :=
  GITHUB_API ++ str "/repos/" ++ owner (repoInfo c) ++ str "/"
    ++ repo (repoInfo c) ++ str "/contents/" ++ fullPath.

(** The request [listDirectory(path)] sends. *)
Definition listing_request (c : GitHubClient) (path : jsstring) : Request :=
  let fullPath :=
    if is_empty (basePath c) then path
    else replace (lit "\/$") []
           (replace_all (lit "\/+") (str "/") (basePath c ++ str "/" ++ path)) in
  let url := contents_url c fullPath ++ str "?ref=" ++ gh_branch c in
  {| rq_method := GET; rq_url := url; rq_headers := getHeaders c;
     rq_body := None |}.

(** [GitHubClient.listDirectory(path)] *)
Definition listDirectory (c : GitHubClient) (path : jsstring)
  : M (list GitHubFile) :=
  response <- fetch (listing_request c path) ;;
  if negb (ok response) then
    if N.eqb (status response) 404 then ret []
    else throw (ErrorObj (str "GitHub API error: " ++ dec (status response)
                            ++ str " " ++ statusText response))
  else
    match json response with
    | JArray files => ret (map to_file files)
    | JObject f => ret [to_file f]
    | JInvalid e => throw e
    | JMessage _ => lift Beyond
    end.

Definition prefixed (c : GitHubClient) (path : jsstring) : jsstring :=
  if is_empty (basePath c) then path
  else replace_all (lit "\/+") (str "/") (basePath c ++ str "/" ++ path).

(** [GitHubClient.fetchFileRaw(path)] *)
Definition fetchFileRaw (c : GitHubClient) (path : jsstring) : M jsstring :=
  let fullPath := prefixed c path in
  let url := GITHUB_RAW ++ str "/" ++ owner (repoInfo c) ++ str "/"
               ++ repo (repoInfo c) ++ str "/" ++ gh_branch c ++ str "/"
               ++ fullPath in
  response <- fetch {| rq_method := GET; rq_url := url; rq_headers := [];
                       rq_body := None |} ;;
  if negb (ok response) then
    throw (ErrorObj (str "Failed to fetch " ++ path ++ str ": "
                       ++ dec (status response)))
  else ret (text response).

(** [GitHubClient.fetchFile(path)] *)
Definition fetchFile (c : GitHubClient) (path : jsstring) : M GitHubContent :=
  let fullPath := prefixed c path in
  let url := contents_url c fullPath ++ str "?ref=" ++ gh_branch c in
  response <- fetch {| rq_method := GET; rq_url := url;
                       rq_headers := getHeaders c; rq_body := None |} ;;
  if negb (ok response) then
    throw (ErrorObj (str "Failed to fetch " ++ path ++ str ": "
                       ++ dec (status response)))
  else
    match json response with
    | JObject data =>
        let base64 := match f_encoding data with
                      | Some e => eqs e (str "base64")
                      | None => false
                      end in
        let content :=
          if base64 && truthy (f_content data)
          then base64_decode host (or_else (f_content data) [])
          else or_else (f_content data) [] in
        ret {| gc_path := Some (f_path data); gc_content := content;
               gc_sha := Some (f_sha data); gc_encoding := f_encoding data |}
    | JInvalid e => throw e
    | JArray _ | JMessage _ =>
        ret {| gc_path := None; gc_content := []; gc_sha := None;
               gc_encoding := None |}
    end.

(** [GitHubClient.pushFile(path, content, message)] *)
Definition pushFile (c : GitHubClient) (path content message : jsstring)
  : M unit :=
  if negb (truthy (token c)) then
    throw (ErrorObj (str "GitHub token required for push operations"))
  else
      let fullPath := prefixed c path in
      let url := contents_url c fullPath in
      sha <- try_catch (existing <- fetchFile c path ;; ret (gc_sha existing))
                       (fun _ => ret None) ;;
      let body := {| pb_message := message;
                     pb_content := base64_encode host content;
                     pb_branch := gh_branch c;
                     pb_sha := if truthy sha then sha else None |} in
      response <- fetch {| rq_method := PUT; rq_url := url;
                           rq_headers := getHeaders c
                             ++ [(str "Content-Type", str "application/json")];
                           rq_body := Some body |} ;;
      if negb (ok response) then
        let reason :=
          match json response with
          | JMessage m => or_else m (statusText response)
          | _ => statusText response
          end in
        throw (ErrorObj (str "Failed to push " ++ path ++ str ": "
                           ++ dec (status response) ++ str " - " ++ reason))
      else ret tt.

(** The local function [processDirectory] of [fetchAllFiles]; [files] is
    the map being filled.  The remote tree need not be finite, hence the
    fuel. *)
Fixpoint processDirectory (fuel : nat) (c : GitHubClient)
    (normalizedPatterns : list jsstring) (dirPath : jsstring) (files : JsMap)
    {struct fuel} : M JsMap :=
  match fuel with
  | O => lift Beyond
  | S fuel' =>
      entries <- listDirectory c dirPath ;;
      (fix each (entries : list GitHubFile) (files : JsMap) {struct entries}
         : M JsMap :=
         match entries with
         | [] => ret files
         | entry :: rest =>
             relativePath <-
               (if is_empty (basePath c) then ret (gf_path entry)
                else
                  regex <- lift (new_RegExp (str "^" ++ basePath c ++ str "/?")) ;;
                  ret (replace regex [] (gf_path entry))) ;;
             match gf_type entry with
             | t_dir =>
                 if shouldProcessDirectory relativePath normalizedPatterns then
                   files' <- processDirectory fuel' c normalizedPatterns
                                              relativePath files ;;
                   each rest files'
                 else each rest files
             | t_file =>
                 matched <- lift (matchesPatterns relativePath normalizedPatterns) ;;
                 if matched : bool then
                   files' <- try_catch
                               (content <- fetchFileRaw c relativePath ;;
                                ret (map_set relativePath content files))
                               (fun _ => ret files) ;;
                   each rest files'
                 else each rest files
             | t_other => each rest files
             end
         end) entries files
  end.

(** [GitHubClient.fetchAllFiles(patterns)] *)
Definition fetchAllFiles (fuel : nat) (c : GitHubClient)
    (patterns : list jsstring) : M JsMap :=
  processDirectory fuel c (normalizePatterns patterns) [] [].

(** ** [SyncManager] *)

(** [SyncManager.getTargetPath(target)] *)
Definition getTargetPath (target : SyncTarget) : outcome jsstring :=
  match target with
  | global =>
      let home := or_else (HOME env) (or_else (USERPROFILE env) []) in
      Ret (Path.join home CURSOR_DIR)
  | workspace =>
      match workspaceFolder env with
      | None => Throw (ErrorObj (str "No workspace folder open"))
      | Some fsPath => Ret (Path.join fsPath CURSOR_DIR)
      end
  end.

(** [SyncManager.mapToLocalPath(remotePath, targetDir)], where [path] is
    [path.posix]; [Win32.mapToLocalPath] is the same text over
    [path.win32]. *)
Definition mapToLocalPath (remotePath targetDir : jsstring) : jsstring :=
  if eqs remotePath (str ".cursorrules") then
    let parent := Path.dirname targetDir in
    Path.join parent (str ".cursorrules")
  else Path.join targetDir remotePath.

(** [SyncManager.mapToRemotePath(localPath, targetDir)], where [path] is
    [path.posix]; [Win32.mapToRemotePath] is the same text over
    [path.win32]. *)
Definition mapToRemotePath (localPath targetDir : jsstring) : jsstring :=
  let parent := Path.dirname targetDir in
  if eqs localPath (Path.join parent (str ".cursorrules")) then str ".cursorrules"
  else Path.relative (cwd env) targetDir localPath.

(** The local function [scanDir] of [collectLocalFiles], on the directory
    node it reads; a regular file in place of the directory makes
    [readdir] fail. *)
Fixpoint scanDir (dir : jsstring) (n : FS.node) (base : jsstring)
    (normalizedPatterns : list jsstring) (files : JsMap) {struct n}
  : outcome JsMap :=
  match n with
  | FS.File _ => Throw (FS.error FS.ENOTDIR "scandir" dir)
  | FS.Dir entries =>
      (fix each (entries : list (jsstring * FS.node)) (files : JsMap)
         {struct entries} : outcome JsMap :=
         match entries with
         | [] => Ret files
         | (name, child) :: rest =>
             let fullPath := Path.join dir name in
             let relativePath :=
               replace_all (lit "\\") (str "/") (Path.join base name) in
             match child with
             | FS.Dir _ =>
                 match scanDir fullPath child relativePath normalizedPatterns
                               files with
                 | Ret files' => each rest files'
                 | other => other
                 end
             | FS.File content =>
                 match matchesAnyPattern relativePath normalizedPatterns with
                 | Ret true => each rest (map_set relativePath content files)
                 | Ret false => each rest files
                 | Throw e => Throw e
                 | Beyond => Beyond
                 end
             end
         end) entries files
  end.

(** [SyncManager.collectLocalFiles(targetDir, patterns)] *)
Definition collectLocalFiles (targetDir : jsstring) (patterns : list jsstring)
  : M JsMap :=
  let parent := Path.dirname targetDir in
  let normalizedPatterns := normalizePatterns patterns in
  let cursorrules := Path.join parent (str ".cursorrules") in
  present <- existsSync cursorrules ;;
  wanted <- (if present : bool
             then lift (matchesAnyPattern (str ".cursorrules") normalizedPatterns)
             else ret false) ;;
  files <- (if wanted : bool
            then content <- readFile cursorrules ;;
                 ret (map_set (str ".cursorrules") content [])
            else ret []) ;;
  there <- existsSync targetDir ;;
  if there : bool then
    fun s =>
      match FS.lookup (locate targetDir) (fs s) with
      | inr n => (scanDir targetDir n [] normalizedPatterns files, s)
      | inl _ => (Ret files, s)
      end
  else ret files.

(** [vscode.window.showWarningMessage] and [showInformationMessage]. *)
Definition showMessage (p : Prompt) : M (option jsstring) :=
  with_world (user_pick host p).

(** [SyncManager.showDiff(filePath, localContent, remoteContent)] *)
Definition showDiff (filePath localContent remoteContent : jsstring) : M unit :=
  failed <- with_world (open_diff host filePath localContent remoteContent) ;;
  match failed with
  | Some e => throw e
  | None => ret tt
  end.

(** [SyncManager.handleConflict(filePath, localContent, remoteContent,
    defaultResolution, direction)] *)
Definition handleConflict (filePath localContent remoteContent : jsstring)
    (defaultResolution : ConflictResolution) (direction : SyncDirection)
  : M Resolution :=
  match defaultResolution with
  | policy_keepLocal => ret keepLocal
  | policy_useRemote => ret useRemote
  | policy_ask =>
      let localLabel :=
        match direction with
        | dir_pull => str "Keep Local"
        | dir_push => str "Push Local"
        end in
      let remoteLabel :=
        match direction with
        | dir_pull => str "Use Remote"
        | dir_push => str "Keep Remote"
        end in
      choice <- showMessage
                  {| pr_severity := warning;
                     pr_message := str "Conflict in " ++ filePath;
                     pr_modal := true;
                     pr_items := [localLabel; remoteLabel; str "Show Diff";
                                  str "Skip"] |} ;;
      match choice with
      | None => ret skip
      | Some title =>
          if eqs title (str "Skip") then ret skip
          else if eqs title (str "Show Diff") then
            showDiff filePath localContent remoteContent ;;;
            afterDiff <- showMessage
                           {| pr_severity := information;
                              pr_message := str "After reviewing the diff for "
                                              ++ filePath ++ str ":";
                              pr_modal := false;
                              pr_items := [localLabel; remoteLabel; str "Skip"] |} ;;
            match afterDiff with
            | None => ret skip
            | Some after =>
                if eqs after (str "Skip") then ret skip
                else ret (if eqs after localLabel then keepLocal else useRemote)
            end
          else ret (if eqs title localLabel then keepLocal else useRemote)
      end
  end.

Definition initial_result : SyncResult :=
  {| success := false; filesProcessed := 0; errors := []; conflicts := [] |}.

(** [result.errors.push(m)], [result.conflicts.push(c)],
    [result.filesProcessed++], [result.success = b]. *)
Definition push_error (m : jsstring) : M unit :=
  update_result (fun r =>
    {| success := success r; filesProcessed := filesProcessed r;
       errors := errors r ++ [m]; conflicts := conflicts r |}).

Definition push_conflict (c : ConflictInfo) : M unit :=
  update_result (fun r =>
    {| success := success r; filesProcessed := filesProcessed r;
       errors := errors r; conflicts := conflicts r ++ [c] |}).

Definition count_file : M unit :=
  update_result (fun r =>
    {| success := success r; filesProcessed := S (filesProcessed r);
       errors := errors r; conflicts := conflicts r |}).

Definition set_success (b : bool) : M unit :=
  update_result (fun r =>
    {| success := b; filesProcessed := filesProcessed r;
       errors := errors r; conflicts := conflicts r |}).

Definition strings_differ (a b : jsstring) : bool := negb (eqs a b).

Definition is_useRemote (r : Resolution) : bool :=
  match r with useRemote => true | _ => false end.

Definition is_keepLocal (r : Resolution) : bool :=
  match r with keepLocal => true | _ => false end.

(** [errors.length > 0 ? errors.join('; ') : null] *)
Definition joined_errors (r : SyncResult) : option jsstring :=
  match errors r with
  | [] => None
  | _ :: _ => Some (JS.join (str "; ") (errors r))
  end.

(** The body of the loop of [pull] for one remote file, with its
    [try]/[catch]. *)
Definition pull_file (config : SyncConfig) (targetPath : jsstring)
    (relativePath remoteContent : jsstring) : M unit :=
  try_catch
    (let localPath := mapToLocalPath relativePath targetPath in
     let localDir := Path.dirname localPath in
     mkdir localDir ;;;
     present <- existsSync localPath ;;
     shouldWrite <-
       (if present : bool then
          localContent <- readFile localPath ;;
          if strings_differ localContent remoteContent then
            resolution <- handleConflict relativePath localContent remoteContent
                            (conflictResolution config) dir_pull ;;
            push_conflict {| ci_path := relativePath;
                             localContent := localContent;
                             remoteContent := remoteContent;
                             resolution := Some resolution |} ;;;
            ret (is_useRemote resolution)
          else ret true
        else ret true) ;;
     if shouldWrite : bool then
       writeFile localPath remoteContent ;;;
       count_file
     else ret tt)
    (fun error => push_error (relativePath ++ str ": " ++ message_of error)).

Fixpoint for_each (f : jsstring -> jsstring -> M unit) (m : JsMap) : M unit :=
  match m with
  | [] => ret tt
  | (k, v) :: rest => f k v ;;; for_each f rest
  end.

(** The [try] block of [pull]. *)
Definition pull_try (fuel : nat) (github : GitHubClient) (target : SyncTarget)
  : M unit :=
  let config := getConfig env in
  targetPath <- lift (getTargetPath target) ;;
  mkdir targetPath ;;;
  remoteFiles <- fetchAllFiles fuel github (filesToSync config) ;;
  for_each (pull_file config targetPath) remoteFiles ;;;
  r <- get_result ;;
  set_success (Nat.eqb (List.length (errors r)) 0) ;;;
  now <- with_world (date_now host) ;;
  r' <- get_result ;;
  updateSyncState
    {| p_lastSyncedAt := Some (Some now);
       p_lastSyncTarget := Some (Some target);
       p_lastSyncDirection := Some (Some dir_pull);
       p_lastSyncFiles := Some (map_keys remoteFiles);
       p_lastError := Some (joined_errors r') |}.

(** The [catch] block at the end of [pull] and of [push]. *)
Definition top_catch (error : exn) : M unit :=
  push_error (message_of error) ;;;
  r <- get_result ;;
  updateSyncState
    {| p_lastSyncedAt := None; p_lastSyncTarget := None;
       p_lastSyncDirection := None; p_lastSyncFiles := None;
       p_lastError := Some (hd_error (errors r)) |}.

(** [SyncManager.pull(target)] *)
Definition pull (fuel : nat) (github : GitHubClient) (target : SyncTarget)
  : M SyncResult :=
  update_result (fun _ => initial_result) ;;;
  try_catch (pull_try fuel github target) top_catch ;;;
  get_result.

(** The body of the loop of [push] for one local file. *)
Definition push_file (config : SyncConfig) (github : GitHubClient)
    (relativePath localContent : jsstring) : M unit :=
  try_catch
    (shouldPush <-
       try_catch
         (remoteContent <- fetchFileRaw github relativePath ;;
          if strings_differ remoteContent localContent then
            resolution <- handleConflict relativePath localContent remoteContent
                            (conflictResolution config) dir_push ;;
            push_conflict {| ci_path := relativePath;
                             localContent := localContent;
                             remoteContent := remoteContent;
                             resolution := Some resolution |} ;;;
            ret (is_keepLocal resolution)
          else ret true)
         (fun _ => ret true) ;;
     if shouldPush : bool then
       pushFile github relativePath localContent
         (str "Update " ++ relativePath ++ str " via Cursor Dotfiles Sync") ;;;
       count_file
     else ret tt)
    (fun error => push_error (relativePath ++ str ": " ++ message_of error)).

(** The [try] block of [push]. *)
Definition push_try (github : GitHubClient) (target : SyncTarget) : M unit :=
  let config := getConfig env in
  (if is_empty (githubToken config) then
     throw (ErrorObj (str "GitHub token required for push. Configure cursorSync.githubToken in settings."))
   else ret tt) ;;;
  targetPath <- lift (getTargetPath target) ;;
  there <- existsSync targetPath ;;
  (if there : bool then ret tt
   else throw (ErrorObj (str "Target directory does not exist: " ++ targetPath))) ;;;
  localFiles <- collectLocalFiles targetPath (filesToSync config) ;;
  for_each (push_file config github) localFiles ;;;
  r <- get_result ;;
  set_success (Nat.eqb (List.length (errors r)) 0) ;;;
  now <- with_world (date_now host) ;;
  r' <- get_result ;;
  updateSyncState
    {| p_lastSyncedAt := Some (Some now);
       p_lastSyncTarget := Some (Some target);
       p_lastSyncDirection := Some (Some dir_push);
       p_lastSyncFiles := Some (map_keys localFiles);
       p_lastError := Some (joined_errors r') |}.

(** [SyncManager.push(target)] *)
Definition push (github : GitHubClient) (target : SyncTarget) : M SyncResult :=
  update_result (fun _ => initial_result) ;;;
  try_catch (push_try github target) top_catch ;;;
  get_result.

End WithHost.

(** The two operations of the manager, with their [try] blocks, and the
    state in which a [try] block starts: the [result] object is fresh. *)
Inductive operation := Pull (fuel : nat) | Push.

Definition run {W : Type} (host : Host W) (env : Env) (github : GitHubClient)
    (target : SyncTarget) (op : operation) : M SyncResult :=
  match op with
  | Pull fuel => pull host env fuel github target
  | Push => push host env github target
  end.

Definition try_block {W : Type} (host : Host W) (env : Env)
    (github : GitHubClient) (target : SyncTarget) (op : operation) : M unit :=
  match op with
  | Pull fuel => pull_try host env fuel github target
  | Push => push_try host env github target
  end.

Definition entered {W : Type} (s : State W) : State W :=
  {| fs := fs s; globalState := globalState s; world := world s;
     sent := sent s; result := initial_result |}.

(** The partial record [{ lastError: m }]. *)
Definition only_error (m : jsstring) : PartialSyncState :=
  {| p_lastSyncedAt := None; p_lastSyncTarget := None;
     p_lastSyncDirection := None; p_lastSyncFiles := None;
     p_lastError := Some (Some m) |}.

(** A call that leaves the [result] object and [globalState] alone. *)
Definition keeps {W A : Type} (m : @M W A) : Prop :=
  forall s, result (snd (m s)) = result s
            /\ globalState (snd (m s)) = globalState s.

(** A call that does not throw. *)
Definition total {W A : Type} (m : @M W A) : Prop :=
  forall s e s', m s <> (Throw e, s').

(** The result of an operation that a top-level exception aborted. *)
Definition aborted (m : jsstring) : SyncResult :=
  {| success := false; filesProcessed := 0; errors := [m]; conflicts := [] |}.

End Engine.

Import Engine.

(* ================================================================== *)
(** * The engine over a memento that can reject a write *)
(* ================================================================== *)

Module Storing.

(** A memento that takes every write. *)
Definition accepting {W : Type} : W -> option exn * W := fun w => (None, w).

Section WithMemento.

Context {W : Type}.
Variable host : Host W.
Variable env : Env.

(** [globalState.update(STATE_KEY, updated)]: the host answers with a
    promise that resolves ([None]) or is rejected with a value
    ([Some e]); a rejected write stores nothing. *)
Variable memento_update : W -> option exn * W.

Local Notation "x <- c ;; k" := (bind c (fun x => k))
  (at level 61, c at next level, right associativity).
Local Notation "c ;;; k" := (bind c (fun _ => k))
  (at level 61, right associativity).

(** [updateSyncState(partial)] *)
Definition updateSyncState (partial : PartialSyncState) : M unit :=
  fun s =>
    match globalState s with
    | None => (Ret tt, s)
    | Some _ =>
        let '(rejected, w) := memento_update (world s) in
        match rejected with
        | None =>
            (Ret tt,
             {| fs := fs s;
                globalState := Config.updateSyncState partial (globalState s);
                world := w; sent := sent s; result := result s |})
        | Some e =>
            (Throw e,
             {| fs := fs s; globalState := globalState s; world := w;
                sent := sent s; result := result s |})
        end
    end.

(** The [try] block of [pull]. *)
Definition pull_try (fuel : nat) (github : GitHubClient) (target : SyncTarget)
  : M unit :=
  let config := getConfig env in
  targetPath <- lift (getTargetPath env target) ;;
  mkdir env targetPath ;;;
  remoteFiles <- fetchAllFiles host fuel github (filesToSync config) ;;
  for_each (pull_file host env config targetPath) remoteFiles ;;;
  r <- get_result ;;
  set_success (Nat.eqb (List.length (errors r)) 0) ;;;
  now <- with_world (date_now host) ;;
  r' <- get_result ;;
  updateSyncState
    {| p_lastSyncedAt := Some (Some now);
       p_lastSyncTarget := Some (Some target);
       p_lastSyncDirection := Some (Some dir_pull);
       p_lastSyncFiles := Some (map_keys remoteFiles);
       p_lastError := Some (joined_errors r') |}.

(** The [catch] block at the end of [pull] and of [push]. *)
Definition top_catch (error : exn) : M unit :=
  push_error (message_of error) ;;;
  r <- get_result ;;
  updateSyncState
    {| p_lastSyncedAt := None; p_lastSyncTarget := None;
       p_lastSyncDirection := None; p_lastSyncFiles := None;
       p_lastError := Some (hd_error (errors r)) |}.

(** [SyncManager.pull(target)] *)
Definition pull (fuel : nat) (github : GitHubClient) (target : SyncTarget)
  : M SyncResult :=
  update_result (fun _ => initial_result) ;;;
  try_catch (pull_try fuel github target) top_catch ;;;
  get_result.

(** The [try] block of [push]. *)
Definition push_try (github : GitHubClient) (target : SyncTarget) : M unit :=
  let config := getConfig env in
  (if is_empty (githubToken config) then
     throw (ErrorObj (str "GitHub token required for push. Configure cursorSync.githubToken in settings."))
   else ret tt) ;;;
  targetPath <- lift (getTargetPath env target) ;;
  there <- existsSync env targetPath ;;
  (if there : bool then ret tt
   else throw (ErrorObj (str "Target directory does not exist: " ++ targetPath))) ;;;
  localFiles <- collectLocalFiles env targetPath (filesToSync config) ;;
  for_each (push_file host config github) localFiles ;;;
  r <- get_result ;;
  set_success (Nat.eqb (List.length (errors r)) 0) ;;;
  now <- with_world (date_now host) ;;
  r' <- get_result ;;
  updateSyncState
    {| p_lastSyncedAt := Some (Some now);
       p_lastSyncTarget := Some (Some target);
       p_lastSyncDirection := Some (Some dir_push);
       p_lastSyncFiles := Some (map_keys localFiles);
       p_lastError := Some (joined_errors r') |}.

(** [SyncManager.push(target)] *)
Definition push (github : GitHubClient) (target : SyncTarget) : M SyncResult :=
  update_result (fun _ => initial_result) ;;;
  try_catch (push_try github target) top_catch ;;;
  get_result.

Definition run (github : GitHubClient) (target : SyncTarget) (op : operation)
  : M SyncResult :=
  match op with
  | Pull fuel => pull fuel github target
  | Push => push github target
  end.

End WithMemento.

End Storing.

(* ================================================================== *)
(** * Concrete worlds *)
(* ================================================================== *)

Module Scenario.

Definition not_found : Response :=
  {| status := 404; statusText := str "Not Found"; text := [];
     json := JMessage (Some (str "Not Found")) |}.

Definition listing (files : list GitHubApiFile) : Response :=
  {| status := 200; statusText := str "OK"; text := []; json := JArray files |}.

Definition raw (content : jsstring) : Response :=
  {| status := 200; statusText := str "OK"; text := content;
     json := JInvalid (ErrorObj (str "Unexpected token")) |}.

Definition entry (kind : EntryType) (name path : string) : GitHubApiFile :=
  {| f_name := str name; f_path := str path; f_sha := str "0f3a"; f_size := 1;
     f_type := kind; f_download_url := None; f_content := None;
     f_encoding := None |}.

(** A server with fixed answers to [GET] requests, found by URL; everything
    else is not found.  The user dismisses every prompt. *)
Definition static_host (routes : list (jsstring * Response)) : Host unit :=
  {| net_fetch := fun rq w =>
       (inl match rq_method rq with
            | GET =>
                match find (fun r => eqs (fst r) (rq_url rq)) routes with
                | Some (_, response) => response
                | None => not_found
                end
            | PUT => not_found
            end, w);
     user_pick := fun _ w => (None, w);
     open_diff := fun _ _ _ w => (None, w);
     date_now := fun w => (1734567890000%Z, w);
     base64_encode := fun x => x;
     base64_decode := fun x => x |}.

(** The same server for a world of any type, which it leaves alone. *)
Definition static_host_over (W : Type) (routes : list (jsstring * Response))
  : Host W :=
  {| net_fetch := fun rq w =>
       (inl match rq_method rq with
            | GET =>
                match find (fun r => eqs (fst r) (rq_url rq)) routes with
                | Some (_, response) => response
                | None => not_found
                end
            | PUT => not_found
            end, w);
     user_pick := fun _ w => (None, w);
     open_diff := fun _ _ _ w => (None, w);
     date_now := fun w => (1734567890000%Z, w);
     base64_encode := fun x => x;
     base64_decode := fun x => x |}.

(** A memento that rejects the first write and takes the later ones; the
    world counts the writes. *)
Definition rejecting_once : nat -> option exn * nat :=
  fun n =>
    (match n with
     | O => Some (ErrorObj (str "Unable to write state"))
     | S _ => None
     end, S n).

Definition config_with (patterns : list jsstring) (policy : ConflictResolution)
    (tok : string) : SyncConfig :=
  {| repoUrl := str "owner/dotfiles"; branch := str "main";
     repoPath := str "cursor"; defaultSyncTarget := dt_ask;
     autoSyncEnabled := false; autoSyncIntervalMinutes := 60;
     syncOnStartup := false; syncOnNewWorkspace := true;
     githubToken := str tok; conflictResolution := policy;
     filesToSync := patterns |}.

Definition env_with (config : SyncConfig) : Env :=
  {| HOME := Some (str "/home/u"); USERPROFILE := None;
     workspaceFolder := Some (str "/home/u/proj"); cwd := str "/home/u/proj";
     getConfig := config |}.

Definition client : GitHubClient :=
  {| repoInfo := {| owner := str "owner"; repo := str "dotfiles" |};
     gh_branch := str "main"; basePath := str "cursor"; token := None |}.

Definition start (tree : FS.node) : State unit :=
  {| fs := tree; globalState := Some None; world := tt; sent := [];
     result := initial_result |}.

(** The remote tree holds [.cursorrules] with content [Y]; the workspace
    holds [.cursorrules] with content [X]. *)
Definition rules_remote : list (jsstring * Response) :=
  [ (str "https://api.github.com/repos/owner/dotfiles/contents/cursor?ref=main",
     listing [entry t_file ".cursorrules" "cursor/.cursorrules"]);
    (str "https://raw.githubusercontent.com/owner/dotfiles/main/cursor/.cursorrules",
     raw (str "Y")) ].

Definition rules_local : FS.node :=
  FS.Dir [(str "home", FS.Dir [(str "u", FS.Dir [(str "proj",
    FS.Dir [(str ".cursorrules", FS.File (str "X"))])])])].

(** The remote tree holds [rules/a.mdc]. *)
Definition nested_remote : list (jsstring * Response) :=
  [ (str "https://api.github.com/repos/owner/dotfiles/contents/cursor?ref=main",
     listing [entry t_dir "rules" "cursor/rules"]);
    (str "https://api.github.com/repos/owner/dotfiles/contents/cursor/rules?ref=main",
     listing [entry t_file "a.mdc" "cursor/rules/a.mdc"]);
    (str "https://raw.githubusercontent.com/owner/dotfiles/main/cursor/rules/a.mdc",
     raw (str "A")) ].

Definition empty_local : FS.node :=
  FS.Dir [(str "home", FS.Dir [(str "u", FS.Dir [(str "proj", FS.Dir [])])])].

(** The workspace holds an empty [.cursor]. *)
Definition empty_cursor : FS.node :=
  FS.Dir [(str "home", FS.Dir [(str "u", FS.Dir [(str "proj",
    FS.Dir [(str ".cursor", FS.Dir [])])])])].

(** No write to the memento has been made yet. *)
Definition start_counting (tree : FS.node) : State nat :=
  {| fs := tree; globalState := Some None; world := 0; sent := [];
     result := initial_result |}.

(** The workspace holds [.cursor/rules/a.mdc] and [.cursor/notes.txt]. *)
Definition nested_local : FS.node :=
  FS.Dir [(str "home", FS.Dir [(str "u", FS.Dir [(str "proj",
    FS.Dir [(str ".cursor",
      FS.Dir [(str "rules", FS.Dir [(str "a.mdc", FS.File (str "A"))]);
              (str "notes.txt", FS.File (str "N"))])])])])].

End Scenario.

Import Scenario.

(* ================================================================== *)
(** * Access checks ([github.ts], [config.ts]) *)
(* ================================================================== *)

Module Access.

(** [isConfigured()], on the settings read by [getConfig]. *)
Definition isConfigured (config : SyncConfig) : bool :=
  negb (is_empty (repoUrl config))
  && match parseRepoUrl (repoUrl config) with Some _ => true | None => false end.

(** [canPush()] *)
Definition canPush (config : SyncConfig) : bool :=
  negb (is_empty (githubToken config)).

(** What [checkAccess] returns. *)
Record Permissions := { read : bool; write : bool }.

Definition metadata_request (c : GitHubClient) : Request :=
  {| rq_method := GET;
     rq_url := GITHUB_API ++ str "/repos/" ++ owner (repoInfo c) ++ str "/"
                 ++ repo (repoInfo c);
     rq_headers := getHeaders c; rq_body := None |}.

Section WithHost.

Context {W : Type}.
Variable host : Host W.

(** [data.permissions?.push === true] on the decoded body of the metadata
    response, whose shape the listing bodies do not cover. *)
Variable permissions_push : Response -> bool.

(** [GitHubClient.checkAccess()] *)
Definition checkAccess (c : GitHubClient) : M Permissions :=
  try_catch
    (bind (fetch host (metadata_request c)) (fun response =>
       if negb (ok response) then ret {| read := false; write := false |}
       else
         match json response with
         | JInvalid e => throw e
         | _ =>
             ret {| read := true;
                    write := if truthy (token c) then permissions_push response
                             else false |}
         end))
    (fun _ => ret {| read := false; write := false |}).

End WithHost.

End Access.
Import Access.

(* ================================================================== *)
(** * The status line ([config.ts]) *)
(* ================================================================== *)

Module Status.

(** An integer that a double holds exactly: below 2^53 in magnitude. *)
Definition safe_integer (n : Z) : bool := (Z.abs n <? 2 ^ 53)%Z.

(** The local variable [timeAgo] of [formatLastSynced], from [diffMs].
    The source computes in doubles.  Time stamps are integers, as
    [Date.now()] returns them; where their difference is below 2^53 in
    magnitude the subtraction is exact and the floored quotients by 60000,
    60 and 24 are the integer quotients, which [Z.div] is.  Beyond that
    bound the doubles round, and the model stops. *)
Definition timeAgo (diffMs : Z) : outcome jsstring :=
  if safe_integer diffMs then
    let diffMins := (diffMs / 60000)%Z in
    let diffHours := (diffMins / 60)%Z in
    let diffDays := (diffHours / 24)%Z in
    Ret (if (diffMins <? 1)%Z then str "just now"
         else if (diffMins <? 60)%Z then dec (Z.to_N diffMins) ++ str "m ago"
         else if (diffHours <? 24)%Z then dec (Z.to_N diffHours) ++ str "h ago"
         else dec (Z.to_N diffDays) ++ str "d ago")
  else Beyond.

(** The arrows U+2191 and U+2193. *)
Definition arrow (direction : option SyncDirection) : jsstring :=
  match direction with
  | Some dir_push => [8593%N]
  | _ => [8595%N]
  end.

Definition target_word (target : option SyncTarget) : jsstring :=
  match target with
  | Some global => str "global"
  | _ => str "workspace"
  end.

(** [formatLastSynced()], on the state [getSyncState()] returns and the
    value of [Date.now()]. *)
Definition formatLastSynced (state : SyncState) (now : Z) : outcome jsstring :=
  match lastSyncedAt state with
  | None => Ret (str "Never synced")
  | Some t =>
      if (t =? 0)%Z then Ret (str "Never synced")
      else
        match timeAgo (now - t) with
        | Ret ago =>
            Ret (arrow (lastSyncDirection state) ++ str " " ++ ago
                   ++ str " (" ++ target_word (lastSyncTarget state) ++ str ")")
        | Throw e => Throw e
        | Beyond => Beyond
        end
  end.

End Status.
Import Status.

(* ================================================================== *)
(** * Vocabulary of the properties *)
(* ================================================================== *)

Module Laws.

(** A call every run of which relates the state before to the state
    after by [R]. *)
Definition preserves {W A : Type} (R : State W -> State W -> Prop)
    (m : @M W A) : Prop :=
  forall s, R s (snd (m s)).

(** A call whose returned values all satisfy [P]. *)
Definition returns_only {W A : Type} (P : A -> Prop) (m : @M W A) : Prop :=
  forall s a s', m s = (Ret a, s') -> P a.

(** A call that stays within the model and leaves the [result] object
    alone. *)
Definition quiet {W A : Type} (m : @M W A) : Prop :=
  forall s, fst (m s) <> Beyond /\ result (snd (m s)) = result s.

(** The requests sent between two states are all [GET]s. *)
Definition only_gets {W : Type} (s s' : State W) : Prop :=
  exists l, sent s' = l ++ sent s
            /\ Forall (fun rq => rq_method rq = GET) l.

(** A recorded conflict whose resolution is not [applied], so that the
    file was left alone. *)
Definition left_alone (applied : Resolution) (c : ConflictInfo) : bool :=
  match resolution c, applied with
  | Some useRemote, useRemote => false
  | Some keepLocal, keepLocal => false
  | _, _ => true
  end.

(** The files a result accounts for: those processed, those that failed,
    and those left alone after a conflict. *)
Definition accounted (applied : Resolution) (r : SyncResult) : nat :=
  filesProcessed r + List.length (errors r)
  + List.length (filter (left_alone applied) (conflicts r)).

(** The direction an operation records, and the resolution under which
    it transfers a file in conflict. *)
Definition direction_of (op : operation) : SyncDirection :=
  match op with Pull _ => dir_pull | Push => dir_push end.

Definition applied_by (op : operation) : Resolution :=
  match op with Pull _ => useRemote | Push => keepLocal end.

(** The result [r] with one more processed file. *)
Definition counted (r : SyncResult) : SyncResult :=
  {| success := success r; filesProcessed := S (filesProcessed r);
     errors := errors r; conflicts := conflicts r |}.

Definition with_result {W : Type} (s : State W) (r : SyncResult) : State W :=
  {| fs := fs s; globalState := globalState s; world := world s;
     sent := sent s; result := r |}.

(** What the expression [/^\.?cursor\/?/] removes from the head of a
    pattern, said with prefixes. *)
Definition strip_prefix (p : jsstring) : jsstring :=
  if startsWith p (str ".cursor/") then skipn 8 p
  else if startsWith p (str ".cursor") then skipn 7 p
  else if startsWith p (str "cursor/") then skipn 7 p
  else if startsWith p (str "cursor") then skipn 6 p
  else p.

(** A pattern with neither a slash nor a globstar. *)
Definition flat (pattern : jsstring) : bool :=
  negb (includes pattern (str "**")) && negb (includes pattern (str "/")).

(** The keys of a map all satisfy [P]. *)
Definition keys_all (P : jsstring -> Prop) (m : JsMap) : Prop :=
  forall k v, In (k, v) m -> P k.

(** Right-biased union of two partial records: [{ ...a, ...b }]. *)
Definition merge (a b : PartialSyncState) : PartialSyncState :=
  {| p_lastSyncedAt := match p_lastSyncedAt b with
                       | Some v => Some v | None => p_lastSyncedAt a end;
     p_lastSyncTarget := match p_lastSyncTarget b with
                         | Some v => Some v | None => p_lastSyncTarget a end;
     p_lastSyncDirection := match p_lastSyncDirection b with
                            | Some v => Some v
                            | None => p_lastSyncDirection a end;
     p_lastSyncFiles := match p_lastSyncFiles b with
                        | Some v => Some v | None => p_lastSyncFiles a end;
     p_lastError := match p_lastError b with
                    | Some v => Some v | None => p_lastError a end |}.

End Laws.
Import Laws.

(* ================================================================== *)
(** * Properties *)
(* ================================================================== *)

(** ** Strings *)

Lemma eqs_refl (a : jsstring) : eqs a a = true.
Proof.
  induction a as [|x a IH]; simpl; [reflexivity|].
  now rewrite N.eqb_refl, IH.
Qed.

Lemma eqs_eq (a b : jsstring) : eqs a b = true <-> a = b.
Proof.
  split; [|intros ->; apply eqs_refl].
  revert b; induction a as [|x a IH]; intros [|y b]; simpl; try easy.
  intros H; apply andb_true_iff in H as [Hx Hab].
  apply N.eqb_eq in Hx; apply IH in Hab; congruence.
Qed.

Lemma eqs_neq (a b : jsstring) : a <> b -> eqs a b = false.
Proof.
  intros H; destruct (eqs a b) eqn:E; [|reflexivity].
  now apply eqs_eq in E.
Qed.

(** ** The matcher on anchored expressions *)

Lemma search_bol (r : re) (rest : jsstring) :
  forall pos prev, 0 < pos -> search (RSeq RBol r) pos prev rest = None.
Proof.
  induction rest as [|c rest IH]; intros pos prev Hpos;
    destruct pos as [|pos]; try lia; simpl.
  - reflexivity.
  - apply IH; lia.
Qed.

Lemma test_bol (r : re) (P : jsstring) :
  test (RSeq RBol r) P = true ->
  rmatch r (fun y => Some y) (MState 0 None P []) <> None.
Proof.
  unfold test, exec.
  destruct P as [|c P]; simpl; unfold match_here; simpl;
    destruct (rmatch r _ _); try easy.
  now rewrite search_bol by lia.
Qed.

Lemma repeat_star_unfold (fuel : nat) (m : cont -> cont) (inner : list nat)
    (k : cont) (x : mstate) :
  repeat_matcher (S fuel) m 0 None true inner k x
  = match m (fun y => if Nat.eqb (m_pos y) (m_pos x) then None
                      else repeat_matcher fuel m 0 None true inner k y)
            (clear_caps inner x) with
    | Some z => Some z
    | None => k x
    end.
Proof. reflexivity. Qed.

(** A greedy star over the dot runs to the end of an input free of line
    terminators. *)
Lemma star_dot_runs (k : cont) (rest : jsstring) :
  (forall pos prev caps, k (MState pos prev [] caps) <> None) ->
  no_line_terminator rest = true ->
  forall fuel pos prev caps,
    List.length rest < fuel ->
    repeat_matcher fuel (rmatch RDot) 0 None true [] k
      (MState pos prev rest caps) <> None.
Proof.
  intros Hk. induction rest as [|c rest IH]; intros Hlt fuel pos prev caps Hfuel;
    destruct fuel as [|fuel]; cbn [List.length] in Hfuel; try lia;
    rewrite repeat_star_unfold; cbn [rmatch]; unfold step_char, clear_caps;
    cbn [m_rest m_pos m_prev m_caps].
  - apply Hk.
  - cbn [no_line_terminator forallb] in Hlt.
    apply andb_true_iff in Hlt as [Hc Hrest]. rewrite Hc.
    replace (Nat.eqb (S pos) pos) with false
      by (symmetry; apply Nat.eqb_neq; lia).
    match goal with
    | |- context [repeat_matcher fuel ?m 0 None true [] k ?x] =>
        pose proof (IH Hrest fuel (S pos) (Some c) (m_caps x)) as IH';
        cbn [m_caps] in IH';
        destruct (repeat_matcher fuel m 0 None true [] k x) eqn:E
    end; [easy|].
    exfalso; apply IH'; [lia|exact E].
Qed.

Lemma regex_globstar :
  new_RegExp (str "^" ++ regexStr (str "**") ++ str "$")
  = Ret (RSeq RBol (RSeq (RQuant 0 None true RDot) (RSeq REol REmpty))).
Proof. vm_compute. reflexivity. Qed.

Lemma test_globstar (P : jsstring) :
  no_line_terminator P = true ->
  test (RSeq RBol (RSeq (RQuant 0 None true RDot) (RSeq REol REmpty))) P = true.
Proof.
  intros H. unfold test, exec.
  destruct P as [|c P]; [reflexivity|].
  unfold search at 1; fold search. unfold match_here.
  cbn [rmatch m_pos Nat.eqb m_rest groups_of].
  pose proof (@star_dot_runs (rmatch (RSeq REol REmpty) (fun y => Some y))
                (c :: P)) as HS.
  match goal with
  | |- context [repeat_matcher ?f ?m 0 None true [] ?k ?x] =>
      specialize (HS (fun _ _ _ => ltac:(simpl; discriminate)) H f 0 None []);
      destruct (repeat_matcher f m 0 None true [] k x) eqn:E
  end.
  - reflexivity.
  - exfalso; apply HS; [simpl; lia|exact E].
Qed.

Lemma regex_mcp :
  new_RegExp (str "^" ++ regexStr (str "mcp.json") ++ str "$")
  = Ret (RSeq RBol (RSeq (RChar (ch "m")) (RSeq (RChar (ch "c"))
          (RSeq (RChar (ch "p")) (RSeq (RChar (ch ".")) (RSeq (RChar (ch "j"))
          (RSeq (RChar (ch "s")) (RSeq (RChar (ch "o")) (RSeq (RChar (ch "n"))
          (RSeq REol REmpty)))))))))).
Proof. vm_compute. reflexivity. Qed.

Ltac next_char P H :=
  destruct P as [|? P]; [discriminate H|];
  unfold step_char in H; cbn [m_rest m_pos m_caps] in H;
  match type of H with
  | context [N.eqb ?a ?b] =>
      destruct (N.eqb_spec a b) as [<-|]; [|discriminate H]
  end.

Lemma test_mcp (P : jsstring) :
  test (RSeq RBol (RSeq (RChar (ch "m")) (RSeq (RChar (ch "c"))
          (RSeq (RChar (ch "p")) (RSeq (RChar (ch ".")) (RSeq (RChar (ch "j"))
          (RSeq (RChar (ch "s")) (RSeq (RChar (ch "o")) (RSeq (RChar (ch "n"))
          (RSeq REol REmpty)))))))))) P = true ->
  P = str "mcp.json".
Proof.
  intros H. apply test_bol in H.
  destruct (rmatch _ _ _) eqn:E; [clear H|easy].
  cbn [rmatch] in E.
  do 8 next_char P E.
  destruct P; [reflexivity|discriminate E].
Qed.

Lemma SyncManager_matchPattern_eq (filePath pattern : jsstring) :
  SyncManager_matchPattern filePath pattern = matchPattern filePath pattern.
Proof. reflexivity. Qed.

Lemma matchPattern_globstar (P : jsstring) :
  no_line_terminator P = true -> matchPattern P (str "**") = Ret true.
Proof.
  intros H. unfold matchPattern.
  destruct (eqs (str "**") P); [reflexivity|].
  rewrite regex_globstar. now rewrite test_globstar.
Qed.

Lemma matchPattern_mcp (Q : jsstring) :
  matchPattern Q (str "mcp.json") = Ret true <-> Q = str "mcp.json".
Proof.
  split.
  - unfold matchPattern.
    destruct (eqs (str "mcp.json") Q) eqn:E.
    + intros _. apply eqs_eq in E. now symmetry.
    + rewrite regex_mcp. intros H. apply test_mcp. congruence.
  - intros ->. vm_compute. reflexivity.
Qed.

(** ** The pattern matcher *)

(** C3, as stated, fails on a path that holds a line break: the dot of
    the compiled expression [^.*$] does not accept a line terminator. *)
Lemma matchPattern_globstar_line_break :
  matchPattern (str "a" ++ [10%N] ++ str "b") (str "**") = Ret false.
Proof. vm_compute. reflexivity. Qed.

(** C3 (amended).  For every path [P] free of line terminators,
    [matchPattern P "**"] is true, in the client and in the manager;
    [rules/**] matches [rules/a.mdc] and [rules/sub/b.mdc] and not
    [rule/a.mdc]; and for every path [Q], [matchPattern Q "mcp.json"] is
    true exactly when [Q] is [mcp.json]. *)
Theorem matchPattern_spec (P : jsstring) (H : no_line_terminator P = true) :
  matchPattern P (str "**") = Ret true
  /\ SyncManager_matchPattern P (str "**") = Ret true
  /\ matchPattern (str "rules/a.mdc") (str "rules/**") = Ret true
  /\ matchPattern (str "rules/sub/b.mdc") (str "rules/**") = Ret true
  /\ matchPattern (str "rule/a.mdc") (str "rules/**") = Ret false
  /\ (forall Q, matchPattern Q (str "mcp.json") = Ret true <-> Q = str "mcp.json")
  /\ (forall Q, SyncManager_matchPattern Q (str "mcp.json") = Ret true
                <-> Q = str "mcp.json").
Proof.
  repeat split; try (vm_compute; reflexivity);
    try rewrite SyncManager_matchPattern_eq;
    try (apply matchPattern_globstar; exact H);
    try (apply matchPattern_mcp).
Qed.

Lemma matchPattern_spec_witness :
  no_line_terminator (str "prompts/review.md") = true
  /\ matchPattern (str "prompts/review.md") (str "**") = Ret true.
Proof.
  split; [reflexivity|].
  apply (matchPattern_spec (str "prompts/review.md")). reflexivity.
Defined.

(** C10.  [matchPattern] is not total: only the dot of a pattern is
    escaped, so the pattern [(] is compiled from the source [^($], and for
    every path other than the pattern itself the construction of the
    regular expression throws a [SyntaxError] instead of returning a
    boolean, in the client and in the manager. *)
Theorem matchPattern_throws (path : jsstring) (H : path <> str "(") :
  regexStr (str "(") = str "("
  /\ matchPattern path (str "(")
     = Throw (syntax_error (str "^($") "Unterminated group")
  /\ SyncManager_matchPattern path (str "(")
     = Throw (syntax_error (str "^($") "Unterminated group").
Proof.
  split; [vm_compute; reflexivity|].
  assert (E : eqs (str "(") path = false) by (apply eqs_neq; congruence).
  unfold SyncManager_matchPattern, matchPattern. rewrite E.
  split; vm_compute; reflexivity.
Qed.

Lemma matchPattern_throws_witness :
  str "rules/a.mdc" <> str "("
  /\ matchPattern (str "rules/a.mdc") (str "(")
     = Throw (syntax_error (str "^($") "Unterminated group").
Proof.
  assert (N : str "rules/a.mdc" <> str "(") by (vm_compute; discriminate).
  split; [exact N|].
  apply (matchPattern_throws N).
Defined.

(** ** The repository URL *)

(** C8, at the failing input.  The shorthand naming the repository
    [repo.git] is not parsed at all, although the web and SSH forms of the
    same repository yield [repo]: the class [[^\/\.]] of the second group
    excludes the dot, so the shorthand expression with its [$] rejects the
    input and the [.git] suffix is never left to be stripped. *)
Theorem parseRepoUrl_git_suffix :
  parseRepoUrl (str "owner/repo.git") = None
  /\ parseRepoUrl (str "owner/repo")
     = Some {| owner := str "owner"; repo := str "repo" |}
  /\ parseRepoUrl (str "https://github.com/owner/repo.git")
     = Some {| owner := str "owner"; repo := str "repo" |}
  /\ parseRepoUrl (str "git@github.com:owner/repo.git")
     = Some {| owner := str "owner"; repo := str "repo" |}.
Proof. repeat split; vm_compute; reflexivity. Qed.

(** ** Remote traversal *)

(** C1, at the failing input.  Normalisation turns the default pattern
    [.cursorrules] into [rules], so the remote [.cursorrules] matches no
    pattern and [fetchAllFiles] does not fetch it; the pull with policy
    [useRemote] records no conflict and leaves the local [.cursorrules]
    with its content [X]. *)
Theorem pull_default_patterns_miss_cursorrules (fuel : nat) :
  let env := env_with (config_with default_filesToSync policy_useRemote "") in
  let run := pull (static_host rules_remote) env (S fuel) client workspace
                  (start rules_local) in
  normalizePatterns default_filesToSync
  = [str "rules"; str "rules/**"; str "mcp.json"; str "prompts/**"]
  /\ matchesPatterns (str ".cursorrules") (normalizePatterns default_filesToSync)
     = Ret false
  /\ fst run = Ret {| success := true; filesProcessed := 0; errors := [];
                      conflicts := [] |}
  /\ FS.lookup (locate env (str "/home/u/proj/.cursorrules")) (fs (snd run))
     = inr (FS.File (str "X")).
Proof. repeat split; vm_compute; reflexivity. Qed.

(** With a pattern that survives normalisation the same pull behaves as
    the scenario describes: one conflict resolved [useRemote], and the
    local file overwritten with [Y]. *)
Example pull_cursorrules_when_matched :
  let env := env_with (config_with [str "?cursorrules"] policy_useRemote "") in
  let run := pull (static_host rules_remote) env 1 client workspace
                  (start rules_local) in
  fst run = Ret {| success := true; filesProcessed := 1; errors := [];
                   conflicts := [ {| ci_path := str ".cursorrules";
                                     localContent := str "X";
                                     remoteContent := str "Y";
                                     resolution := Some useRemote |} ] |}
  /\ FS.lookup (locate env (str "/home/u/proj/.cursorrules")) (fs (snd run))
     = inr (FS.File (str "Y")).
Proof. split; vm_compute; reflexivity. Qed.

(** C2, at the failing input.  The remote file [rules/a.mdc] matches the
    pattern [*/a.mdc], yet [shouldProcessDirectory] refuses its parent
    directory [rules], so the traversal never lists it and
    [fetchAllFiles] returns an empty map. *)
Theorem fetchAllFiles_under_descends (fuel : nat) :
  let patterns := [str "*/a.mdc"] in
  let env := env_with (config_with patterns policy_useRemote "") in
  matchesPatterns (str "rules/a.mdc") (normalizePatterns patterns) = Ret true
  /\ shouldProcessDirectory (str "rules") (normalizePatterns patterns) = false
  /\ fst (fetchAllFiles (static_host nested_remote) (S fuel) client patterns
            (start empty_local)) = Ret [].
Proof. repeat split; vm_compute; reflexivity. Qed.

(** The same tree under the default patterns: the directory is entered
    and the file fetched. *)
Example fetchAllFiles_descends_default :
  fst (fetchAllFiles (static_host nested_remote) 2 client default_filesToSync
         (start empty_local)) = Ret [(str "rules/a.mdc", str "A")].
Proof. vm_compute. reflexivity. Qed.

(** ** Frames of the engine's calls *)

Section Frames.

Context {W : Type}.
Variable host : Host W.
Variable env : Env.

Abbreviation keeps := (@Engine.keeps W _).
Abbreviation total := (@Engine.total W _).

Lemma keeps_ret {A : Type} (a : A) : keeps (ret a).
Proof. now intros s. Qed.

Lemma keeps_throw {A : Type} (e : exn) : keeps (@throw W A e).
Proof. now intros s. Qed.

Lemma keeps_lift {A : Type} (o : outcome A) : keeps (@lift W A o).
Proof. now intros s. Qed.

Lemma keeps_bind {A B : Type} (m : M A) (f : A -> @M W B) :
  keeps m -> (forall a, keeps (f a)) -> keeps (bind m f).
Proof.
  intros Hm Hf s. unfold bind.
  destruct (Hm s) as [Hr Hg]. destruct (m s) as [[a|e|] s1]; simpl in *; auto.
  destruct (Hf a s1) as [Hr' Hg']. split; congruence.
Qed.

Lemma keeps_try_catch {A : Type} (m : @M W A) (h : exn -> M A) :
  keeps m -> (forall e, keeps (h e)) -> keeps (try_catch m h).
Proof.
  intros Hm Hh s. unfold try_catch.
  destruct (Hm s) as [Hr Hg]. destruct (m s) as [[a|e|] s1]; simpl in *; auto.
  destruct (Hh e s1) as [Hr' Hg']. split; congruence.
Qed.

Lemma keeps_fetch (rq : Request) : keeps (fetch host rq).
Proof.
  intros s. unfold fetch.
  destruct (net_fetch host rq (world s)) as [[r|e] w]; now simpl.
Qed.

Lemma keeps_with_world {A : Type} (f : W -> A * W) : keeps (with_world f).
Proof. intros s. unfold with_world. now destruct (f (world s)). Qed.

Lemma keeps_existsSync (p : jsstring) : keeps (existsSync env p).
Proof. now intros s. Qed.

Lemma keeps_mkdir (p : jsstring) : keeps (mkdir env p).
Proof. intros s. unfold mkdir. now destruct (FS.mkdirp _ _). Qed.

Lemma keeps_readFile (p : jsstring) : keeps (readFile env p).
Proof.
  intros s. unfold readFile. now destruct (FS.lookup _ _) as [?|[?|?]].
Qed.

Ltac keeps_step :=
  first
    [ apply keeps_ret | apply keeps_throw | apply keeps_lift
    | apply keeps_fetch | apply keeps_with_world | apply keeps_existsSync
    | apply keeps_mkdir | apply keeps_readFile
    | apply keeps_bind; [|intros ?]
    | apply keeps_try_catch; [|intros ?]
    | match goal with
      | |- keeps (if ?b then _ else _) => destruct b
      | |- keeps (match ?x with _ => _ end) => destruct x
      end ].

Lemma keeps_listDirectory (c : GitHubClient) (path : jsstring) :
  keeps (listDirectory host c path).
Proof. unfold listDirectory. repeat keeps_step. Qed.

Lemma keeps_fetchFileRaw (c : GitHubClient) (path : jsstring) :
  keeps (fetchFileRaw host c path).
Proof. unfold fetchFileRaw. repeat keeps_step. Qed.

Lemma keeps_processDirectory (c : GitHubClient) (patterns : list jsstring) :
  forall fuel dirPath files,
    keeps (processDirectory host fuel c patterns dirPath files).
Proof.
  induction fuel as [|fuel IH]; intros dirPath files; cbn [processDirectory].
  - apply keeps_lift.
  - apply keeps_bind; [apply keeps_listDirectory|]. intros entries.
    revert files. induction entries as [|entry rest IHe]; intros files.
    + apply keeps_ret.
    + apply keeps_bind; [repeat keeps_step|]. intros relativePath.
      destruct (gf_type entry).
      * apply keeps_bind; [apply keeps_lift|]. intros [|]; [|apply IHe].
        apply keeps_bind; [|intros ?; apply IHe].
        apply keeps_try_catch; [|intros ?; apply keeps_ret].
        apply keeps_bind; [apply keeps_fetchFileRaw|intros ?; apply keeps_ret].
      * destruct (shouldProcessDirectory _ _); [|apply IHe].
        apply keeps_bind; [apply IH|intros ?; apply IHe].
      * apply IHe.
Qed.

Lemma keeps_fetchAllFiles (fuel : nat) (c : GitHubClient)
    (patterns : list jsstring) :
  keeps (fetchAllFiles host fuel c patterns).
Proof. apply keeps_processDirectory. Qed.

Lemma keeps_collectLocalFiles (targetDir : jsstring) (patterns : list jsstring) :
  keeps (collectLocalFiles env targetDir patterns).
Proof.
  unfold collectLocalFiles.
  do 4 (apply keeps_bind; [repeat keeps_step|]; intros ?).
  match goal with |- keeps (if ?b then _ else _) => destruct b end;
    [|apply keeps_ret].
  intros s. now destruct (FS.lookup _ _).
Qed.

Lemma total_for_each (f : jsstring -> jsstring -> @M W unit) (m : JsMap) :
  (forall k v, total (f k v)) -> total (for_each f m).
Proof.
  intros Hf. induction m as [|[k v] m IH]; intros s e s'; cbn [for_each].
  - discriminate.
  - unfold bind. destruct (f k v s) as [[[]|e1|] s1] eqn:E.
    + apply IH.
    + now apply Hf in E.
    + discriminate.
Qed.

Lemma total_handled {A : Type} (m : @M W A) (h : exn -> M A) :
  (forall e, total (h e)) -> total (try_catch m h).
Proof.
  intros Hh s e s'. unfold try_catch.
  destruct (m s) as [[a|e1|] s1]; try discriminate. apply Hh.
Qed.

Lemma total_pull_file (config : SyncConfig) (targetPath k v : jsstring) :
  total (pull_file host env config targetPath k v).
Proof. apply total_handled. intros e s e' s'. discriminate. Qed.

Lemma total_push_file (config : SyncConfig) (c : GitHubClient) (k v : jsstring) :
  total (push_file host config c k v).
Proof. apply total_handled. intros e s e' s'. discriminate. Qed.

End Frames.

(** ** The orchestrator *)

Section Orchestrator.

Context {W : Type}.
Variable host : Host W.
Variable env : Env.

Notation "x <- c ;; k" := (bind c (fun x => k))
  (at level 61, c at next level, right associativity).
Notation "c ;;; k" := (bind c (fun _ => k))
  (at level 61, right associativity).

Lemma bind_throws {A B : Type} (m : @M W A) (f : A -> M B) s e s1 :
  bind m f s = (Throw e, s1) ->
  m s = (Throw e, s1)
  \/ exists a s0, m s = (Ret a, s0) /\ f a s0 = (Throw e, s1).
Proof.
  unfold bind. destruct (m s) as [[a|e0|] s0]; intros H.
  - right; eauto.
  - left. now inversion H.
  - discriminate.
Qed.

Lemma bind_returns {A B : Type} (m : @M W A) (f : A -> M B) s b s1 :
  bind m f s = (Ret b, s1) ->
  exists a s0, m s = (Ret a, s0) /\ f a s0 = (Ret b, s1).
Proof.
  unfold bind. destruct (m s) as [[a|e0|] s0]; intros H; try discriminate.
  eauto.
Qed.

Lemma keeps_at {A : Type} (m : @M W A) s o s0 :
  keeps m -> m s = (o, s0) ->
  result s0 = result s /\ globalState s0 = globalState s.
Proof. intros Hk E. specialize (Hk s). now rewrite E in Hk. Qed.

(** What follows the loop in both [try] blocks returns, with [success]
    set from the error list. *)
Lemma finish_returns (target : SyncTarget) (direction : SyncDirection)
    (keys : list jsstring) s :
  exists s1,
    (r <- get_result ;;
     set_success (Nat.eqb (List.length (errors r)) 0) ;;;
     now <- with_world (date_now host) ;;
     r' <- get_result ;;
     updateSyncState
       {| p_lastSyncedAt := Some (Some now);
          p_lastSyncTarget := Some (Some target);
          p_lastSyncDirection := Some (Some direction);
          p_lastSyncFiles := Some keys;
          p_lastError := Some (joined_errors r') |}) s = (Ret tt, s1)
    /\ success (result s1) = Nat.eqb (List.length (errors (result s1))) 0.
Proof.
  unfold bind, get_result, set_success, update_result, with_world,
    updateSyncState; cbn.
  destruct (date_now host (world s)) as [now w]; cbn. eauto.
Qed.

Tactic Notation "chain_throw" hyp(H) "as" ident(a) ident(s0) ident(E) :=
  apply bind_throws in H as [H | (a & s0 & E & H)].

Tactic Notation "chain_return" hyp(H) "as" ident(a) ident(s0) ident(E) :=
  apply bind_returns in H as (a & s0 & E & H).

Tactic Notation "kept" uconstr(Hk) "at" hyp(E) :=
  let R := fresh "R" in let G := fresh "G" in
  pose proof (@keeps_at _ _ _ _ _ Hk E) as [R G].

Lemma pull_try_throws fuel github target s e s1 :
  pull_try host env fuel github target s = (Throw e, s1) ->
  result s1 = result s /\ globalState s1 = globalState s.
Proof.
  unfold pull_try. intros H.
  chain_throw H as targetPath sa Ea;
    [now kept (keeps_lift _) at H|].
  kept (keeps_lift _) at Ea.
  chain_throw H as u sb Eb;
    [kept (keeps_mkdir env targetPath) at H; split; congruence|].
  kept (keeps_mkdir env targetPath) at Eb.
  chain_throw H as remoteFiles sc Ec;
    [kept (keeps_fetchAllFiles host fuel github
             (filesToSync (getConfig env))) at H; split; congruence|].
  chain_throw H as v sd Ed;
    [now apply total_for_each in H; [|apply total_pull_file]|].
  destruct (finish_returns target dir_pull (map_keys remoteFiles) sd)
    as (s2 & E & _).
  congruence.
Qed.

Lemma pull_try_returns fuel github target s u s1 :
  pull_try host env fuel github target s = (Ret u, s1) ->
  success (result s1) = Nat.eqb (List.length (errors (result s1))) 0.
Proof.
  unfold pull_try. intros H.
  chain_return H as targetPath sa Ea.
  chain_return H as u1 sb Eb.
  chain_return H as remoteFiles sc Ec.
  chain_return H as u2 sd Ed.
  destruct (finish_returns target dir_pull (map_keys remoteFiles) sd)
    as (s2 & E & S2).
  congruence.
Qed.


Lemma push_try_throws github target s e s1 :
  push_try host env github target s = (Throw e, s1) ->
  result s1 = result s /\ globalState s1 = globalState s.
Proof.
  unfold push_try. intros H.
  chain_throw H as u sa Ea.
  { destruct (is_empty _); [|discriminate]. now inversion H. }
  assert (sa = s) as ->
    by (destruct (is_empty _); [discriminate|now inversion Ea]).
  chain_throw H as targetPath sb Eb;
    [now kept (keeps_lift _) at H|].
  kept (keeps_lift _) at Eb.
  chain_throw H as there sc Ec; [discriminate|].
  inversion Ec; subst sc; clear Ec.
  chain_throw H as u1 sd Ed.
  { destruct there; [discriminate|]. inversion H; subst. now split. }
  assert (sd = sb) as ->
    by (destruct there; [now inversion Ed|discriminate]).
  chain_throw H as localFiles se Ee;
    [kept (keeps_collectLocalFiles env targetPath
             (filesToSync (getConfig env))) at H; split; congruence|].
  chain_throw H as u2 sf Ef;
    [now apply total_for_each in H; [|apply total_push_file]|].
  destruct (finish_returns target dir_push (map_keys localFiles) sf)
    as (s2 & E & _).
  congruence.
Qed.

Lemma push_try_returns github target s u s1 :
  push_try host env github target s = (Ret u, s1) ->
  success (result s1) = Nat.eqb (List.length (errors (result s1))) 0.
Proof.
  unfold push_try. intros H.
  chain_return H as u0 sa Ea.
  chain_return H as targetPath sb Eb.
  chain_return H as there sc Ec.
  chain_return H as u1 sd Ed.
  chain_return H as localFiles se Ee.
  chain_return H as u2 sf Ef.
  destruct (finish_returns target dir_push (map_keys localFiles) sf)
    as (s2 & E & S2).
  congruence.
Qed.

Lemma try_block_throws github target op s e s1 :
  try_block host env github target op s = (Throw e, s1) ->
  result s1 = result s /\ globalState s1 = globalState s.
Proof.
  destruct op; [apply pull_try_throws|apply push_try_throws].
Qed.

Lemma try_block_returns github target op s u s1 :
  try_block host env github target op s = (Ret u, s1) ->
  success (result s1) = Nat.eqb (List.length (errors (result s1))) 0.
Proof.
  destruct op; [apply pull_try_returns|apply push_try_returns].
Qed.

Lemma run_unfold github target op s :
  run host env github target op s
  = match try_block host env github target op (entered s) with
    | (Ret _, s1) => (Ret (result s1), s1)
    | (Throw e, s1) =>
        match top_catch e s1 with
        | (Ret _, s2) => (Ret (result s2), s2)
        | (Throw e', s2) => (Throw e', s2)
        | (Beyond, s2) => (Beyond, s2)
        end
    | (Beyond, s1) => (Beyond, s1)
    end.
Proof.
  destruct op; cbn [run try_block]; unfold pull, push, bind, try_catch;
    cbn [update_result]; fold (entered s);
    match goal with
    | |- context [?t (entered s)] => destruct (t (entered s)) as [[u|e|] s1]
    end; try reflexivity;
    destruct (top_catch e s1) as [[u|e'|] s2]; reflexivity.
Qed.

(** An operation whose [try] block throws returns the aborted result and
    merges the error, and nothing else, into the persisted state. *)
Lemma run_aborted github target op s e s1 :
  try_block host env github target op (entered s) = (Throw e, s1) ->
  run host env github target op s
  = (Ret (aborted (message_of e)),
     {| fs := fs s1;
        globalState :=
          Config.updateSyncState (only_error (message_of e)) (globalState s);
        world := world s1; sent := sent s1;
        result := aborted (message_of e) |}).
Proof.
  intros H. rewrite run_unfold, H.
  apply try_block_throws in H as [R G]. cbn [entered result globalState] in R, G.
  unfold top_catch, bind, push_error, update_result, get_result,
    updateSyncState; cbn.
  rewrite R, G. reflexivity.
Qed.

End Orchestrator.

(** C5.  A result with [success] set and an error in it.  Nothing is
    to be pulled, or pushed, and the error list is empty when [success] is
    set from it; the write to the memento that ends the [try] block is
    then rejected, and the [catch] block records the rejection without
    touching [success].  The write of the [catch] block goes through and
    the result is returned. *)
Theorem success_with_an_error :
  let env := env_with (config_with default_filesToSync policy_ask "t0k") in
  let host := static_host_over nat [] in
  let broken :=
    {| success := true; filesProcessed := 0;
       errors := [str "Unable to write state"]; conflicts := [] |} in
  fst (Storing.pull host env rejecting_once 1 client workspace
         (start_counting empty_local)) = Ret broken
  /\ fst (Storing.push host env rejecting_once client workspace
            (start_counting empty_cursor)) = Ret broken
  /\ success broken <> Nat.eqb (List.length (errors broken)) 0.
Proof.
  split; [vm_compute; reflexivity|].
  split; [vm_compute; reflexivity|vm_compute; discriminate].
Qed.

(** With a memento that takes every write, every [SyncResult] that
    [pull] or [push] returns has [success] equal to
    [errors.length === 0], whether the [try] block ran to its end with
    per-file errors accumulated or a top-level exception was caught; in
    particular a result without errors is a success whatever conflicts it
    records. *)
Theorem success_iff_no_errors (W : Type) (host : Host W) (env : Env)
    (github : GitHubClient) (target : SyncTarget) (op : operation)
    (s s' : State W) (r : SyncResult)
    (H : run host env github target op s = (Ret r, s')) :
  success r = Nat.eqb (List.length (errors r)) 0
  /\ (errors r = [] -> success r = true).
Proof.
  assert (E : success r = Nat.eqb (List.length (errors r)) 0).
  { destruct (try_block host env github target op (entered s))
      as [[u|e|] s1] eqn:T.
    - rewrite run_unfold, T in H. inversion H; subst.
      eapply try_block_returns; eassumption.
    - rewrite (run_aborted _ _ _ _ _ _ T) in H. inversion H; subst.
      reflexivity.
    - rewrite run_unfold, T in H. discriminate. }
  split; [exact E|]. intros N. now rewrite E, N.
Qed.

(** The pull of a conflicting [.cursorrules]: a conflict is recorded and
    the result is a success. *)
Lemma success_iff_no_errors_witness :
  let env := env_with (config_with [str "?cursorrules"] policy_useRemote "") in
  let r := {| success := true; filesProcessed := 1; errors := [];
              conflicts := [ {| ci_path := str ".cursorrules";
                                localContent := str "X";
                                remoteContent := str "Y";
                                resolution := Some useRemote |} ] |} in
  fst (run (static_host rules_remote) env client workspace (Pull 1)
           (start rules_local)) = Ret r
  /\ success r = Nat.eqb (List.length (errors r)) 0.
Proof.
  split; [vm_compute; reflexivity|].
  refine (proj1 (@success_iff_no_errors unit (static_host rules_remote)
                   (env_with (config_with [str "?cursorrules"] policy_useRemote ""))
                   client workspace (Pull 1) (start rules_local)
                   (snd (run (static_host rules_remote)
                           (env_with (config_with [str "?cursorrules"]
                                        policy_useRemote ""))
                           client workspace (Pull 1) (start rules_local)))
                   _ _)).
  vm_compute. reflexivity.
Defined.



(** C7.  When the listing call is answered with a status that is not a
    success, [listDirectory] returns an empty list if the status is 404
    and otherwise throws an error whose message carries the status code;
    and when the listing of the root is answered 404, [fetchAllFiles]
    returns an empty map. *)
Theorem listDirectory_not_found (W : Type) (host : Host W) (c : GitHubClient)
    (path : jsstring) (s : State W) (response : Response) (w : W)
    (Hnet : net_fetch host (listing_request c path) (world s)
            = (inl response, w))
    (Hok : ok response = false) :
  (status response = 404%N ->
     fst (listDirectory host c path s) = Ret []
     /\ (path = [] ->
         forall fuel patterns,
           fst (fetchAllFiles host (S fuel) c patterns s) = Ret []))
  /\ (status response <> 404%N ->
      fst (listDirectory host c path s)
      = Throw (ErrorObj (str "GitHub API error: " ++ dec (status response)
                           ++ str " " ++ statusText response))).
Proof.
  assert (L404 : status response = 404%N ->
                 listDirectory host c path s
                 = (Ret [], {| fs := fs s; globalState := globalState s;
                               world := w;
                               sent := listing_request c path :: sent s;
                               result := result s |})).
  { intros E. unfold listDirectory, bind, fetch. rewrite Hnet, Hok. cbn.
    now rewrite E. }
  split.
  - intros E. split; [now rewrite (L404 E)|].
    intros -> fuel patterns.
    unfold fetchAllFiles. cbn [processDirectory]. unfold bind at 1.
    now rewrite (L404 E).
  - intros N. unfold listDirectory, bind, fetch. rewrite Hnet, Hok. cbn.
    apply N.eqb_neq in N. now rewrite N.
Qed.

Lemma listDirectory_not_found_witness :
  let s := start empty_local in
  let host := static_host [] in
  net_fetch host (listing_request client []) (world s) = (inl not_found, tt)
  /\ ok not_found = false
  /\ fst (listDirectory host client [] s) = Ret []
  /\ fst (fetchAllFiles host 1 client default_filesToSync s) = Ret [].
Proof.
  assert (Hnet : net_fetch (static_host []) (listing_request client [])
                   (world (start empty_local)) = (inl not_found, tt))
    by reflexivity.
  assert (Hok : ok not_found = false) by reflexivity.
  destruct (listDirectory_not_found (static_host []) client []
              (start empty_local) Hnet Hok) as [F _].
  destruct (F eq_refl) as [L A].
  split; [exact Hnet|]. split; [exact Hok|].
  split; [exact L|exact (A eq_refl 0 default_filesToSync)].
Defined.

(** Another status: the error carries it. *)
Example listDirectory_forbidden :
  let forbidden := {| status := 403; statusText := str "Forbidden"; text := [];
                      json := JMessage None |} in
  let host := static_host
    [(str "https://api.github.com/repos/owner/dotfiles/contents/cursor?ref=main",
      forbidden)] in
  fst (listDirectory host client [] (start empty_local))
  = Throw (ErrorObj (str "GitHub API error: 403 Forbidden")).
Proof. vm_compute. reflexivity. Qed.



(** The other setup failures end in the same way: no workspace folder
    open, and a missing target directory for [push]. *)
Example abort_without_workspace :
  let env := {| HOME := None; USERPROFILE := None; workspaceFolder := None;
                cwd := str "/"; getConfig :=
                  config_with default_filesToSync policy_ask "t0k" |} in
  fst (pull (static_host []) env 1 client workspace (start empty_local))
  = Ret (aborted (str "No workspace folder open"))
  /\ fst (push (static_host []) (env_with (config_with default_filesToSync
                                             policy_ask "t0k"))
            client workspace (start empty_local))
     = Ret (aborted (str "Target directory does not exist: /home/u/proj/.cursor")).
Proof. split; vm_compute; reflexivity. Qed.

(** A pattern that does not compile is a bad configuration that aborts
    [pull] from inside: the error of the regular expression is the one
    error of the result and the [lastError] of the persisted state. *)
Example abort_on_bad_pattern :
  let env := env_with (config_with [str "("] policy_ask "") in
  let out := pull (static_host rules_remote) env 2 client workspace
                  {| fs := empty_local; globalState := Some None; world := tt;
                     sent := []; result := initial_result |} in
  fst out = Ret (aborted (str "Invalid regular expression: /^($/: Unterminated group"))
  /\ globalState (snd out)
     = Some (Some {| lastSyncedAt := None; lastSyncTarget := None;
                     lastSyncDirection := None; lastSyncFiles := [];
                     lastError := Some (str "Invalid regular expression: /^($/: Unterminated group") |}).
Proof. split; vm_compute; reflexivity. Qed.

(** A failure on one file is accumulated and the loop goes on: where a
    directory sits in place of [rules/a.mdc] the pull returns one error,
    prefixed with the path, and no success. *)
Example pull_per_file_error :
  let env := env_with (config_with default_filesToSync policy_useRemote "") in
  let blocked :=
    FS.Dir [(str "home", FS.Dir [(str "u", FS.Dir [(str "proj",
      FS.Dir [(str ".cursor", FS.Dir [(str "rules",
        FS.Dir [(str "a.mdc", FS.Dir [])])])])])])] in
  fst (pull (static_host nested_remote) env 2 client workspace (start blocked))
  = Ret {| success := false; filesProcessed := 0;
           errors := [str "rules/a.mdc: EISDIR: illegal operation on a directory, read"];
           conflicts := [] |}.
Proof. vm_compute. reflexivity. Qed.

(** The client of the concrete worlds is the one the constructor builds
    from their configuration. *)
Example client_of_config :
  new_GitHubClient (config_with default_filesToSync policy_ask "") = Ret client.
Proof. vm_compute. reflexivity. Qed.

(** ** Path mapping *)

Section PathMapping.

Import Path.

Lemma split_slash_cons (s : jsstring) : exists h r, split_slash s = h :: r.
Proof.
  destruct s as [|c t]; cbn [split_slash]; [eauto|].
  destruct (N.eqb c slash); [eauto|].
  destruct (split_slash t); eauto.
Qed.

Lemma split_slash_app (a b : jsstring) :
  split_slash (a ++ slash :: b) = split_slash a ++ split_slash b.
Proof.
  induction a as [|c a IH]; cbn [app split_slash].
  - now rewrite N.eqb_refl.
  - destruct (N.eqb c slash); rewrite IH; [reflexivity|].
    destruct (split_slash_cons a) as (h & r & ->). reflexivity.
Qed.

Lemma split_slash_free (s : jsstring) :
  forallb slash_free (split_slash s) = true.
Proof.
  induction s as [|c t IH]; cbn [split_slash]; [reflexivity|].
  destruct (N.eqb c slash) eqn:E; [exact IH|].
  destruct (split_slash t) as [|h r]; cbn in *; rewrite E; [reflexivity|].
  exact IH.
Qed.

Lemma split_slash_one (seg : jsstring) :
  slash_free seg = true -> split_slash seg = [seg].
Proof.
  induction seg as [|c t IH]; cbn; [reflexivity|].
  intros H. apply andb_true_iff in H as [Hc Ht].
  apply negb_true_iff in Hc. rewrite Hc, (IH Ht). reflexivity.
Qed.

Lemma join_two (x y : jsstring) (l : list jsstring) :
  JS.join (str "/") (x :: y :: l) = x ++ slash :: JS.join (str "/") (y :: l).
Proof. reflexivity. Qed.

Lemma join_split (p : jsstring) : JS.join (str "/") (split_slash p) = p.
Proof.
  induction p as [|c t IH]; cbn [split_slash]; [reflexivity|].
  destruct (N.eqb_spec c slash) as [->|N];
    destruct (split_slash_cons t) as (h & r & E); rewrite E in *.
  - rewrite join_two, IH. reflexivity.
  - destruct r; cbn in *; congruence.
Qed.

Lemma split_join (segs : list jsstring) :
  segs <> [] -> forallb slash_free segs = true ->
  split_slash (JS.join (str "/") segs) = segs.
Proof.
  induction segs as [|x l IH]; [easy|]. intros _ H.
  cbn [forallb] in H. apply andb_true_iff in H as [Hx Hl].
  destruct l as [|y l]; [now apply split_slash_one|].
  rewrite join_two, split_slash_app, (split_slash_one _ Hx), IH; easy.
Qed.

Lemma join_snoc (l : list jsstring) (z : jsstring) :
  l <> [] -> JS.join (str "/") (l ++ [z]) = JS.join (str "/") l ++ slash :: z.
Proof.
  induction l as [|x l IH]; [easy|]. intros _.
  destruct l as [|y l]; [reflexivity|].
  change ((x :: y :: l) ++ [z]) with (x :: (y :: l) ++ [z]).
  cbn [app]. rewrite !join_two, <- app_assoc.
  f_equal. cbn [app]. f_equal. now apply IH.
Qed.

(** *** Normalisation *)

Lemma solid_plain (seg : jsstring) : solid seg = true -> plain_segment seg = true.
Proof. unfold solid. intros H. now apply andb_true_iff in H. Qed.

Lemma norm_step_plain (allow : bool) (res : list jsstring) (seg : jsstring) :
  plain_segment seg = true -> norm_step allow res seg = seg :: res.
Proof.
  unfold plain_segment, norm_step. intros H.
  apply andb_true_iff in H as [H H2]. apply andb_true_iff in H as [H0 H1].
  apply negb_true_iff in H0, H1, H2. now rewrite H0, H1, H2.
Qed.

Lemma fold_plain (allow : bool) (P res : list jsstring) :
  forallb plain_segment P = true ->
  fold_left (norm_step allow) P res = rev P ++ res.
Proof.
  revert res. induction P as [|x P IH]; intros res H; [reflexivity|].
  cbn [forallb] in H. apply andb_true_iff in H as [Hx HP].
  cbn [fold_left rev]. rewrite norm_step_plain, IH, <- app_assoc by easy.
  reflexivity.
Qed.

Lemma shaped_nil (allow : bool) : shaped allow [].
Proof. exists 0, []. now repeat split. Qed.

Lemma shaped_step (allow : bool) (res : list jsstring) (seg : jsstring) :
  slash_free seg = true -> shaped allow res ->
  shaped allow (norm_step allow res seg).
Proof.
  intros Hf (k & C & -> & HC & Hk). unfold norm_step.
  destruct (is_empty seg || eqs seg (str ".")) eqn:E0; [now exists k, C|].
  destruct (eqs seg (str "..")) eqn:E2.
  - apply eqs_eq in E2; subst seg.
    destruct C as [|c C] using rev_ind.
    + cbn [rev app]. destruct k as [|k]; cbn [repeat].
      * destruct allow; [now exists 1, []|now exists 0, []].
      * cbn. destruct allow; [|now specialize (Hk eq_refl)].
        now exists (S (S k)), [].
    + rewrite rev_app_distr. cbn [rev app].
      rewrite forallb_app in HC. apply andb_true_iff in HC as [HC Hc].
      cbn in Hc. rewrite andb_true_r in Hc.
      assert (N : eqs c (str "..") = false).
      { apply solid_plain in Hc. unfold plain_segment in Hc.
        apply andb_true_iff in Hc as [_ Hc]. now apply negb_true_iff in Hc. }
      rewrite N. now exists k, C.
  - exists k, (C ++ [seg]). rewrite rev_app_distr. repeat split; [|exact Hk].
    rewrite forallb_app, HC. cbn. rewrite !andb_true_r.
    unfold solid, plain_segment. apply orb_false_iff in E0 as [E0 E1].
    now rewrite E0, E1, E2, Hf.
Qed.

Lemma shaped_fold (allow : bool) (L res : list jsstring) :
  forallb slash_free L = true -> shaped allow res ->
  shaped allow (fold_left (norm_step allow) L res).
Proof.
  revert res. induction L as [|x L IH]; intros res H Hs; [exact Hs|].
  cbn [forallb] in H. apply andb_true_iff in H as [Hx HL].
  cbn [fold_left]. apply IH; [exact HL|]. now apply shaped_step.
Qed.

Lemma fold_dotdots (k : nat) :
  fold_left (norm_step true) (repeat (str "..") k) [] = repeat (str "..") k.
Proof.
  induction k as [|k IH]; [reflexivity|].
  replace (S k) with (k + 1) at 1 by lia.
  rewrite repeat_app, fold_left_app, IH. cbn [repeat fold_left].
  destruct k; reflexivity.
Qed.

(** Normalising what normalisation kept changes nothing. *)
Lemma refold (allow : bool) (res : list jsstring) :
  shaped allow res -> fold_left (norm_step allow) (rev res) [] = res.
Proof.
  intros (k & C & -> & HC & Hk).
  rewrite rev_app_distr, rev_involutive, rev_repeat, fold_left_app.
  assert (P : forallb plain_segment C = true).
  { rewrite forallb_forall in *. intros x Hx. apply solid_plain. auto. }
  destruct allow.
  - now rewrite fold_dotdots, fold_plain.
  - rewrite (Hk eq_refl). cbn [repeat fold_left]. now rewrite fold_plain.
Qed.

Lemma shaped_solid (allow : bool) (res : list jsstring) :
  shaped allow res ->
  forallb (fun seg => negb (is_empty seg) && slash_free seg) res = true.
Proof.
  intros (k & C & -> & HC & _). rewrite forallb_app. apply andb_true_iff. split.
  - rewrite forallb_forall in *. intros x Hx. apply in_rev in Hx.
    specialize (HC x Hx). unfold solid, plain_segment in HC.
    apply andb_true_iff in HC as [HC ->]. apply andb_true_iff in HC as [HC _].
    apply andb_true_iff in HC as [-> _]. reflexivity.
  - rewrite forallb_forall. intros x Hx. apply repeat_spec in Hx. now subst.
Qed.

(** *** Rendered paths *)

Lemma solid_filled (l : list jsstring) :
  forallb solid l = true -> forallb filled l = true.
Proof.
  rewrite !forallb_forall. intros H x Hx. specialize (H x Hx).
  unfold solid, plain_segment in H. unfold filled.
  apply andb_true_iff in H as [H ->]. apply andb_true_iff in H as [H _].
  apply andb_true_iff in H as [-> _]. reflexivity.
Qed.

Lemma filled_slash_free (l : list jsstring) :
  forallb filled l = true -> forallb slash_free l = true.
Proof.
  rewrite !forallb_forall. intros H x Hx. specialize (H x Hx).
  unfold filled in H. now apply andb_true_iff in H.
Qed.

Lemma join_head (l : list jsstring) :
  l <> [] -> forallb filled l = true ->
  exists c t, JS.join (str "/") l = c :: t /\ N.eqb c slash = false.
Proof.
  destruct l as [|x l]; [easy|]. intros _ H.
  cbn [forallb] in H. apply andb_true_iff in H as [Hx _].
  unfold filled in Hx. apply andb_true_iff in Hx as [Hn Hf].
  destruct x as [|c x]; [discriminate|].
  cbn in Hf. apply andb_true_iff in Hf as [Hc _]. apply negb_true_iff in Hc.
  exists c. destruct l; cbn; eauto.
Qed.

Lemma isAbsolute_render (absolute : bool) (l : list jsstring) :
  l <> [] -> forallb filled l = true ->
  isAbsolute (render absolute l) = absolute.
Proof.
  intros N H. destruct absolute; [reflexivity|].
  cbn [render]. destruct (join_head N H) as (c & t & -> & E). exact E.
Qed.

Lemma render_nonempty (absolute : bool) (l : list jsstring) :
  l <> [] -> forallb filled l = true ->
  exists c t, render absolute l = c :: t.
Proof.
  intros N H. destruct absolute; cbn [render]; [eauto|].
  destruct (join_head N H) as (c & t & -> & _). eauto.
Qed.

Lemma split_render (absolute : bool) (l : list jsstring) :
  l <> [] -> forallb filled l = true ->
  split_slash (render absolute l) = if absolute then [] :: l else l.
Proof.
  intros N H. apply filled_slash_free in H.
  destruct absolute; cbn [render split_slash];
    [rewrite N.eqb_refl|]; now rewrite split_join.
Qed.

Lemma render_inj (absolute : bool) (a b : list jsstring) :
  a <> [] -> b <> [] -> forallb filled a = true -> forallb filled b = true ->
  render absolute a = render absolute b -> a = b.
Proof.
  intros Na Nb Ha Hb E. apply (f_equal split_slash) in E.
  rewrite !split_render in E by easy. destruct absolute; congruence.
Qed.

Lemma endsWithSlash_app (w z : jsstring) :
  z <> [] -> slash_free z = true -> endsWithSlash (w ++ z) = false.
Proof.
  intros N H. destruct z as [|c z] using rev_ind; [easy|]. clear IHz.
  unfold endsWithSlash. rewrite app_assoc, rev_app_distr. cbn.
  unfold slash_free in H. rewrite forallb_app in H.
  apply andb_true_iff in H as [_ H]. cbn in H. rewrite andb_true_r in H.
  now apply negb_true_iff in H.
Qed.

Lemma endsWithSlash_join (w : jsstring) (l : list jsstring) :
  l <> [] -> forallb filled l = true ->
  endsWithSlash (w ++ JS.join (str "/") l) = false.
Proof.
  intros N H. destruct l as [|z l] using rev_ind; [easy|]. clear IHl.
  rewrite forallb_app in H. apply andb_true_iff in H as [_ H].
  cbn in H. rewrite andb_true_r in H. unfold filled in H.
  apply andb_true_iff in H as [Hn Hf].
  assert (Z : z <> []) by (destruct z; easy).
  destruct l as [|x l].
  - cbn. now apply endsWithSlash_app.
  - rewrite join_snoc by easy.
    replace (w ++ JS.join (str "/") (x :: l) ++ slash :: z)
      with ((w ++ JS.join (str "/") (x :: l) ++ [slash]) ++ z)
      by (now rewrite <- !app_assoc).
    now apply endsWithSlash_app.
Qed.

Lemma join_filled (l : list jsstring) :
  l <> [] -> forallb filled l = true -> is_empty (JS.join (str "/") l) = false.
Proof.
  intros N H. destruct (join_head N H) as (c & t & -> & _). reflexivity.
Qed.

Lemma shaped_filled (allow : bool) (res : list jsstring) :
  shaped allow res -> forallb filled (rev res) = true.
Proof.
  intros H. apply shaped_solid in H. rewrite forallb_forall in *.
  intros x Hx. apply in_rev in Hx. exact (H x Hx).
Qed.

(** [normalize] of a text that does not end in a slash and keeps at
    least one segment. *)
Lemma normalize_render (x : jsstring) :
  x <> [] -> endsWithSlash x = false ->
  let res := fold_left (norm_step (negb (isAbsolute x))) (split_slash x) [] in
  res <> [] ->
  normalize x = render (isAbsolute x) (rev res).
Proof.
  intros Nx Ht res Nr. destruct x as [|c t]; [easy|].
  unfold normalize, normalizeString, normalizeSegments. fold res. rewrite Ht.
  assert (S : shaped (negb (isAbsolute (c :: t))) res)
    by (apply shaped_fold; [apply split_slash_free|apply shaped_nil]).
  rewrite join_filled; [reflexivity| |now apply shaped_filled in S].
  intros E. apply (f_equal (@rev _)) in E. rewrite rev_involutive in E.
  now apply Nr.
Qed.

(** Joining a normalised path [render absolute S] with a normalised
    relative path appends the segments. *)
Lemma join_render (absolute : bool) (res : list jsstring) (p : jsstring) :
  res <> [] -> shaped (negb absolute) res ->
  normalized_relative p = true ->
  Path.join (render absolute (rev res)) p
  = render absolute (rev res ++ split_slash p).
Proof.
  intros Nr S Hp.
  assert (F : forallb filled (rev res) = true) by now apply shaped_filled in S.
  assert (N : rev res <> []).
  { intros E. apply (f_equal (@rev _)) in E. now rewrite rev_involutive in E. }
  assert (Fp : forallb filled (split_slash p) = true).
  { pose proof (split_slash_free p) as Sf. unfold normalized_relative in Hp.
    rewrite forallb_forall in *. intros x Hx.
    specialize (Hp x Hx). specialize (Sf x Hx). unfold filled, plain_segment in *.
    apply andb_true_iff in Hp as [Hp _]. apply andb_true_iff in Hp as [-> _].
    exact Sf. }
  assert (Np : split_slash p <> [])
    by (destruct (split_slash_cons p) as (h & r & ->); easy).
  destruct (render_nonempty absolute N F) as (c & t & Er).
  destruct p as [|pc pt]; [discriminate|].
  unfold Path.join. rewrite Er.
  change (str "/" ++ pc :: pt) with (slash :: pc :: pt). rewrite <- Er.
  set (x := render absolute (rev res) ++ slash :: pc :: pt).
  assert (Ax : isAbsolute x = absolute).
  { unfold x. rewrite Er. cbn. rewrite <- (isAbsolute_render absolute N F), Er.
    reflexivity. }
  assert (Rx : fold_left (norm_step (negb (isAbsolute x))) (split_slash x) []
               = rev (split_slash (pc :: pt)) ++ res).
  { rewrite Ax. unfold x. rewrite split_slash_app, fold_left_app.
    rewrite split_render by easy.
    replace (fold_left (norm_step (negb absolute))
               (if absolute then [] :: rev res else rev res) [])
      with res by (destruct absolute; cbn [fold_left]; symmetry; now apply refold).
    now apply fold_plain. }
  rewrite normalize_render.
  - rewrite Rx, Ax, rev_app_distr, rev_involutive. reflexivity.
  - unfold x. rewrite Er. discriminate.
  - unfold x. rewrite <- (join_split (pc :: pt)).
    replace (render absolute (rev res) ++ slash :: JS.join (str "/") (split_slash (pc :: pt)))
      with ((render absolute (rev res) ++ [slash]) ++ JS.join (str "/") (split_slash (pc :: pt)))
      by (now rewrite <- app_assoc).
    now apply endsWithSlash_join.
  - rewrite Rx. intros E. apply app_eq_nil in E as [_ E]. now apply Nr.
Qed.

(** *** The sync root and its parent *)

(** The sync root [path.join(base, '.cursor')] is a normalised path whose
    last segment is [.cursor]. *)
Lemma join_cursor (base : jsstring) :
  let absolute := isAbsolute base in
  let res := fold_left (norm_step (negb absolute)) (split_slash base) [] in
  shaped (negb absolute) res
  /\ Path.join base CURSOR_DIR = render absolute (rev (str ".cursor" :: res)).
Proof.
  intros absolute res.
  assert (S : shaped (negb absolute) res)
    by (apply shaped_fold; [apply split_slash_free|apply shaped_nil]).
  split; [exact S|].
  destruct base as [|c t]; [reflexivity|].
  change (Path.join (c :: t) CURSOR_DIR)
    with (normalize ((c :: t) ++ slash :: str ".cursor")).
  set (x := (c :: t) ++ slash :: str ".cursor").
  assert (Rx : fold_left (norm_step (negb (isAbsolute x))) (split_slash x) []
               = str ".cursor" :: res).
  { unfold x. rewrite split_slash_app, fold_left_app. reflexivity. }
  rewrite normalize_render.
  - rewrite Rx. reflexivity.
  - discriminate.
  - replace x with (((c :: t) ++ [slash]) ++ str ".cursor")
      by (unfold x; now rewrite <- app_assoc).
    apply endsWithSlash_app; [discriminate|reflexivity].
  - rewrite Rx. discriminate.
Qed.

Lemma shaped_cursor (allow : bool) (res : list jsstring) :
  shaped allow res -> shaped allow (str ".cursor" :: res).
Proof.
  intros S.
  change (str ".cursor" :: res) with (norm_step allow res (str ".cursor")).
  now apply shaped_step.
Qed.

Lemma dirname_end_cursor (r : jsstring) :
  dirname_end (rev (slash :: str ".cursor") ++ r) true = Some (S (List.length r)).
Proof. reflexivity. Qed.

Lemma firstn_length_app {A : Type} (l l' : list A) :
  firstn (List.length l) (l ++ l') = l.
Proof. induction l as [|a l IH]; cbn; [reflexivity|now rewrite IH]. Qed.

Lemma render_snoc (absolute : bool) (l : list jsstring) (z : jsstring) :
  l <> [] -> render absolute (l ++ [z]) = render absolute l ++ slash :: z.
Proof.
  intros N. unfold render. rewrite join_snoc by easy. now destruct absolute.
Qed.

(** The parent of a sync root below at least one directory. *)
Lemma dirname_render (absolute : bool) (res : list jsstring) :
  res <> [] -> shaped (negb absolute) res ->
  dirname (render absolute (rev (str ".cursor" :: res)))
  = render absolute (rev res).
Proof.
  intros Nr Hs.
  assert (F : forallb filled (rev res) = true) by now apply shaped_filled in Hs.
  assert (N : rev res <> []).
  { intros E. apply (f_equal (@rev _)) in E. now rewrite rev_involutive in E. }
  cbn [rev]. rewrite render_snoc by exact N.
  destruct (render_nonempty absolute N F) as (c & t & Er).
  pose proof (isAbsolute_render absolute N F) as Ia.
  rewrite Er in *. cbn [isAbsolute] in Ia.
  unfold dirname. cbn [app]. rewrite rev_app_distr, dirname_end_cursor.
  rewrite Ia, length_rev.
  assert (E1 : absolute && Nat.eqb (S (List.length t)) 1 = false).
  { destruct absolute; [|reflexivity].
    assert (Et : t = JS.join (str "/") (rev res))
      by (cbn [render] in Er; congruence).
    destruct (join_head N F) as (c' & t' & Ej & _).
    rewrite Ej in Et. subst t. reflexivity. }
  rewrite E1. cbn [firstn]. now rewrite firstn_length_app.
Qed.

(** Where the distinguished rules file lives, next to the sync root. *)
Lemma parent_join (absolute : bool) (res : list jsstring) :
  shaped (negb absolute) res ->
  Path.join (dirname (render absolute (rev (str ".cursor" :: res))))
            (str ".cursorrules")
  = render absolute (rev res ++ [str ".cursorrules"]).
Proof.
  intros S. destruct res as [|top res].
  - destruct absolute; reflexivity.
  - rewrite dirname_render by easy.
    now rewrite join_render by easy.
Qed.

(** *** Resolution against the working directory *)

Lemma filter_filled (l : list jsstring) :
  forallb filled l = true ->
  filter (fun seg => negb (is_empty seg)) l = l.
Proof.
  induction l as [|x l IH]; [reflexivity|]. cbn [forallb filter].
  intros H. apply andb_true_iff in H as [Hx Hl].
  unfold filled in Hx. apply andb_true_iff in Hx as [-> _].
  now rewrite IH.
Qed.

Lemma segments_rooted (l : list jsstring) :
  forallb filled l = true -> segments (slash :: JS.join (str "/") l) = l.
Proof.
  intros F. unfold segments. cbn [split_slash]. rewrite N.eqb_refl.
  cbn [filter is_empty negb].
  destruct l as [|x l]; [reflexivity|].
  rewrite split_join; [now apply filter_filled|easy|now apply filled_slash_free].
Qed.

Lemma strip_common_app (a b : list jsstring) :
  strip_common a (a ++ b) = ([], b).
Proof.
  induction a as [|x a IH]; cbn [strip_common app].
  - now destruct b.
  - now rewrite eqs_refl.
Qed.

Lemma reached_shaped (cwd : jsstring) (absolute : bool) (res : list jsstring) :
  shaped false (reached cwd absolute res).
Proof.
  unfold reached. apply shaped_fold; [apply split_slash_free|].
  destruct absolute; [apply shaped_nil|].
  apply shaped_fold; [apply split_slash_free|apply shaped_nil].
Qed.

Lemma norm_step_empty (allow : bool) (res : list jsstring) :
  norm_step allow res [] = res.
Proof. reflexivity. Qed.

Lemma resolve_render (cwd : jsstring) (absolute : bool) (res Q : list jsstring) :
  isAbsolute cwd = true ->
  res <> [] -> shaped (negb absolute) res ->
  forallb solid Q = true ->
  resolve cwd (render absolute (rev res ++ Q))
  = slash :: JS.join (str "/") (rev (reached cwd absolute res) ++ Q).
Proof.
  intros cwd_absolute res_kept res_shaped HQ.
  assert (F : forallb filled (rev res) = true)
    by (eapply shaped_filled; exact res_shaped).
  assert (N : rev res <> []).
  { intros E. apply (f_equal (@rev _)) in E. now rewrite rev_involutive in E. }
  assert (FQ : forallb filled (rev res ++ Q) = true)
    by (rewrite forallb_app, F; now apply solid_filled).
  assert (NQ : rev res ++ Q <> []) by (destruct (rev res); easy).
  assert (PQ : forallb plain_segment Q = true).
  { rewrite forallb_forall in *. intros x Hx. apply solid_plain. auto. }
  set (x := render absolute (rev res ++ Q)).
  assert (Ax : isAbsolute x = absolute) by now apply isAbsolute_render.
  assert (Sx : split_slash x = split_slash (render absolute (rev res)) ++ Q).
  { unfold x. rewrite !split_render by easy.
    destruct absolute; reflexivity. }
  assert (Ex : is_empty x = false).
  { destruct (render_nonempty absolute NQ FQ) as (c & t & E).
    unfold x. now rewrite E. }
  unfold resolve. rewrite Ax, Ex, cwd_absolute, orb_true_r. cbn [negb].
  unfold normalizeString, normalizeSegments, reached. do 2 f_equal.
  destruct absolute.
  - change (x ++ str "/") with (x ++ slash :: []).
    rewrite split_slash_app, fold_left_app, Sx, fold_left_app.
    cbn [split_slash fold_left]. rewrite norm_step_empty.
    rewrite fold_plain by exact PQ.
    now rewrite rev_app_distr, rev_involutive.
  - change (cwd ++ str "/" ++ x ++ str "/")
      with (cwd ++ slash :: (x ++ slash :: [])).
    rewrite !split_slash_app, !fold_left_app, Sx, fold_left_app.
    cbn [split_slash fold_left]. rewrite norm_step_empty.
    rewrite fold_plain by exact PQ.
    now rewrite rev_app_distr, rev_involutive.
Qed.

Lemma normalized_solid (p : jsstring) :
  normalized_relative p = true -> forallb solid (split_slash p) = true.
Proof.
  intros Hp. pose proof (split_slash_free p) as Sf.
  unfold normalized_relative in Hp. rewrite forallb_forall in *.
  intros x Hx. unfold solid. now rewrite (Hp x Hx), (Sf x Hx).
Qed.

End PathMapping.

(** C4.  On Windows the round trip fails for a remote path with a
    directory in it.  Below the sync root of a workspace, built as
    [getTargetPath] builds it, the path [rules/a.mdc] is mapped to a local
    path and comes back as [rules\a.mdc]: [mapToRemotePath] returns what
    [path.relative] answers and leaves out the replacement of backslashes
    that [collectLocalFiles] applies to the same paths, which would give
    the path back.  The distinguished file and a path of one segment do
    come back as they were. *)
Theorem path_round_trip_windows :
  let root := str "c:\Users\u\proj\.cursor" in
  let there_and_back p :=
    match Win32.mapToLocalPath p root with
    | Ret localPath => Win32.mapToRemotePath localPath root
    | other => other
    end in
  Win32.join (str "c:\Users\u\proj") CURSOR_DIR = Ret root
  /\ Win32.mapToLocalPath (str "rules/a.mdc") root
     = Ret (str "c:\Users\u\proj\.cursor\rules\a.mdc")
  /\ there_and_back (str "rules/a.mdc") = Ret (str "rules\a.mdc")
  /\ str "rules\a.mdc" <> str "rules/a.mdc"
  /\ replace_all (lit "\\") (str "/") (str "rules\a.mdc") = str "rules/a.mdc"
  /\ there_and_back (str ".cursorrules") = Ret (str ".cursorrules")
  /\ there_and_back (str "mcp.json") = Ret (str "mcp.json").
Proof.
  repeat split; try (vm_compute; reflexivity). vm_compute. discriminate.
Qed.

(** With POSIX paths, a path that is not in normal form does not come
    back either: [path.join] resolves the [..] segment, and the way back
    yields the normalised path.  The same holds for a sync root that is
    not in normal form: below the root [a/..] the path [a/.cursorrules]
    lands where the distinguished file of that root lives, and comes back
    as [.cursorrules]. *)
Lemma path_round_trip_fails :
  let env := env_with (config_with default_filesToSync policy_ask "") in
  let root := Path.join (str "/home/u/proj") CURSOR_DIR in
  let p := str "rules/../mcp.json" in
  mapToRemotePath env (mapToLocalPath p root) root = str "mcp.json"
  /\ mapToRemotePath env (mapToLocalPath p root) root <> p
  /\ mapToRemotePath env (mapToLocalPath (str "a/.cursorrules") (str "a/.."))
       (str "a/..") = str ".cursorrules".
Proof.
  split; [vm_compute; reflexivity|].
  split; [vm_compute; discriminate|vm_compute; reflexivity].
Qed.

(** X23.  With POSIX paths, in a process whose working directory is
    absolute, for every sync root [path.join(base, '.cursor')], as
    [getTargetPath] builds it, and every remote-relative path [p] in
    normal form (segments separated by single slashes, none empty, [.] or
    [..]), the distinguished [.cursorrules] included,
    [mapToRemotePath(mapToLocalPath(p, root), root)] is [p]. *)
Theorem path_round_trip (env : Env) (base p : jsstring)
    (Hcwd : Path.isAbsolute (cwd env) = true)
    (Hp : Path.normalized_relative p = true) :
  let root := Path.join base CURSOR_DIR in
  mapToRemotePath env (mapToLocalPath p root) root = p.
Proof.
  intros root.
  destruct (join_cursor base) as [S0 Eroot]. fold root in Eroot.
  set (absolute := Path.isAbsolute base) in *.
  set (res0 := fold_left (Path.norm_step (negb absolute))
                 (Path.split_slash base) []) in *.
  pose proof (shaped_cursor S0) as S1.
  pose proof (normalized_solid p Hp) as Sp.
  pose proof (solid_filled _ Sp) as Fp.
  pose proof (shaped_filled S0) as F0.
  pose proof (shaped_filled S1) as F1.
  assert (Np : Path.split_slash p <> [])
    by (destruct (split_slash_cons p) as (h & r & ->); easy).
  assert (N1 : rev (str ".cursor" :: res0) <> [])
    by (cbn; now destruct (rev res0)).
  unfold mapToLocalPath, mapToRemotePath.
  destruct (eqs p (str ".cursorrules")) eqn:Ep.
  { apply eqs_eq in Ep. now rewrite eqs_refl. }
  rewrite Eroot, parent_join, join_render by easy.
  rewrite eqs_neq.
  2:{ intros E. apply render_inj in E.
      - cbn [rev] in E. rewrite <- app_assoc in E. apply app_inv_head in E.
        cbn in E. injection E as E _. vm_compute in E. discriminate.
      - now destruct (rev (str ".cursor" :: res0)).
      - now destruct (rev res0).
      - now rewrite forallb_app, F1, Fp.
      - now rewrite forallb_app, F0. }
  pose proof (shaped_filled
                (reached_shaped (cwd env) absolute (str ".cursor" :: res0)))
    as FG.
  unfold Path.relative. rewrite eqs_neq.
  2:{ intros E. apply render_inj in E.
      - rewrite <- (app_nil_r (rev _)) in E at 1.
        apply app_inv_head in E. congruence.
      - exact N1.
      - now destruct (rev (str ".cursor" :: res0)).
      - exact F1.
      - now rewrite forallb_app, F1, Fp. }
  set (G := rev (reached (cwd env) absolute (str ".cursor" :: res0))) in *.
  assert (Efrom : Path.resolve (cwd env)
                    (render absolute (rev (str ".cursor" :: res0)))
                  = Path.slash :: JS.join (str "/") G).
  { rewrite <- (app_nil_r (rev _)) at 1.
    rewrite resolve_render by easy. fold G. now rewrite app_nil_r. }
  rewrite Efrom, resolve_render by easy. fold G.
  assert (FGp : forallb filled (G ++ Path.split_slash p) = true)
    by now rewrite forallb_app, FG, Fp.
  rewrite eqs_neq.
  2:{ intros E. apply (f_equal Path.segments) in E.
      rewrite !segments_rooted in E by easy.
      rewrite <- (app_nil_r G) in E at 1.
      apply app_inv_head in E. congruence. }
  rewrite !segments_rooted, strip_common_app by easy.
  cbn [map app]. apply join_split.
Qed.

Lemma path_round_trip_witness :
  let env := env_with (config_with default_filesToSync policy_ask "") in
  let root := Path.join (str "/home/u") CURSOR_DIR in
  Path.isAbsolute (cwd env) = true
  /\ Path.normalized_relative (str "rules/sub/b.mdc") = true
  /\ mapToRemotePath env (mapToLocalPath (str "rules/sub/b.mdc") root) root
     = str "rules/sub/b.mdc".
Proof.
  split; [reflexivity|]. split; [reflexivity|].
  apply (@path_round_trip
           (env_with (config_with default_filesToSync policy_ask ""))
           (str "/home/u") (str "rules/sub/b.mdc")); reflexivity.
Defined.

(** The distinguished file, and a relative sync root. *)
Example path_round_trip_cursorrules :
  let env := env_with (config_with default_filesToSync policy_ask "") in
  mapToLocalPath (str ".cursorrules") (str "/home/u/proj/.cursor")
  = str "/home/u/proj/.cursorrules"
  /\ mapToRemotePath env (str "/home/u/proj/.cursorrules")
       (str "/home/u/proj/.cursor") = str ".cursorrules"
  /\ mapToRemotePath env (mapToLocalPath (str "mcp.json") (str ".cursor"))
       (str ".cursor") = str "mcp.json".
Proof. repeat split; vm_compute; reflexivity. Qed.

(* ================================================================== *)
(** * Further properties of the engine *)
(* ================================================================== *)

(** ** The file tree *)

Lemma find_set_same (k : jsstring) (c : FS.node) (es : list (jsstring * FS.node)) :
  FS.find_entry k (FS.set_entry k c es) = Some c.
Proof.
  induction es as [|[n c0] es IH]; cbn.
  - now rewrite eqs_refl.
  - destruct (eqs n k) eqn:E; cbn; now rewrite E.
Qed.

Lemma find_set_other (k k' : jsstring) (c : FS.node)
    (es : list (jsstring * FS.node)) :
  k' <> k -> FS.find_entry k' (FS.set_entry k c es) = FS.find_entry k' es.
Proof.
  intros N. induction es as [|[n c0] es IH]; cbn.
  - destruct (eqs k k') eqn:E; [|reflexivity].
    apply eqs_eq in E. congruence.
  - destruct (eqs n k) eqn:E; cbn; [|now rewrite IH].
    apply eqs_eq in E. subst n.
    destruct (eqs k k') eqn:E'; [|reflexivity].
    apply eqs_eq in E'. congruence.
Qed.

Lemma set_found (k : jsstring) (c : FS.node) (es : list (jsstring * FS.node)) :
  FS.find_entry k es = Some c -> FS.set_entry k c es = es.
Proof.
  induction es as [|[n c0] es IH]; cbn; [discriminate|].
  destruct (eqs n k); [congruence|]. intros H. now rewrite IH.
Qed.

Lemma lookup_step (t : jsstring) (q : list jsstring) (k : jsstring)
    (c : FS.node) (es : list (jsstring * FS.node)) :
  FS.lookup (t :: q) (FS.Dir (FS.set_entry k c es))
  = if eqs t k then FS.lookup q c else FS.lookup (t :: q) (FS.Dir es).
Proof.
  cbn [FS.lookup]. destruct (eqs t k) eqn:E.
  - apply eqs_eq in E. subst t. now rewrite find_set_same.
  - rewrite find_set_other; [reflexivity|].
    intros ->. now rewrite eqs_refl in E.
Qed.

(** Creating directories leaves every regular file in place. *)
Lemma mkdirp_keeps_file (d : list jsstring) :
  forall n n' q c,
    FS.mkdirp d n = inr n' ->
    FS.lookup q n = inr (FS.File c) -> FS.lookup q n' = inr (FS.File c).
Proof.
  induction d as [|s d IH]; intros n n' q c Hm Hq; destruct n as [c0|es];
    cbn in Hm; try discriminate.
  - now inversion Hm.
  - destruct (FS.mkdirp d _) as [e|child'] eqn:Ed; [discriminate|].
    inversion Hm; subst n'; clear Hm.
    destruct q as [|t q]; [discriminate|].
    rewrite lookup_step. destruct (eqs t s) eqn:E; [|exact Hq].
    apply eqs_eq in E. subst t. cbn [FS.lookup] in Hq.
    destruct (FS.find_entry s es) as [child|]; [|discriminate].
    eapply IH; eassumption.
Qed.

(** A directory that is there need not be created. *)
Lemma mkdirp_there (d : list jsstring) :
  forall n es, FS.lookup d n = inr (FS.Dir es) -> FS.mkdirp d n = inr n.
Proof.
  induction d as [|s d IH]; intros n es H; destruct n as [c0|es0]; cbn in *;
    try discriminate; try reflexivity.
  destruct (FS.find_entry s es0) as [child|] eqn:F; [|discriminate].
  rewrite (IH _ _ H). now rewrite set_found.
Qed.

Lemma mkdirp_lookup (d : list jsstring) :
  forall n n', FS.mkdirp d n = inr n' -> exists es, FS.lookup d n' = inr (FS.Dir es).
Proof.
  induction d as [|s d IH]; intros n n' Hm; destruct n as [c0|es];
    cbn in Hm; try discriminate.
  - inversion Hm. cbn. eauto.
  - destruct (FS.mkdirp d _) as [e|child'] eqn:Ed; [discriminate|].
    inversion Hm; subst n'. rewrite lookup_step, eqs_refl. eapply IH; eassumption.
Qed.

(** Reading back what was written. *)
Lemma write_lookup (a : list jsstring) (c : jsstring) :
  forall n n', FS.write a c n = inr n' -> FS.lookup a n' = inr (FS.File c).
Proof.
  induction a as [|s a IH]; intros n n' Hw; destruct n as [c0|es];
    cbn in Hw; try discriminate.
  - now inversion Hw.
  - destruct (FS.find_entry s es) as [child|] eqn:F.
    + destruct (FS.write a c child) as [e|child'] eqn:Ew; [discriminate|].
      inversion Hw; subst n'. rewrite lookup_step, eqs_refl. eapply IH; eassumption.
    + destruct a; [|discriminate]. inversion Hw; subst n'.
      now rewrite lookup_step, eqs_refl.
Qed.

(** Writing what is there changes nothing. *)
Lemma write_there (a : list jsstring) (c : jsstring) :
  forall n, FS.lookup a n = inr (FS.File c) -> FS.write a c n = inr n.
Proof.
  induction a as [|s a IH]; intros n H; destruct n as [c0|es]; cbn in *;
    try discriminate.
  - congruence.
  - destruct (FS.find_entry s es) as [child|] eqn:F; [|discriminate].
    rewrite (IH _ H). now rewrite set_found.
Qed.

(** Writing a file leaves the other regular files in place. *)
Lemma write_keeps_file (a : list jsstring) (c : jsstring) :
  forall n n' q cq,
    FS.write a c n = inr n' ->
    FS.lookup q n = inr (FS.File cq) ->
    (q = a -> cq = c) ->
    FS.lookup q n' = inr (FS.File cq).
Proof.
  induction a as [|s a IH]; intros n n' q cq Hw Hq Hsame;
    destruct n as [c0|es]; cbn in Hw; try discriminate.
  - inversion Hw; subst n'. destruct q as [|t q]; [|discriminate].
    now rewrite (Hsame eq_refl).
  - destruct q as [|t q]; [discriminate|].
    destruct (FS.find_entry s es) as [child|] eqn:F.
    + destruct (FS.write a c child) as [e|child'] eqn:Ew; [discriminate|].
      inversion Hw; subst n'. rewrite lookup_step.
      destruct (eqs t s) eqn:E; [|exact Hq].
      apply eqs_eq in E. subst t. cbn [FS.lookup] in Hq. rewrite F in Hq.
      eapply IH; [eassumption|exact Hq|]. intros ->. now apply Hsame.
    + destruct a; [|discriminate]. inversion Hw; subst n'. rewrite lookup_step.
      destruct (eqs t s) eqn:E; [|exact Hq].
      apply eqs_eq in E. subst t. cbn [FS.lookup] in Hq. now rewrite F in Hq.
Qed.

(** Writing a file leaves the directories in place. *)
Lemma write_keeps_dir (a : list jsstring) (c : jsstring) :
  forall n n' d es,
    FS.write a c n = inr n' ->
    FS.lookup d n = inr (FS.Dir es) ->
    exists es', FS.lookup d n' = inr (FS.Dir es').
Proof.
  induction a as [|s a IH]; intros n n' d es0 Hw Hd;
    destruct n as [c0|es]; cbn in Hw; try discriminate.
  - destruct d; discriminate.
  - destruct d as [|t d]; [destruct (FS.find_entry s es) as [child|] eqn:F|].
    + destruct (FS.write a c child); [discriminate|]. inversion Hw. cbn. eauto.
    + destruct a; [|discriminate]. inversion Hw. cbn. eauto.
    + destruct (FS.find_entry s es) as [child|] eqn:F.
      * destruct (FS.write a c child) as [e|child'] eqn:Ew; [discriminate|].
        inversion Hw; subst n'. rewrite lookup_step.
        destruct (eqs t s) eqn:E; [|eauto].
        apply eqs_eq in E. subst t. cbn [FS.lookup] in Hd. rewrite F in Hd.
        eapply IH; eassumption.
      * destruct a; [|discriminate]. inversion Hw; subst n'. rewrite lookup_step.
        destruct (eqs t s) eqn:E; [|eauto].
        apply eqs_eq in E. subst t. cbn [FS.lookup] in Hd. now rewrite F in Hd.
Qed.

(** ** Relations every step of a call keeps *)

Section Preserving.

Context {W : Type}.
Variable host : Host W.
Variable env : Env.

Variable R : State W -> State W -> Prop.
Hypothesis R_refl : forall s, R s s.
Hypothesis R_trans : forall a b c, R a b -> R b c -> R a c.
Hypothesis R_world : forall s w,
  R s {| fs := fs s; globalState := globalState s; world := w;
         sent := sent s; result := result s |}.
Hypothesis R_result : forall s r,
  R s {| fs := fs s; globalState := globalState s; world := world s;
         sent := sent s; result := r |}.
Hypothesis R_store : forall s g,
  R s {| fs := fs s; globalState := g; world := world s;
         sent := sent s; result := result s |}.
Hypothesis R_fs : forall s n,
  R s {| fs := n; globalState := globalState s; world := world s;
         sent := sent s; result := result s |}.
Hypothesis R_get : forall s rq w,
  rq_method rq = GET ->
  R s {| fs := fs s; globalState := globalState s; world := w;
         sent := rq :: sent s; result := result s |}.
Hypothesis R_put : forall s rq w,
  rq_method rq = PUT ->
  R s {| fs := fs s; globalState := globalState s; world := w;
         sent := rq :: sent s; result := result s |}.

Abbreviation pres := (@preserves W _ R).

Lemma pres_ret {A : Type} (a : A) : pres (ret a).
Proof. intros s. apply R_refl. Qed.

Lemma pres_throw {A : Type} (e : exn) : pres (@throw W A e).
Proof. intros s. apply R_refl. Qed.

Lemma pres_lift {A : Type} (o : outcome A) : pres (@lift W A o).
Proof. intros s. apply R_refl. Qed.

Lemma pres_bind {A B : Type} (m : @M W A) (f : A -> @M W B) :
  pres m -> (forall a, pres (f a)) -> pres (bind m f).
Proof.
  intros Hm Hf s. unfold bind. specialize (Hm s).
  destruct (m s) as [[a|e|] s1]; cbn in *; auto.
  eapply R_trans; [exact Hm|apply Hf].
Qed.

Lemma pres_try_catch {A : Type} (m : @M W A) (h : exn -> M A) :
  pres m -> (forall e, pres (h e)) -> pres (try_catch m h).
Proof.
  intros Hm Hh s. unfold try_catch. specialize (Hm s).
  destruct (m s) as [[a|e|] s1]; cbn in *; auto.
  eapply R_trans; [exact Hm|apply Hh].
Qed.

Lemma pres_with_world {A : Type} (f : W -> A * W) : pres (with_world f).
Proof.
  intros s. unfold with_world. destruct (f (world s)). apply R_world.
Qed.

Lemma pres_update_result (f : SyncResult -> SyncResult) :
  pres (@update_result W f).
Proof. intros s. apply R_result. Qed.

Lemma pres_get_result : pres (@get_result W).
Proof. intros s. apply R_refl. Qed.

Lemma pres_updateSyncState (p : PartialSyncState) :
  pres (@Engine.updateSyncState W p).
Proof. intros s. apply R_store. Qed.

Lemma pres_fetch_get (rq : Request) :
  rq_method rq = GET -> pres (fetch host rq).
Proof.
  intros E s. unfold fetch.
  destruct (net_fetch host rq (world s)) as [[r|e] w]; now apply R_get.
Qed.

Lemma pres_fetch_put (rq : Request) :
  rq_method rq = PUT -> pres (fetch host rq).
Proof.
  intros E s. unfold fetch.
  destruct (net_fetch host rq (world s)) as [[r|e] w]; now apply R_put.
Qed.

Lemma pres_existsSync (p : jsstring) : pres (existsSync env p).
Proof. intros s. apply R_refl. Qed.

Lemma pres_readFile (p : jsstring) : pres (readFile env p).
Proof.
  intros s. unfold readFile.
  destruct (FS.lookup _ _) as [?|[?|?]]; apply R_refl.
Qed.

Lemma pres_mkdir (p : jsstring) : pres (mkdir env p).
Proof.
  intros s. unfold mkdir. destruct (FS.mkdirp _ _); [apply R_refl|apply R_fs].
Qed.

Lemma pres_writeFile (p c : jsstring) : pres (writeFile env p c).
Proof.
  intros s. unfold writeFile. destruct (FS.write _ _ _); [apply R_refl|apply R_fs].
Qed.

Ltac pres_step :=
  first
    [ apply pres_ret | apply pres_throw | apply pres_lift
    | apply pres_fetch_get; reflexivity | apply pres_fetch_put; reflexivity
    | apply pres_with_world | apply pres_existsSync
    | apply pres_mkdir | apply pres_readFile | apply pres_writeFile
    | apply pres_update_result | apply pres_get_result
    | apply pres_updateSyncState
    | apply pres_bind; [|intros ?]
    | apply pres_try_catch; [|intros ?]
    | match goal with
      | |- preserves _ (if ?b then _ else _) => destruct b
      | |- preserves _ (match ?x with _ => _ end) => destruct x
      end ].

Lemma pres_listDirectory (c : GitHubClient) (path : jsstring) :
  pres (listDirectory host c path).
Proof. unfold listDirectory. repeat pres_step. Qed.

Lemma pres_fetchFileRaw (c : GitHubClient) (path : jsstring) :
  pres (fetchFileRaw host c path).
Proof. unfold fetchFileRaw. repeat pres_step. Qed.

Lemma pres_fetchFile (c : GitHubClient) (path : jsstring) :
  pres (fetchFile host c path).
Proof. unfold fetchFile. repeat pres_step. Qed.

Lemma pres_pushFile (c : GitHubClient) (path content message : jsstring) :
  pres (pushFile host c path content message).
Proof.
  unfold pushFile. destruct (negb _); [apply pres_throw|].
  apply pres_bind; [apply pres_try_catch; [|intros ?; apply pres_ret]|intros ?].
  - apply pres_bind; [apply pres_fetchFile|intros ?; apply pres_ret].
  - repeat pres_step.
Qed.

Lemma pres_processDirectory (c : GitHubClient) (patterns : list jsstring) :
  forall fuel dirPath files,
    pres (processDirectory host fuel c patterns dirPath files).
Proof.
  induction fuel as [|fuel IH]; intros dirPath files; cbn [processDirectory].
  - apply pres_lift.
  - apply pres_bind; [apply pres_listDirectory|]. intros entries.
    revert files. induction entries as [|entry rest IHe]; intros files.
    + apply pres_ret.
    + apply pres_bind; [repeat pres_step|]. intros relativePath.
      destruct (gf_type entry).
      * apply pres_bind; [apply pres_lift|]. intros [|]; [|apply IHe].
        apply pres_bind; [|intros ?; apply IHe].
        apply pres_try_catch; [|intros ?; apply pres_ret].
        apply pres_bind; [apply pres_fetchFileRaw|intros ?; apply pres_ret].
      * destruct (shouldProcessDirectory _ _); [|apply IHe].
        apply pres_bind; [apply IH|intros ?; apply IHe].
      * apply IHe.
Qed.

Lemma pres_collectLocalFiles (targetDir : jsstring) (patterns : list jsstring) :
  pres (collectLocalFiles env targetDir patterns).
Proof.
  unfold collectLocalFiles.
  do 4 (apply pres_bind; [repeat pres_step|]; intros ?).
  match goal with |- preserves _ (if ?b then _ else _) => destruct b end;
    [|apply pres_ret].
  intros s. destruct (FS.lookup _ _); apply R_refl.
Qed.

Lemma pres_showDiff (filePath localContent remoteContent : jsstring) :
  pres (showDiff host filePath localContent remoteContent).
Proof. unfold showDiff. repeat pres_step. Qed.

Lemma pres_handleConflict (filePath localContent remoteContent : jsstring)
    (policy : ConflictResolution) (direction : SyncDirection) :
  pres (handleConflict host filePath localContent remoteContent policy direction).
Proof.
  unfold handleConflict, showMessage. destruct policy; try apply pres_ret.
  apply pres_bind; [apply pres_with_world|]. intros [title|]; [|apply pres_ret].
  destruct (eqs title (str "Skip")); [apply pres_ret|].
  destruct (eqs title (str "Show Diff")); [|apply pres_ret].
  apply pres_bind; [apply pres_showDiff|]. intros _.
  apply pres_bind; [apply pres_with_world|]. intros [after|]; [|apply pres_ret].
  destruct (eqs after (str "Skip")); apply pres_ret.
Qed.

Lemma pres_for_each (f : jsstring -> jsstring -> @M W unit) (m : JsMap) :
  (forall k v, pres (f k v)) -> pres (for_each f m).
Proof.
  intros Hf. induction m as [|[k v] m IH]; cbn [for_each].
  - apply pres_ret.
  - apply pres_bind; [apply Hf|intros _; exact IH].
Qed.

Lemma pres_pull_file (config : SyncConfig) (targetPath k v : jsstring) :
  pres (pull_file host env config targetPath k v).
Proof.
  unfold pull_file, push_error, push_conflict, count_file.
  apply pres_try_catch; [|intros ?; apply pres_update_result].
  apply pres_bind; [apply pres_mkdir|intros _].
  apply pres_bind; [apply pres_existsSync|intros present].
  apply pres_bind.
  - destruct present; [|apply pres_ret].
    apply pres_bind; [apply pres_readFile|intros localContent].
    destruct (strings_differ _ _); [|apply pres_ret].
    apply pres_bind; [apply pres_handleConflict|intros ?].
    apply pres_bind; [apply pres_update_result|intros ?; apply pres_ret].
  - intros [|]; [|apply pres_ret].
    apply pres_bind; [apply pres_writeFile|intros _; apply pres_update_result].
Qed.

(** The body of the loop of [pull] keeps what [mkdir] and [writeFile]
    keep. *)
Lemma pres_pull_file_with (config : SyncConfig) (targetPath k v : jsstring) :
  (forall p, pres (mkdir env p)) ->
  (forall p c, pres (writeFile env p c)) ->
  pres (pull_file host env config targetPath k v).
Proof.
  intros Hmkdir Hwrite.
  unfold pull_file, push_error, push_conflict, count_file.
  apply pres_try_catch; [|intros ?; apply pres_update_result].
  apply pres_bind; [apply Hmkdir|intros _].
  apply pres_bind; [apply pres_existsSync|intros present].
  apply pres_bind.
  - destruct present; [|apply pres_ret].
    apply pres_bind; [apply pres_readFile|intros localContent].
    destruct (strings_differ _ _); [|apply pres_ret].
    apply pres_bind; [apply pres_handleConflict|intros ?].
    apply pres_bind; [apply pres_update_result|intros ?; apply pres_ret].
  - intros [|]; [|apply pres_ret].
    apply pres_bind; [apply Hwrite|intros _; apply pres_update_result].
Qed.

Lemma pres_push_file (config : SyncConfig) (c : GitHubClient) (k v : jsstring) :
  pres (push_file host config c k v).
Proof.
  unfold push_file, push_error, push_conflict, count_file.
  apply pres_try_catch; [|intros ?; apply pres_update_result].
  apply pres_bind.
  - apply pres_try_catch; [|intros ?; apply pres_ret].
    apply pres_bind; [apply pres_fetchFileRaw|intros remote].
    destruct (strings_differ _ _); [|apply pres_ret].
    apply pres_bind; [apply pres_handleConflict|intros ?].
    apply pres_bind; [apply pres_update_result|intros ?; apply pres_ret].
  - intros [|]; [|apply pres_ret].
    apply pres_bind; [apply pres_pushFile|intros _; apply pres_update_result].
Qed.

Lemma pres_top_catch (e : exn) : pres (@top_catch W e).
Proof. unfold top_catch, push_error. repeat pres_step. Qed.

(** [pull] keeps what [mkdir] and the loop body keep. *)
Lemma pres_pull_with (fuel : nat) (github : GitHubClient) (target : SyncTarget) :
  (forall p, pres (mkdir env p)) ->
  (forall targetPath k v,
     pres (pull_file host env (getConfig env) targetPath k v)) ->
  pres (pull host env fuel github target).
Proof.
  intros Hmkdir Hfile.
  unfold pull, pull_try, fetchAllFiles, set_success.
  apply pres_bind; [apply pres_update_result|intros _].
  apply pres_bind; [|intros _; apply pres_get_result].
  apply pres_try_catch; [|apply pres_top_catch].
  apply pres_bind; [apply pres_lift|intros targetPath].
  apply pres_bind; [apply Hmkdir|intros _].
  apply pres_bind; [apply pres_processDirectory|intros remoteFiles].
  apply pres_bind; [apply pres_for_each; intros; apply Hfile|intros _].
  apply pres_bind; [apply pres_get_result|intros r].
  apply pres_bind; [apply pres_update_result|intros _].
  apply pres_bind; [apply pres_with_world|intros now].
  apply pres_bind; [apply pres_get_result|intros r'].
  apply pres_updateSyncState.
Qed.

Lemma pres_pull (fuel : nat) (github : GitHubClient) (target : SyncTarget) :
  pres (pull host env fuel github target).
Proof.
  apply pres_pull_with; [apply pres_mkdir|intros; apply pres_pull_file].
Qed.

Lemma pres_push (github : GitHubClient) (target : SyncTarget) :
  pres (push host env github target).
Proof.
  unfold push, push_try, set_success.
  apply pres_bind; [apply pres_update_result|intros _].
  apply pres_bind; [|intros _; apply pres_get_result].
  apply pres_try_catch; [|apply pres_top_catch].
  apply pres_bind; [repeat pres_step|intros _].
  apply pres_bind; [apply pres_lift|intros targetPath].
  apply pres_bind; [apply pres_existsSync|intros there].
  apply pres_bind; [repeat pres_step|intros _].
  apply pres_bind; [apply pres_collectLocalFiles|intros localFiles].
  apply pres_bind; [apply pres_for_each; intros; apply pres_push_file|intros _].
  repeat pres_step.
Qed.

End Preserving.

(** ** What a pull and a push leave alone *)

Lemma only_gets_same {W : Type} (a b : State W) :
  sent b = sent a -> only_gets a b.
Proof. intros E. exists []. now split. Qed.

Lemma only_gets_trans {W : Type} (a b c : State W) :
  only_gets a b -> only_gets b c -> only_gets a c.
Proof.
  intros (l1 & E1 & F1) (l2 & E2 & F2). exists (l2 ++ l1). split.
  - now rewrite E2, E1, app_assoc.
  - apply Forall_app. now split.
Qed.

(** X1.  A pull never writes to the repository: whatever the server, the
    user and the local files do, and whether it returns, throws or is
    aborted, every request it sends is a [GET]. *)
Theorem pull_sends_only_gets (W : Type) (host : Host W) (env : Env)
    (fuel : nat) (github : GitHubClient) (target : SyncTarget) (s : State W) :
  only_gets s (snd (pull host env fuel github target s)).
Proof.
  apply (@pres_pull W host env only_gets);
    try (intros; apply only_gets_same; reflexivity).
  - apply only_gets_trans.
  - intros s0 rq w E. exists [rq]. split; [reflexivity|]. now constructor.
Qed.

(** X2.  A push never changes the local file tree, whatever it reads,
    sends and records. *)
Theorem push_keeps_local_files (W : Type) (host : Host W) (env : Env)
    (github : GitHubClient) (target : SyncTarget) (s : State W) :
  fs (snd (push host env github target s)) = fs s.
Proof.
  apply (@pres_push W host env (fun a b => fs b = fs a)); try reflexivity.
  intros a b c E1 E2. congruence.
Qed.

(** X3.  Resolving a conflict touches nothing but the user: the local
    files, the requests sent, the persisted state and the result object
    are as before; and under the policies [keepLocal] and [useRemote] the
    user is not consulted either, the answer being the policy itself. *)
Theorem handleConflict_frame (W : Type) (host : Host W)
    (filePath localContent remoteContent : jsstring)
    (policy : ConflictResolution) (direction : SyncDirection) (s : State W) :
  let out := handleConflict host filePath localContent remoteContent policy
               direction s in
  fs (snd out) = fs s /\ sent (snd out) = sent s
  /\ globalState (snd out) = globalState s /\ result (snd out) = result s
  /\ handleConflict host filePath localContent remoteContent policy_keepLocal
       direction s = (Ret keepLocal, s)
  /\ handleConflict host filePath localContent remoteContent policy_useRemote
       direction s = (Ret useRemote, s).
Proof.
  cbn zeta.
  enough (fs (snd (handleConflict host filePath localContent remoteContent
                     policy direction s)) = fs s
          /\ sent (snd (handleConflict host filePath localContent remoteContent
                          policy direction s)) = sent s
          /\ globalState (snd (handleConflict host filePath localContent
                                 remoteContent policy direction s))
             = globalState s
          /\ result (snd (handleConflict host filePath localContent
                            remoteContent policy direction s)) = result s)
    as (A & B & C & D) by (repeat split; assumption).
  apply (@pres_handleConflict W host
           (fun a b => fs b = fs a /\ sent b = sent a
                       /\ globalState b = globalState a /\ result b = result a)).
  - now intros a.
  - intros a b c (A1 & A2 & A3 & A4) (B1 & B2 & B3 & B4).
    repeat split; congruence.
  - now intros a w.
Qed.

(** ** One file of a pull *)

Tactic Notation "bind_ret" hyp(H) "as" ident(a) ident(s0) ident(E) :=
  apply bind_returns in H as (a & s0 & E & H).


Section OneFile.

Context {W : Type}.
Variable host : Host W.
Variable env : Env.
Variable config : SyncConfig.
Variables targetPath relativePath remoteContent : jsstring.

Let localPath := mapToLocalPath relativePath targetPath.
Let at_file := locate env localPath.
Let at_dir := locate env (Path.dirname localPath).

Lemma pull_file_protects (q : list jsstring) (c : jsstring) (s : State W) :
  conflictResolution config = policy_keepLocal ->
  FS.lookup q (fs s) = inr (FS.File c) ->
  FS.lookup q (fs (snd (pull_file host env config targetPath relativePath
                          remoteContent s)))
  = inr (FS.File c).
Proof.
  intros Hpol Hq.
  unfold pull_file, try_catch, bind, mkdir, existsSync, readFile, writeFile,
    handleConflict, push_conflict, push_error, count_file, update_result,
    set_fs, ret.
  rewrite Hpol. fold localPath. fold at_file. fold at_dir.
  destruct (FS.mkdirp at_dir (fs s)) as [e|n] eqn:Hm; cbn; [exact Hq|].
  pose proof (mkdirp_keeps_file _ _ _ Hm Hq) as Hq'.
  destruct (FS.lookup at_file n) as [e|[lc|es]] eqn:Hl; cbn.
  - destruct (FS.write at_file remoteContent n) as [e'|n'] eqn:Hw; cbn;
      [exact Hq'|].
    eapply write_keeps_file; [exact Hw|exact Hq'|].
    intros ->. congruence.
  - rewrite Hl. destruct (strings_differ lc remoteContent) eqn:Hd; cbn;
      [exact Hq'|].
    apply negb_false_iff, eqs_eq in Hd. subst lc.
    destruct (FS.write at_file remoteContent n) as [e'|n'] eqn:Hw; cbn;
      [exact Hq'|].
    eapply write_keeps_file; [exact Hw|exact Hq'|].
    intros ->. congruence.
  - rewrite Hl. cbn. exact Hq'.
Qed.

(** With the directory in place and the local copy equal to the remote
    content, the body of the loop writes the same content again and counts
    the file; nothing else happens. *)
Lemma pull_file_settled (s : State W) (es : list (jsstring * FS.node)) :
  FS.lookup at_dir (fs s) = inr (FS.Dir es) ->
  FS.lookup at_file (fs s) = inr (FS.File remoteContent) ->
  pull_file host env config targetPath relativePath remoteContent s
  = (Ret tt, with_result s (counted (result s))).
Proof.
  intros Hd Hf.
  unfold pull_file, try_catch, bind, mkdir, existsSync, readFile, writeFile,
    count_file, update_result, set_fs, ret.
  fold localPath. fold at_file. fold at_dir.
  rewrite (mkdirp_there _ _ Hd). cbn. rewrite Hf. cbn. rewrite Hf. cbn.
  unfold strings_differ. rewrite eqs_refl. cbn.
  rewrite (write_there _ _ Hf). cbn. reflexivity.
Qed.

Lemma snoc_neq {A : Type} (l : list A) (x : A) : l ++ [x] <> l.
Proof.
  intros E. apply (f_equal (@List.length A)) in E.
  rewrite length_app in E. cbn in E. lia.
Qed.

Local Ltac finish_with Done n' :=
  match goal with
  | |- _ /\ _ /\ pull_file _ _ _ _ _ _ ?st = _ =>
      destruct (Done n' (result st) eq_refl) as [A B];
      split; [exact A|split; [reflexivity|exact B]]
  end.

Lemma pull_file_useRemote_again (s : State W) :
  conflictResolution config = policy_useRemote ->
  let s1 := snd (pull_file host env config targetPath relativePath
                   remoteContent s) in
  errors (result s1) = errors (result s) ->
  FS.lookup at_file (fs s1) = inr (FS.File remoteContent)
  /\ filesProcessed (result s1) = S (filesProcessed (result s))
  /\ pull_file host env config targetPath relativePath remoteContent s1
     = (Ret tt, with_result s1 (counted (result s1))).
Proof.
  intros Hpol.
  unfold pull_file at 1.
  unfold try_catch, bind, mkdir, existsSync, readFile, writeFile,
    handleConflict, push_conflict, push_error, count_file, update_result,
    set_fs, ret.
  rewrite Hpol. fold localPath. fold at_file. fold at_dir.
  destruct (FS.mkdirp at_dir (fs s)) as [e|n] eqn:Hm; cbn;
    [intros E; now apply snoc_neq in E|].
  destruct (mkdirp_lookup _ _ Hm) as (es & Hd).
  assert (Done : forall n' r,
             FS.write at_file remoteContent n = inr n' ->
             let s1 := {| fs := n'; globalState := globalState s;
                          world := world s; sent := sent s; result := r |} in
             FS.lookup at_file (fs s1) = inr (FS.File remoteContent)
             /\ pull_file host env config targetPath relativePath
                  remoteContent s1
                = (Ret tt, with_result s1 (counted (result s1)))).
  { intros n' r Hw s1. pose proof (write_lookup _ _ _ Hw) as Hf.
    destruct (write_keeps_dir _ _ _ _ Hw Hd) as (es' & Hd').
    split; [exact Hf|]. eapply pull_file_settled; eassumption. }
  destruct (FS.lookup at_file n) as [e|[lc|es0]] eqn:Hl; cbn.
  - destruct (FS.write at_file remoteContent n) as [e'|n'] eqn:Hw; cbn;
      [intros E; now apply snoc_neq in E|].
    intros _. finish_with Done n'.
  - rewrite Hl. destruct (strings_differ lc remoteContent) eqn:Hdiff; cbn;
      (destruct (FS.write at_file remoteContent n) as [e'|n'] eqn:Hw; cbn;
       [intros E; now apply snoc_neq in E|]);
      intros _; finish_with Done n'.
  - rewrite Hl. cbn. intros E. now apply snoc_neq in E.
Qed.

End OneFile.

(** X4.  Under the policy [keepLocal] a pull never changes or removes a
    regular file that is already on disk: whatever the remote tree holds,
    every such file has the content it had before. *)
Theorem pull_keepLocal_keeps_files (W : Type) (host : Host W) (env : Env)
    (fuel : nat) (github : GitHubClient) (target : SyncTarget)
    (q : list jsstring) (c : jsstring) (s : State W) :
  conflictResolution (getConfig env) = policy_keepLocal ->
  FS.lookup q (fs s) = inr (FS.File c) ->
  FS.lookup q (fs (snd (pull host env fuel github target s)))
  = inr (FS.File c).
Proof.
  intros Hpol.
  apply (@pres_pull_with W host env
           (fun a b => FS.lookup q (fs a) = inr (FS.File c) ->
                       FS.lookup q (fs b) = inr (FS.File c)));
    try (intros; cbn; auto; fail).
  - intros p s0 H. unfold mkdir, set_fs.
    destruct (FS.mkdirp _ (fs s0)) as [e|n] eqn:Hm; cbn; [exact H|].
    eapply mkdirp_keeps_file; eassumption.
  - intros targetPath k v s0 H. now apply pull_file_protects.
Qed.

(** The remote [.cursorrules] holds [Y], the local one [X], and the
    pattern reaches the file: the conflict is recorded as resolved to
    [keepLocal] and the local file still holds [X]. *)
Lemma pull_keepLocal_keeps_files_witness :
  let env := env_with (config_with [str "?cursorrules"] policy_keepLocal "") in
  let out := pull (static_host rules_remote) env 4 client workspace
               (start rules_local) in
  conflicts (result (snd out))
  = [ {| ci_path := str ".cursorrules"; localContent := str "X";
         remoteContent := str "Y"; resolution := Some keepLocal |} ]
  /\ FS.lookup [str "home"; str "u"; str "proj"; str ".cursorrules"]
       (fs (snd out))
     = inr (FS.File (str "X")).
Proof.
  intros env out. split; [vm_compute; reflexivity|].
  apply (@pull_keepLocal_keeps_files unit (static_host rules_remote) env
           4 client workspace
           [str "home"; str "u"; str "proj"; str ".cursorrules"] (str "X")
           (start rules_local)); reflexivity.
Defined.

(** ** Every file of the loop is accounted for *)

Section Accounting.

Context {W : Type}.
Variable host : Host W.
Variable env : Env.

Local Notation "x <- c ;; k" := (bind c (fun x => k))
  (at level 61, c at next level, right associativity).
Local Notation "c ;;; k" := (bind c (fun _ => k))
  (at level 61, right associativity).

Lemma quiet_at {A : Type} (m : @M W A) s o s1 :
  quiet m -> m s = (o, s1) -> o <> Beyond /\ result s1 = result s.
Proof. intros Hq E. specialize (Hq s). now rewrite E in Hq. Qed.

Lemma quiet_ret {A : Type} (a : A) : quiet (@ret W A a).
Proof. intros s. split; [discriminate|reflexivity]. Qed.

Lemma quiet_throw {A : Type} (e : exn) : quiet (@throw W A e).
Proof. intros s. split; [discriminate|reflexivity]. Qed.

Lemma quiet_bind {A B : Type} (m : @M W A) (f : A -> M B) :
  quiet m -> (forall a, quiet (f a)) -> quiet (bind m f).
Proof.
  intros Hm Hf s. unfold bind.
  destruct (m s) as [[a|e|] s1] eqn:E;
    destruct (@quiet_at _ _ _ _ _ Hm E) as [NB RS].
  - destruct (Hf a s1) as [NB' RS']. split; [exact NB'|congruence].
  - split; [discriminate|exact RS].
  - now contradiction NB.
Qed.

Lemma quiet_try_catch {A : Type} (m : @M W A) (h : exn -> M A) :
  quiet m -> (forall e, quiet (h e)) -> quiet (try_catch m h).
Proof.
  intros Hm Hh s. unfold try_catch.
  destruct (m s) as [[a|e|] s1] eqn:E;
    destruct (@quiet_at _ _ _ _ _ Hm E) as [NB RS].
  - split; [discriminate|exact RS].
  - destruct (Hh e s1) as [NB' RS']. split; [exact NB'|congruence].
  - now contradiction NB.
Qed.

Lemma quiet_with_world {A : Type} (f : W -> A * W) : quiet (with_world f).
Proof.
  intros s. unfold with_world. destruct (f (world s)) as [a w].
  split; [discriminate|reflexivity].
Qed.

Lemma quiet_fetch (rq : Request) : quiet (fetch host rq).
Proof.
  intros s. unfold fetch. destruct (net_fetch host rq (world s)) as [[r|e] w];
    (split; [discriminate|reflexivity]).
Qed.

Lemma quiet_existsSync (p : jsstring) : quiet (@existsSync W env p).
Proof. intros s. split; [discriminate|reflexivity]. Qed.

Lemma quiet_readFile (p : jsstring) : quiet (@readFile W env p).
Proof.
  intros s. unfold readFile.
  destruct (FS.lookup _ _) as [e|[c|es]]; (split; [discriminate|reflexivity]).
Qed.

Lemma quiet_mkdir (p : jsstring) : quiet (@mkdir W env p).
Proof.
  intros s. unfold mkdir, set_fs.
  destruct (FS.mkdirp _ _) as [e|n]; (split; [discriminate|reflexivity]).
Qed.

Lemma quiet_writeFile (p c : jsstring) : quiet (@writeFile W env p c).
Proof.
  intros s. unfold writeFile, set_fs.
  destruct (FS.write _ _ _) as [e|n]; (split; [discriminate|reflexivity]).
Qed.

Ltac quiet_step :=
  first
    [ apply quiet_ret | apply quiet_throw | apply quiet_with_world
    | apply quiet_fetch | apply quiet_existsSync | apply quiet_readFile
    | apply quiet_mkdir | apply quiet_writeFile
    | apply quiet_bind; [|intros ?] | apply quiet_try_catch; [|intros ?]
    | match goal with
      | |- quiet (if ?b then _ else _) => destruct b
      | |- quiet (match ?x with _ => _ end) => destruct x
      end ].

Lemma quiet_showDiff (filePath localContent remoteContent : jsstring) :
  quiet (showDiff host filePath localContent remoteContent).
Proof. unfold showDiff. repeat quiet_step. Qed.

Lemma quiet_handleConflict (filePath localContent remoteContent : jsstring)
    (policy : ConflictResolution) (direction : SyncDirection) :
  quiet (handleConflict host filePath localContent remoteContent policy
           direction).
Proof.
  unfold handleConflict, showMessage.
  destruct policy; repeat (apply quiet_showDiff || quiet_step).
Qed.

Lemma quiet_fetchFileRaw (c : GitHubClient) (path : jsstring) :
  quiet (fetchFileRaw host c path).
Proof. unfold fetchFileRaw. repeat quiet_step. Qed.

Lemma quiet_fetchFile (c : GitHubClient) (path : jsstring) :
  quiet (fetchFile host c path).
Proof. unfold fetchFile. repeat quiet_step. Qed.

Lemma quiet_pushFile (c : GitHubClient) (path content message : jsstring) :
  quiet (pushFile host c path content message).
Proof.
  unfold pushFile. repeat (apply quiet_fetchFile || quiet_step).
Qed.

Lemma accounted_error (applied : Resolution) (r : SyncResult) (m : jsstring) :
  accounted applied
    {| success := success r; filesProcessed := filesProcessed r;
       errors := errors r ++ [m]; conflicts := conflicts r |}
  = S (accounted applied r).
Proof. unfold accounted. cbn. rewrite length_app. cbn. lia. Qed.

Lemma accounted_counted (applied : Resolution) (r : SyncResult) :
  accounted applied (counted r) = S (accounted applied r).
Proof. unfold accounted. cbn. lia. Qed.

Lemma accounted_conflict (applied : Resolution) (r : SyncResult)
    (c : ConflictInfo) :
  accounted applied
    {| success := success r; filesProcessed := filesProcessed r;
       errors := errors r; conflicts := conflicts r ++ [c] |}
  = (if left_alone applied c then 1 else 0) + accounted applied r.
Proof.
  unfold accounted. cbn. rewrite filter_app, length_app. cbn.
  destruct (left_alone applied c); cbn; lia.
Qed.

(** Run a call that is [quiet]: it returns or throws, and the [result]
    object is as before. *)
Tactic Notation "run_quiet" uconstr(Hq) "as" ident(a) ident(s1) ident(R) :=
  match goal with
  | |- context [match ?m ?s with _ => _ end] =>
      let E := fresh "E" in
      let NB := fresh "NB" in
      destruct (m s) as [[a|a|] s1] eqn:E;
      destruct (@quiet_at _ _ _ _ _ Hq E) as [NB R];
      [ | |now contradiction NB]; clear NB E
  end.

Local Ltac now_error :=
  unfold push_error, update_result; intros [= <- <-]; cbn [result];
  split; [reflexivity|]; rewrite accounted_error.

Lemma pull_file_accounts (config : SyncConfig)
    (targetPath relativePath remoteContent : jsstring) (s : State W) o s' :
  pull_file host env config targetPath relativePath remoteContent s = (o, s') ->
  o = Ret tt
  /\ accounted useRemote (result s') = S (accounted useRemote (result s)).
Proof.
  unfold pull_file, try_catch.
  set (localPath := mapToLocalPath relativePath targetPath).
  unfold bind at 1.
  run_quiet (quiet_mkdir (Path.dirname localPath)) as u s1 R1;
    [|now_error; now rewrite R1].
  unfold bind at 1.
  run_quiet (quiet_existsSync localPath) as present s2 R2;
    [|now_error; now rewrite R2, R1].
  unfold bind at 1.
  assert (Decide :
    forall o s3,
      (if present : bool then
         localContent <- readFile env localPath ;;
         if strings_differ localContent remoteContent then
           resolution <- handleConflict host relativePath localContent
                           remoteContent (conflictResolution config) dir_pull ;;
           push_conflict {| ci_path := relativePath;
                            localContent := localContent;
                            Engine.remoteContent := remoteContent;
                            resolution := Some resolution |} ;;;
           ret (is_useRemote resolution)
         else ret true
       else ret true) s2 = (o, s3) ->
      match o with
      | Ret b => accounted useRemote (result s3)
                 = (if b then 0 else 1) + accounted useRemote (result s2)
      | Throw _ => result s3 = result s2
      | Beyond => False
      end).
  { clear. intros o s3. destruct present; [|intros [= <- <-]; reflexivity].
    unfold bind at 1.
    run_quiet (quiet_readFile localPath) as lc sa Ra;
      [|intros [= <- <-]; exact Ra].
    destruct (strings_differ lc remoteContent);
      [|intros [= <- <-]; now rewrite Ra].
    unfold bind at 1.
    run_quiet (quiet_handleConflict relativePath lc remoteContent
                 (conflictResolution config) dir_pull) as res sb Rb;
      [|intros [= <- <-]; congruence].
    unfold bind, push_conflict, update_result, ret. intros [= <- <-].
    cbn [result]. rewrite accounted_conflict, Rb, Ra.
    destruct res; reflexivity. }
  match goal with
  | |- context [match ?m s2 with _ => _ end] =>
      destruct (m s2) as [[b|e|] s3];
      pose proof (Decide _ _ eq_refl) as E3; cbv beta iota in E3; clear Decide
  end; [| |contradiction].
  - destruct b.
    + unfold bind at 1.
      run_quiet (quiet_writeFile localPath remoteContent) as u' s4 R4.
      * unfold count_file, update_result. intros [= <- <-]. cbn [result].
        split; [reflexivity|].
        fold (counted (result s4)). rewrite accounted_counted, R4, E3, R2, R1.
        reflexivity.
      * now_error. now rewrite R4, E3, R2, R1.
    + unfold ret. intros [= <- <-]. split; [reflexivity|].
      rewrite E3, R2, R1. reflexivity.
  - now_error. now rewrite E3, R2, R1.
Qed.

Lemma push_file_accounts (config : SyncConfig) (github : GitHubClient)
    (relativePath localContent : jsstring) (s : State W) o s' :
  push_file host config github relativePath localContent s = (o, s') ->
  o = Ret tt
  /\ accounted keepLocal (result s') = S (accounted keepLocal (result s)).
Proof.
  unfold push_file. unfold try_catch at 1. unfold bind at 1.
  assert (Decide :
    forall o s3,
      try_catch
        (remoteContent <- fetchFileRaw host github relativePath ;;
         if strings_differ remoteContent localContent then
           resolution <- handleConflict host relativePath localContent
                           remoteContent (conflictResolution config) dir_push ;;
           push_conflict {| ci_path := relativePath;
                            Engine.localContent := localContent;
                            remoteContent := remoteContent;
                            resolution := Some resolution |} ;;;
           ret (is_keepLocal resolution)
         else ret true)
        (fun _ => ret true) s = (o, s3) ->
      match o with
      | Ret b => accounted keepLocal (result s3)
                 = (if b then 0 else 1) + accounted keepLocal (result s)
      | _ => False
      end).
  { clear. intros o s3. unfold try_catch. unfold bind at 1.
    run_quiet (quiet_fetchFileRaw github relativePath) as rc sa Ra;
      [|unfold ret; intros [= <- <-]; now rewrite Ra].
    destruct (strings_differ rc localContent);
      [|intros [= <- <-]; now rewrite Ra].
    unfold bind at 1.
    run_quiet (quiet_handleConflict relativePath localContent rc
                 (conflictResolution config) dir_push) as res sb Rb;
      [|unfold ret; intros [= <- <-]; now rewrite Rb, Ra].
    unfold bind, push_conflict, update_result, ret. intros [= <- <-].
    cbn [result]. rewrite accounted_conflict, Rb, Ra.
    destruct res; reflexivity. }
  match goal with
  | |- context [match ?m s with _ => _ end] =>
      destruct (m s) as [[b|e|] s3];
      pose proof (Decide _ _ eq_refl) as E3; cbv beta iota in E3; clear Decide
  end; [|contradiction|contradiction].
  destruct b.
  - unfold bind at 1.
    run_quiet (quiet_pushFile github relativePath localContent
                 (str "Update " ++ relativePath
                    ++ str " via Cursor Dotfiles Sync")) as u' s4 R4.
    + unfold count_file, update_result. intros [= <- <-]. cbn [result].
      split; [reflexivity|].
      fold (counted (result s4)). rewrite accounted_counted, R4, E3.
      reflexivity.
    + now_error. now rewrite R4, E3.
  - unfold ret. intros [= <- <-]. split; [reflexivity|].
    rewrite E3. reflexivity.
Qed.

Lemma for_each_accounts (applied : Resolution)
    (f : jsstring -> jsstring -> @M W unit) (files : JsMap) :
  (forall k v s o s', f k v s = (o, s') ->
     o = Ret tt
     /\ accounted applied (result s') = S (accounted applied (result s))) ->
  forall s,
    fst (for_each f files s) = Ret tt
    /\ accounted applied (result (snd (for_each f files s)))
       = List.length files + accounted applied (result s).
Proof.
  intros Hf. induction files as [|[k v] rest IH]; intros s; cbn [for_each].
  - split; reflexivity.
  - unfold bind. destruct (f k v s) as [o s1] eqn:E.
    destruct (Hf _ _ _ _ _ E) as [-> A1].
    destruct (IH s1) as [B1 B2]. split; [exact B1|].
    rewrite B2, A1. cbn [List.length]. lia.
Qed.

End Accounting.

(** X5.  The loop of a pull accounts for every remote file exactly once:
    it runs to its end, and afterwards the files counted as processed,
    the recorded errors and the recorded conflicts that were not resolved
    to [useRemote] have together grown by the number of files fetched. *)
Theorem pull_loop_accounts_for_every_file (W : Type) (host : Host W)
    (env : Env) (config : SyncConfig) (targetPath : jsstring)
    (remoteFiles : JsMap) (s : State W) :
  let out := for_each (pull_file host env config targetPath) remoteFiles s in
  fst out = Ret tt
  /\ accounted useRemote (result (snd out))
     = List.length remoteFiles + accounted useRemote (result s).
Proof.
  apply for_each_accounts. intros k v. apply pull_file_accounts.
Qed.

(** X6.  The loop of a push accounts for every local file exactly once:
    it runs to its end, and afterwards the files counted as processed,
    the recorded errors and the recorded conflicts that were not resolved
    to [keepLocal] have together grown by the number of files collected. *)
Theorem push_loop_accounts_for_every_file (W : Type) (host : Host W)
    (config : SyncConfig) (github : GitHubClient) (localFiles : JsMap)
    (s : State W) :
  let out := for_each (push_file host config github) localFiles s in
  fst out = Ret tt
  /\ accounted keepLocal (result (snd out))
     = List.length localFiles + accounted keepLocal (result s).
Proof.
  apply for_each_accounts. intros k v. apply push_file_accounts.
Qed.

(** X7.  Under the policy [useRemote], pulling one file is idempotent once
    it has gone through without an error: the local file then holds the
    remote content, the file was counted, and pulling the same content
    again returns, leaves the file tree, the requests, the conflicts and
    the errors as they are, and only counts the file once more. *)
Theorem pull_file_useRemote_idempotent (W : Type) (host : Host W) (env : Env)
    (config : SyncConfig) (targetPath relativePath remoteContent : jsstring)
    (s : State W) :
  conflictResolution config = policy_useRemote ->
  let once := snd (pull_file host env config targetPath relativePath
                     remoteContent s) in
  errors (result once) = errors (result s) ->
  FS.lookup (locate env (mapToLocalPath relativePath targetPath)) (fs once)
  = inr (FS.File remoteContent)
  /\ filesProcessed (result once) = S (filesProcessed (result s))
  /\ pull_file host env config targetPath relativePath remoteContent once
     = (Ret tt, with_result once (counted (result once))).
Proof.
  intros Hpol once Herr.
  exact (pull_file_useRemote_again host env config targetPath relativePath
           remoteContent s Hpol Herr).
Qed.

Lemma pull_file_useRemote_idempotent_witness :
  let config := config_with [str ".cursorrules"] policy_useRemote "" in
  let once := snd (pull_file (static_host rules_remote) (env_with config)
                     config (str "/home/u/proj/.cursor") (str ".cursorrules")
                     (str "Y") (start rules_local)) in
  FS.lookup [str "home"; str "u"; str "proj"; str ".cursorrules"] (fs once)
  = inr (FS.File (str "Y"))
  /\ filesProcessed (result once) = 1
  /\ pull_file (static_host rules_remote) (env_with config) config
       (str "/home/u/proj/.cursor") (str ".cursorrules") (str "Y") once
     = (Ret tt, with_result once (counted (result once))).
Proof.
  intros config once.
  apply (@pull_file_useRemote_idempotent unit (static_host rules_remote)
           (env_with config) config (str "/home/u/proj/.cursor")
           (str ".cursorrules") (str "Y") (start rules_local));
    vm_compute; reflexivity.
Defined.

(** ** What the two collectors return *)

Lemma keys_all_map_set (P : jsstring -> Prop) (k v : jsstring) (m : JsMap) :
  keys_all P m -> P k -> keys_all P (map_set k v m).
Proof.
  intros Hm Hk. induction m as [|[k0 v0] rest IH]; cbn [map_set].
  - intros k' v' [[= <- <-]|[]]. exact Hk.
  - assert (Hrest : keys_all P rest)
      by (intros k' v' Hin; apply (Hm k' v'); now right).
    destruct (eqs k0 k).
    + intros k' v' [[= <- <-]|Hin].
      * apply (Hm k0 v0). now left.
      * now apply (Hrest k' v').
    + intros k' v' [[= <- <-]|Hin].
      * apply (Hm k0 v0). now left.
      * now apply (IH Hrest k' v').
Qed.

Lemma keys_all_nil (P : jsstring -> Prop) : keys_all P [].
Proof. intros k v []. Qed.

Section Returning.

Context {W : Type}.
Variable host : Host W.

Lemma returns_only_ret {A : Type} (P : A -> Prop) (a : A) :
  P a -> returns_only P (@ret W A a).
Proof. intros Ha s a' s' [= <- <-]. exact Ha. Qed.

Lemma returns_only_lift {A : Type} (P : A -> Prop) (o : outcome A) :
  (forall a, o = Ret a -> P a) -> returns_only P (@lift W A o).
Proof. intros Ho s a s' [= -> <-]. now apply Ho. Qed.

Lemma returns_only_any {A : Type} (m : @M W A) :
  returns_only (fun _ => True) m.
Proof. intros s a s' _. exact I. Qed.

Lemma returns_only_bind {A B : Type} (Q : A -> Prop) (P : B -> Prop)
    (m : @M W A) (f : A -> M B) :
  returns_only Q m -> (forall a, Q a -> returns_only P (f a)) ->
  returns_only P (bind m f).
Proof.
  intros Hm Hf s b s' H. apply bind_returns in H as (a & s0 & Ea & Eb).
  exact (Hf a (Hm _ _ _ Ea) _ _ _ Eb).
Qed.

Lemma returns_only_try_catch {A : Type} (P : A -> Prop) (m : @M W A)
    (h : exn -> M A) :
  returns_only P m -> (forall e, returns_only P (h e)) ->
  returns_only P (try_catch m h).
Proof.
  intros Hm Hh s a s' H. unfold try_catch in H.
  destruct (m s) as [[a0|e|] s0] eqn:E.
  - inversion H; subst. exact (Hm _ _ _ E).
  - exact (Hh e _ _ _ H).
  - discriminate.
Qed.

Lemma processDirectory_sound (c : GitHubClient) (patterns : list jsstring) :
  forall fuel dirPath files,
    keys_all (fun k => matchesPatterns k patterns = Ret true) files ->
    returns_only (keys_all (fun k => matchesPatterns k patterns = Ret true))
      (processDirectory host fuel c patterns dirPath files).
Proof.
  induction fuel as [|fuel IH]; intros dirPath files Hfiles;
    cbn [processDirectory].
  - intros s a s' [=].
  - eapply returns_only_bind; [apply returns_only_any|]. intros entries _.
    revert files Hfiles.
    induction entries as [|entry rest IHe]; intros files Hfiles.
    + now apply returns_only_ret.
    + eapply returns_only_bind; [apply returns_only_any|].
      intros relativePath _. destruct (gf_type entry).
      * eapply (returns_only_bind
                  (Q := fun b : bool =>
                          b = true ->
                          matchesPatterns relativePath patterns = Ret true)).
        { apply returns_only_lift. now intros b -> ->. }
        intros [|] Hb; [|now apply IHe].
        eapply returns_only_bind; [|intros files' Hf'; apply IHe; exact Hf'].
        apply returns_only_try_catch; [|intros _; now apply returns_only_ret].
        eapply returns_only_bind; [apply returns_only_any|].
        intros content _. apply returns_only_ret.
        apply keys_all_map_set; [exact Hfiles|now apply Hb].
      * destruct (shouldProcessDirectory _ _); [|now apply IHe].
        eapply returns_only_bind; [now apply IH|].
        intros files' Hf'. now apply IHe.
      * now apply IHe.
Qed.

End Returning.

(** X8.  Whatever the server answers, every path in the map that
    [fetchAllFiles] returns matches one of the patterns, as
    [fetchAllFiles] normalises them. *)
Theorem fetchAllFiles_sound (W : Type) (host : Host W) (fuel : nat)
    (c : GitHubClient) (patterns : list jsstring) (s s' : State W)
    (files : JsMap) :
  fetchAllFiles host fuel c patterns s = (Ret files, s') ->
  forall k v, In (k, v) files ->
              matchesPatterns k (normalizePatterns patterns) = Ret true.
Proof.
  intros H.
  exact (processDirectory_sound host c (normalizePatterns patterns) fuel []
           (files := []) (keys_all_nil _) s H).
Qed.

Lemma fetchAllFiles_sound_witness :
  matchesPatterns (str "rules/a.mdc") (normalizePatterns [str "rules/*.mdc"])
  = Ret true.
Proof.
  apply (@fetchAllFiles_sound unit (static_host nested_remote) 4 client
           [str "rules/*.mdc"] (start empty_local)
           (snd (fetchAllFiles (static_host nested_remote) 4 client
                   [str "rules/*.mdc"] (start empty_local)))
           [(str "rules/a.mdc", str "A")]
           ltac:(vm_compute; reflexivity)
           (str "rules/a.mdc") (str "A")).
  left. reflexivity.
Defined.

Lemma node_all (P : FS.node -> Prop) :
  (forall c, P (FS.File c)) ->
  (forall es, Forall (fun e => P (snd e)) es -> P (FS.Dir es)) ->
  forall n, P n.
Proof.
  intros Hf Hd. fix IH 1. intros [c|es]; [apply Hf|apply Hd].
  induction es as [|[k v] es IHes]; constructor; [apply IH|exact IHes].
Qed.

Lemma scanDir_sound (patterns : list jsstring) (n : FS.node) :
  forall dir base files out,
    keys_all (fun k => matchesAnyPattern k patterns = Ret true) files ->
    scanDir dir n base patterns files = Ret out ->
    keys_all (fun k => matchesAnyPattern k patterns = Ret true) out.
Proof.
  induction n as [c|es IH] using node_all; intros dir base files out Hfiles;
    cbn [scanDir]; [discriminate|].
  revert files Hfiles.
  induction IH as [|[name child] rest Hchild _ IHe]; intros files Hfiles.
  - now intros [= <-].
  - cbn [snd] in Hchild. destruct child as [content|entries].
    + destruct (matchesAnyPattern _ patterns) as [[|]|e|] eqn:Hm;
        try discriminate.
      * apply IHe. now apply keys_all_map_set.
      * now apply IHe.
    + destruct (scanDir _ (FS.Dir entries) _ patterns files)
        as [files'|e|] eqn:Hs; try discriminate.
      apply IHe. exact (Hchild _ _ _ _ Hfiles Hs).
Qed.

(** X9.  Collecting the local files reads and never writes: the state is
    as before, and every path in the returned map matches one of the
    patterns, as [collectLocalFiles] normalises them. *)
Theorem collectLocalFiles_sound (W : Type) (env : Env)
    (targetDir : jsstring) (patterns : list jsstring) (s s' : State W)
    (files : JsMap) :
  collectLocalFiles env targetDir patterns s = (Ret files, s') ->
  s' = s
  /\ forall k v, In (k, v) files ->
                 matchesAnyPattern k (normalizePatterns patterns) = Ret true.
Proof.
  unfold collectLocalFiles, bind, existsSync, readFile, lift, ret.
  set (np := normalizePatterns patterns).
  set (Q := fun k => matchesAnyPattern k np = Ret true).
  intros H.
  assert (Hstart :
    forall (files0 files1 : JsMap) (s1 : State W), keys_all Q files0 ->
      (if match FS.lookup (locate env targetDir) (fs s) with
          | inr _ => true | inl _ => false end
       then fun s0 : State W =>
            match FS.lookup (locate env targetDir) (fs s0) with
            | inr n => (scanDir targetDir n [] np files0, s0)
            | inl _ => (Ret files0, s0)
            end
       else fun s0 : State W => (Ret files0, s0)) s = (Ret files1, s1) ->
      s1 = s /\ keys_all Q files1).
  { clear. intros files0 files1 s1 H0.
    destruct (FS.lookup (locate env targetDir) (fs s)) as [e|n] eqn:Hl;
      cbv beta iota; rewrite ?Hl.
    - intros [= <- <-]. now split.
    - intros [= Hs <-]. split; [reflexivity|].
      exact (@scanDir_sound np n _ _ _ _ H0 Hs). }
  destruct (FS.lookup (locate env (Path.join (Path.dirname targetDir)
                                     (str ".cursorrules"))) (fs s))
    as [e|[content|es]] eqn:Hrules; cbv beta iota in H.
  - apply (Hstart [] _ _ (keys_all_nil _) H).
  - destruct (matchesAnyPattern (str ".cursorrules") np) as [[|]|e|] eqn:Hm;
      cbv beta iota in H; try discriminate.
    + rewrite Hrules in H. cbv beta iota in H.
      refine (Hstart _ _ _ _ H). apply keys_all_map_set; [apply keys_all_nil|].
      exact Hm.
    + apply (Hstart [] _ _ (keys_all_nil _) H).
  - destruct (matchesAnyPattern (str ".cursorrules") np) as [[|]|e|] eqn:Hm;
      cbv beta iota in H; try discriminate.
    + rewrite Hrules in H. cbv beta iota in H. discriminate.
    + apply (Hstart [] _ _ (keys_all_nil _) H).
Qed.

Lemma collectLocalFiles_sound_witness :
  let env := env_with (config_with [str "rules/*.mdc"] policy_ask "") in
  snd (collectLocalFiles env (str "/home/u/proj/.cursor") [str "rules/*.mdc"]
         (start nested_local)) = start nested_local
  /\ matchesAnyPattern (str "rules/a.mdc")
       (normalizePatterns [str "rules/*.mdc"]) = Ret true.
Proof.
  intros env.
  destruct (@collectLocalFiles_sound unit env (str "/home/u/proj/.cursor")
              [str "rules/*.mdc"] (start nested_local)
              (snd (collectLocalFiles env (str "/home/u/proj/.cursor")
                      [str "rules/*.mdc"] (start nested_local)))
              [(str "rules/a.mdc", str "A")]
              ltac:(vm_compute; reflexivity)) as [E K].
  split; [exact E|]. apply (K (str "rules/a.mdc") (str "A")). left. reflexivity.
Defined.

Lemma listDirectory_sends (W : Type) (host : Host W) (c : GitHubClient)
    (path : jsstring) (s : State W) :
  sent (snd (listDirectory host c path s)) = listing_request c path :: sent s
  /\ fs (snd (listDirectory host c path s)) = fs s.
Proof.
  unfold listDirectory, bind, fetch.
  destruct (net_fetch host (listing_request c path) (world s)) as [[r|e] w];
    [|now split].
  destruct (negb (ok r)).
  - destruct (N.eqb (status r) 404); now split.
  - destruct (json r); now split.
Qed.

(** X10.  With no pattern at all, [fetchAllFiles] lists the root of the
    remote tree and stops there: that listing is the one request it
    sends, no directory is entered, no file is fetched, and the map it
    returns, if it returns, is empty. *)
Theorem fetchAllFiles_no_patterns (W : Type) (host : Host W) (fuel : nat)
    (c : GitHubClient) (s : State W) :
  let out := fetchAllFiles host (S fuel) c [] s in
  sent (snd out) = listing_request c [] :: sent s
  /\ fs (snd out) = fs s
  /\ forall files, fst out = Ret files -> files = [].
Proof.
  cbv zeta.
  destruct (fetchAllFiles host (S fuel) c [] s) as [o s'] eqn:E.
  cbn [fst snd]. revert E.
  unfold fetchAllFiles. cbn [normalizePatterns map processDirectory].
  unfold bind at 1.
  destruct (listDirectory_sends host c [] s) as [Hsent Hfs].
  destruct (listDirectory host c [] s) as [[entries|e|] s1];
    cbn [fst snd] in *;
    [|intros [= <- <-]; repeat split; try assumption; intros ? ?;
      discriminate..].
  rewrite <- Hsent, <- Hfs. clear Hsent Hfs s.
  induction entries as [|entry rest IH].
  - unfold ret. intros [= <- <-]. repeat split. now intros ? [= <-].
  - unfold bind at 1.
    destruct (is_empty (basePath c)).
    + unfold ret at 1. cbv beta iota.
      destruct (gf_type entry); cbn [shouldProcessDirectory matchesPatterns];
        apply IH.
    + unfold bind at 1, lift at 1.
      destruct (new_RegExp _) as [regex|e|];
        [|intros [= <- <-]; repeat split; intros ? ?; discriminate..].
      unfold ret at 1. cbv beta iota.
      destruct (gf_type entry); cbn [shouldProcessDirectory matchesPatterns];
        apply IH.
Qed.

(** ** What a completed operation leaves in the persisted state *)

Section Completed.

Context {W : Type}.
Variable host : Host W.
Variable env : Env.

Local Notation "x <- c ;; k" := (bind c (fun x => k))
  (at level 61, c at next level, right associativity).
Local Notation "c ;;; k" := (bind c (fun _ => k))
  (at level 61, right associativity).

Lemma finish_state (target : SyncTarget) (direction : SyncDirection)
    (keys : list jsstring) (s : State W) u s1 :
  (r <- get_result ;;
   set_success (Nat.eqb (List.length (errors r)) 0) ;;;
   now <- with_world (date_now host) ;;
   r' <- get_result ;;
   updateSyncState
     {| p_lastSyncedAt := Some (Some now);
        p_lastSyncTarget := Some (Some target);
        p_lastSyncDirection := Some (Some direction);
        p_lastSyncFiles := Some keys;
        p_lastError := Some (joined_errors r') |}) s = (Ret u, s1) ->
  (exists now,
     globalState s1
     = Config.updateSyncState
         {| p_lastSyncedAt := Some (Some now);
            p_lastSyncTarget := Some (Some target);
            p_lastSyncDirection := Some (Some direction);
            p_lastSyncFiles := Some keys;
            p_lastError := Some (joined_errors (result s1)) |}
         (globalState s))
  /\ (forall applied, accounted applied (result s1)
                      = accounted applied (result s))
  /\ success (result s1) = Nat.eqb (List.length (errors (result s1))) 0.
Proof.
  unfold bind, get_result, set_success, update_result, with_world,
    updateSyncState; cbn.
  destruct (date_now host (world s)) as [now w]; cbn.
  intros [= <- <-]. cbn. repeat split. now exists now.
Qed.

Lemma loop_keeps_state (f : jsstring -> jsstring -> @M W unit) (files : JsMap) :
  (forall k v, preserves (fun a b => globalState b = globalState a) (f k v)) ->
  forall s, globalState (snd (for_each f files s)) = globalState s.
Proof.
  intros Hf.
  apply (@pres_for_each W (fun a b => globalState b = globalState a));
    [reflexivity|intros a b c; congruence|exact Hf].
Qed.

Lemma pull_try_completed fuel github target s u s1 :
  pull_try host env fuel github target s = (Ret u, s1) ->
  exists (now : Z) (keys : list jsstring) (s0 : State W),
    globalState s1
    = Config.updateSyncState
        {| p_lastSyncedAt := Some (Some now);
           p_lastSyncTarget := Some (Some target);
           p_lastSyncDirection := Some (Some dir_pull);
           p_lastSyncFiles := Some keys;
           p_lastError := Some (joined_errors (result s1)) |}
        (globalState s)
    /\ result s0 = result s
    /\ accounted useRemote (result s1)
       = List.length keys + accounted useRemote (result s0).
Proof.
  unfold pull_try. intros H.
  bind_ret H as targetPath sa Ea.
  pose proof (@keeps_at _ _ _ _ _ _ (keeps_lift _) Ea) as [Ra Ga].
  bind_ret H as u1 sb Eb.
  pose proof (@keeps_at _ _ _ _ _ _ (keeps_mkdir env targetPath) Eb) as [Rb Gb].
  bind_ret H as remoteFiles sc Ec.
  pose proof (@keeps_at _ _ _ _ _ _
                (keeps_fetchAllFiles host fuel github
                   (filesToSync (getConfig env))) Ec) as [Rc Gc].
  bind_ret H as u2 sd Ed.
  pose proof (loop_keeps_state
                (pull_file host env (getConfig env) targetPath) remoteFiles
                (fun k v =>
                   pres_pull_file host env
                     (fun a b => globalState b = globalState a)
                     (fun _ => eq_refl)
                     (fun a b c E1 E2 => eq_trans E2 E1)
                     (fun _ _ => eq_refl) (fun _ _ => eq_refl)
                     (fun _ _ => eq_refl) (getConfig env) targetPath k v)
                sc) as Gd.
  destruct (for_each_accounts useRemote
              (pull_file host env (getConfig env) targetPath) remoteFiles
              (fun k v => pull_file_accounts host env (getConfig env)
                            targetPath k v) sc) as [_ Ad].
  rewrite Ed in Gd, Ad. cbn [snd] in Gd, Ad.
  apply finish_state in H as ((now & G) & A & _).
  exists now, (map_keys remoteFiles), sc. split; [|split].
  - rewrite G, Gd, Gc, Gb, Ga. reflexivity.
  - congruence.
  - rewrite A, Ad. unfold map_keys. now rewrite length_map.
Qed.

Lemma push_try_completed github target s u s1 :
  push_try host env github target s = (Ret u, s1) ->
  exists (now : Z) (keys : list jsstring) (s0 : State W),
    globalState s1
    = Config.updateSyncState
        {| p_lastSyncedAt := Some (Some now);
           p_lastSyncTarget := Some (Some target);
           p_lastSyncDirection := Some (Some dir_push);
           p_lastSyncFiles := Some keys;
           p_lastError := Some (joined_errors (result s1)) |}
        (globalState s)
    /\ result s0 = result s
    /\ accounted keepLocal (result s1)
       = List.length keys + accounted keepLocal (result s0).
Proof.
  unfold push_try. intros H.
  bind_ret H as u0 sa Ea.
  assert (sa = s) as ->
    by (destruct (is_empty _); [discriminate|now inversion Ea]).
  bind_ret H as targetPath sb Eb.
  pose proof (@keeps_at _ _ _ _ _ _ (keeps_lift _) Eb) as [Rb Gb].
  bind_ret H as there sc Ec. inversion Ec; subst sc there; clear Ec.
  bind_ret H as u1 sd Ed.
  assert (sd = sb) as ->
    by (destruct (match FS.lookup _ _ with inr _ => true | inl _ => false end);
        [now inversion Ed|discriminate]).
  bind_ret H as localFiles se Ee.
  pose proof (@keeps_at _ _ _ _ _ _
                (keeps_collectLocalFiles env targetPath
                   (filesToSync (getConfig env))) Ee) as [Re Ge].
  bind_ret H as u2 sf Ef.
  pose proof (loop_keeps_state
                (push_file host (getConfig env) github) localFiles
                (fun k v =>
                   pres_push_file host
                     (fun a b => globalState b = globalState a)
                     (fun _ => eq_refl)
                     (fun a b c E1 E2 => eq_trans E2 E1)
                     (fun _ _ => eq_refl) (fun _ _ => eq_refl)
                     (fun _ _ _ _ => eq_refl) (fun _ _ _ _ => eq_refl)
                     (getConfig env) github k v)
                se) as Gf.
  destruct (for_each_accounts keepLocal
              (push_file host (getConfig env) github) localFiles
              (fun k v => push_file_accounts host (getConfig env) github k v)
              se) as [_ Af].
  rewrite Ef in Gf, Af. cbn [snd] in Gf, Af.
  apply finish_state in H as ((now & G) & A & _).
  exists now, (map_keys localFiles), se. split; [|split].
  - rewrite G, Gf, Ge, Gb. reflexivity.
  - congruence.
  - rewrite A, Af. unfold map_keys. now rewrite length_map.
Qed.

End Completed.

(** X11.  An operation whose [try] block runs to its end leaves a full
    record in the persisted state: the target, the direction, a time
    stamp, the joined error messages of the result ([null] if there are
    none), and a list of files with exactly one entry for every file the
    result accounts for as processed, failed, or left alone after a
    conflict. *)
Theorem completed_operation_records_state (W : Type) (host : Host W)
    (env : Env) (github : GitHubClient) (target : SyncTarget)
    (op : operation) (s s1 : State W) (m : Memento) (u : unit) :
  globalState s = Some m ->
  try_block host env github target op (entered s) = (Ret u, s1) ->
  let st := getSyncState (globalState s1) in
  lastSyncTarget st = Some target
  /\ lastSyncDirection st = Some (direction_of op)
  /\ lastSyncedAt st <> None
  /\ lastError st = joined_errors (result s1)
  /\ List.length (lastSyncFiles st) = accounted (applied_by op) (result s1).
Proof.
  intros Hm H.
  assert (exists (now : Z) (keys : list jsstring),
             globalState s1
             = Config.updateSyncState
                 {| p_lastSyncedAt := Some (Some now);
                    p_lastSyncTarget := Some (Some target);
                    p_lastSyncDirection := Some (Some (direction_of op));
                    p_lastSyncFiles := Some keys;
                    p_lastError := Some (joined_errors (result s1)) |}
                 (globalState (entered s))
             /\ accounted (applied_by op) (result s1) = List.length keys)
    as (now & keys & G & A).
  { destruct op as [fuel|]; cbn [try_block] in H.
    - apply pull_try_completed in H as (now & keys & s0 & G & R0 & A).
      exists now, keys. split; [exact G|].
      cbn [applied_by]. rewrite A, R0. cbn. lia.
    - apply push_try_completed in H as (now & keys & s0 & G & R0 & A).
      exists now, keys. split; [exact G|].
      cbn [applied_by]. rewrite A, R0. cbn. lia. }
  cbn [entered globalState] in G. rewrite Hm in G.
  cbv zeta. rewrite G. cbn. repeat split; [discriminate|now symmetry].
Qed.

Lemma completed_operation_records_state_witness :
  let host := static_host nested_remote in
  let env := env_with (config_with [str "rules/*.mdc"] policy_ask "") in
  let s1 := snd (try_block host env client workspace (Pull 4)
                   (entered (start empty_local))) in
  let st := getSyncState (globalState s1) in
  lastSyncTarget st = Some workspace
  /\ lastSyncDirection st = Some dir_pull
  /\ lastSyncedAt st <> None
  /\ lastError st = joined_errors (result s1)
  /\ List.length (lastSyncFiles st) = accounted useRemote (result s1).
Proof.
  intros host env s1.
  apply (@completed_operation_records_state unit host env client workspace
           (Pull 4) (start empty_local) s1 None tt);
    vm_compute; reflexivity.
Defined.

(** ** Configuration checks against the client *)

(** X12.  [isConfigured()] holds exactly when the constructor of
    [GitHubClient] accepts the settings, so that its test of [repoUrl] for
    emptiness adds nothing to [parseRepoUrl]; and the client so built has
    a token exactly when [canPush()] holds, so that without it [pushFile]
    throws before it sends anything. *)
Theorem isConfigured_iff_client (W : Type) (host : Host W)
    (config : SyncConfig) :
  (isConfigured config = true <-> exists c, new_GitHubClient config = Ret c)
  /\ (isConfigured config
      = match parseRepoUrl (repoUrl config) with
        | Some _ => true | None => false end)
  /\ forall c, new_GitHubClient config = Ret c ->
       truthy (token c) = canPush config
       /\ (canPush config = false ->
           forall path content message (s : State W),
             pushFile host c path content message s
             = (Throw (ErrorObj (str "GitHub token required for push operations")),
                s)).
Proof.
  unfold isConfigured, new_GitHubClient, canPush.
  assert (Hurl : isConfigured config
                 = match parseRepoUrl (repoUrl config) with
                   | Some _ => true | None => false end).
  { unfold isConfigured. destruct (repoUrl config); reflexivity. }
  unfold isConfigured in Hurl. rewrite Hurl.
  destruct (parseRepoUrl (repoUrl config)) as [info|].
  - split; [split; [eauto|reflexivity]|]. split; [reflexivity|].
    intros c [= <-]. cbn [token].
    assert (Htok : truthy match githubToken config with
                          | [] => None
                          | t => Some t
                          end = negb (is_empty (githubToken config)))
      by (destruct (githubToken config); reflexivity).
    split; [exact Htok|]. intros Hno path content message s.
    unfold pushFile. cbn [token]. rewrite Htok, Hno. reflexivity.
  - split; [split; [discriminate|now intros [c [=]]]|].
    split; [reflexivity|]. intros c [=].
Qed.

(** X13.  Two updates of the persisted state in a row amount to one
    update with the second record laid over the first; an update repeated
    changes nothing more; and before [initStateStorage] has run every
    update is lost, the state read back being the default one. *)
Theorem updateSyncState_merge (p1 p2 : PartialSyncState) (g : GlobalState) :
  Config.updateSyncState p2 (Config.updateSyncState p1 g)
  = Config.updateSyncState (merge p1 p2) g
  /\ Config.updateSyncState p1 (Config.updateSyncState p1 g)
     = Config.updateSyncState p1 g
  /\ getSyncState (Config.updateSyncState p1 None) = getDefaultState
  /\ forall memento,
       getSyncState (Config.updateSyncState p1 (Some memento))
       = spread (getSyncState (Some memento)) p1.
Proof.
  destruct p1 as [a1 b1 c1 d1 e1], p2 as [a2 b2 c2 d2 e2].
  repeat split.
  - destruct g as [memento|]; [|reflexivity].
    unfold Config.updateSyncState, spread, merge, pick; cbn.
    destruct a2, b2, c2, d2, e2; reflexivity.
  - destruct g as [memento|]; [|reflexivity].
    unfold Config.updateSyncState, spread, pick; cbn.
    destruct a1, b1, c1, d1, e1; reflexivity.
Qed.

(** X14.  [checkAccess] never throws and sends one request, a [GET] for
    the repository: it returns a pair of flags whatever the network does,
    write access is never reported without read access nor without a
    token, and a failed network call reads as no access at all. *)
Theorem checkAccess_never_throws (W : Type) (host : Host W)
    (permissions_push : Response -> bool) (c : GitHubClient) (s : State W) :
  let out := checkAccess host permissions_push c s in
  (exists p, fst out = Ret p
             /\ (write p = true -> read p = true /\ truthy (token c) = true)
             /\ (forall e w, net_fetch host (metadata_request c) (world s)
                             = (inr e, w) ->
                             read p = false /\ write p = false))
  /\ sent (snd out) = metadata_request c :: sent s
  /\ fs (snd out) = fs s
  /\ result (snd out) = result s
  /\ globalState (snd out) = globalState s.
Proof.
  cbv zeta. unfold checkAccess, try_catch, bind, fetch.
  destruct (net_fetch host (metadata_request c) (world s)) as [[r|e] w].
  - destruct (negb (ok r)).
    + cbn. split; [|now repeat split].
      eexists. split; [reflexivity|]. split; [discriminate|]. discriminate.
    + destruct (json r); cbn; (split; [|now repeat split]);
        eexists; (split; [reflexivity|]); cbn;
        (split; [|discriminate]);
        try discriminate;
        destruct (truthy (token c)); (discriminate || now split).
  - cbn. split; [|now repeat split].
    eexists. split; [reflexivity|]. split; [discriminate|]. now split.
Qed.

(** ** A pull only adds and overwrites *)

Lemma write_keeps_kind (a : list jsstring) (c : jsstring) (n n' : FS.node)
    (q : list jsstring) (cq : jsstring) :
  FS.write a c n = inr n' ->
  FS.lookup q n = inr (FS.File cq) ->
  exists c', FS.lookup q n' = inr (FS.File c').
Proof.
  intros Hw Hq.
  destruct (list_eq_dec (list_eq_dec N.eq_dec) q a) as [->|Hne].
  - exists c. eapply write_lookup; eassumption.
  - exists cq. eapply write_keeps_file; [exact Hw|exact Hq|].
    intros ->. now contradiction Hne.
Qed.

Lemma mkdirp_keeps_dir (d : list jsstring) :
  forall n n' q es,
    FS.mkdirp d n = inr n' ->
    FS.lookup q n = inr (FS.Dir es) ->
    exists es', FS.lookup q n' = inr (FS.Dir es').
Proof.
  induction d as [|s d IH]; intros n n' q es Hm Hq; destruct n as [c0|es0];
    cbn in Hm; try discriminate.
  - inversion Hm; subst n'. eauto.
  - destruct (FS.mkdirp d _) as [e|child'] eqn:Ed; [discriminate|].
    inversion Hm; subst n'; clear Hm.
    destruct q as [|t q]; [cbn; eauto|].
    rewrite lookup_step. destruct (eqs t s) eqn:E; [|eauto].
    apply eqs_eq in E. subst t. cbn [FS.lookup] in Hq.
    destruct (FS.find_entry s es0) as [child|]; [|discriminate].
    eapply IH; eassumption.
Qed.

(** X15.  Whatever the policy and whatever the user answers, a pull
    removes nothing from the local tree and never turns a file into a
    directory or a directory into a file: where there was a regular file
    there is one afterwards, and where there was a directory there is
    one afterwards. *)
Theorem pull_only_adds_and_overwrites (W : Type) (host : Host W) (env : Env)
    (fuel : nat) (github : GitHubClient) (target : SyncTarget)
    (q : list jsstring) (s : State W) :
  let after := fs (snd (pull host env fuel github target s)) in
  (forall c, FS.lookup q (fs s) = inr (FS.File c) ->
             exists c', FS.lookup q after = inr (FS.File c'))
  /\ (forall es, FS.lookup q (fs s) = inr (FS.Dir es) ->
                 exists es', FS.lookup q after = inr (FS.Dir es')).
Proof.
  cbv zeta.
  set (R := fun a b : State W =>
              (forall c, FS.lookup q (fs a) = inr (FS.File c) ->
                         exists c', FS.lookup q (fs b) = inr (FS.File c'))
              /\ (forall es, FS.lookup q (fs a) = inr (FS.Dir es) ->
                             exists es', FS.lookup q (fs b) = inr (FS.Dir es'))).
  assert (R_refl : forall a, R a a) by (intros a; split; eauto).
  assert (R_trans : forall a b c, R a b -> R b c -> R a c).
  { intros a b c [F1 D1] [F2 D2]. split.
    - intros x Hx. destruct (F1 _ Hx) as [y Hy]. exact (F2 _ Hy).
    - intros x Hx. destruct (D1 _ Hx) as [y Hy]. exact (D2 _ Hy). }
  assert (Hmkdir : forall p, preserves R (mkdir env p)).
  { intros p s0. unfold mkdir, set_fs.
    destruct (FS.mkdirp _ (fs s0)) as [e|n] eqn:Hm; [apply R_refl|]. split.
    - intros c Hc. exists c. eapply mkdirp_keeps_file; eassumption.
    - intros es Hes. eapply mkdirp_keeps_dir; eassumption. }
  assert (Hwrite : forall p c, preserves R (writeFile env p c)).
  { intros p c s0. unfold writeFile, set_fs.
    destruct (FS.write _ _ (fs s0)) as [e|n] eqn:Hw; [apply R_refl|]. split.
    - intros c0 Hc. eapply write_keeps_kind; eassumption.
    - intros es Hes. eapply write_keeps_dir; eassumption. }
  assert (Hsame : forall a b : State W, fs b = fs a -> R a b)
    by (intros a b E; unfold R; rewrite E; split; eauto).
  apply (@pres_pull_with W host env R); try assumption;
    try (intros; apply Hsame; reflexivity).
  intros targetPath k v.
  apply pres_pull_file_with; try assumption;
    intros; apply Hsame; reflexivity.
Qed.

(** ** The prefix that [fetchAllFiles] and [collectLocalFiles] strip *)

Lemma clear_no_caps (x : mstate) : clear_caps [] x = x.
Proof.
  destruct x as [pos prev rest caps]. unfold clear_caps. cbn. f_equal.
  induction caps as [|e caps IH]; cbn; [reflexivity|now rewrite IH].
Qed.

(** An optional code unit, greedy: [c?]. *)
Lemma opt_char (c : char) (k : cont) (x : mstate) :
  rmatch (RQuant 0 (Some 1) true (RChar c)) k x
  = match m_rest x with
    | c' :: rest =>
        if N.eqb c c' then
          match k (MState (S (m_pos x)) (Some c') rest (m_caps x)) with
          | Some z => Some z
          | None => k x
          end
        else k x
    | [] => k x
    end.
Proof.
  cbn [rmatch groups_of]. rewrite Nat.add_1_r.
  cbn [Nat.add repeat_matcher is_zero].
  rewrite clear_no_caps. cbn [rmatch]. unfold step_char.
  change (Nat.eqb 0 0) with true. cbn [negb andb].
  destruct (m_rest x) as [|c' rest] eqn:Hrest; [reflexivity|].
  destruct (N.eqb c c'); [|reflexivity].
  cbn [m_pos].
  replace (Nat.eqb (S (m_pos x)) (m_pos x)) with false
    by (symmetry; apply Nat.eqb_neq; lia).
  destruct (List.length rest); reflexivity.
Qed.

Lemma lit_step (c : char) (r : re) (k : cont) (pos : nat) (prev : option char)
    (rest : jsstring) (caps : list (nat * (nat * nat))) :
  rmatch (RSeq (RChar c) r) k (MState pos prev rest caps)
  = match rest with
    | c' :: rest' =>
        if N.eqb c' c then rmatch r k (MState (S pos) (Some c') rest' caps)
        else None
    | [] => None
    end.
Proof.
  cbn [rmatch]. unfold step_char. cbn [m_rest m_pos m_caps].
  destruct rest as [|c' rest']; [reflexivity|]. now rewrite N.eqb_sym.
Qed.

Lemma bol_step (r : re) (k : cont) (prev : option char) (rest : jsstring)
    (caps : list (nat * (nat * nat))) :
  rmatch (RSeq RBol r) k (MState 0 prev rest caps)
  = rmatch r k (MState 0 prev rest caps).
Proof. reflexivity. Qed.

Lemma seq_step (a b : re) (k : cont) (x : mstate) :
  rmatch (RSeq a b) k x = rmatch a (rmatch b k) x.
Proof. reflexivity. Qed.

Lemma exec_bol (r : re) (s : jsstring) :
  exec (RSeq RBol r) s
  = match match_here (RSeq RBol r) 0 None s with
    | Some y => Some (0, y)
    | None => None
    end.
Proof.
  unfold exec. destruct s as [|c s]; cbn [search];
    destruct (match_here _ 0 None _); try reflexivity.
  apply search_bol. lia.
Qed.

Lemma startsWith_nil (s : jsstring) : startsWith s [] = true.
Proof. destruct s; reflexivity. Qed.

Local Ltac next_unit V :=
  rewrite lit_step;
  match goal with
  | |- context [match ?rest with [] => None | _ :: _ => _ end] =>
      let c := fresh "c" in
      let r := fresh "r" in
      let Hne := fresh "Hne" in
      destruct rest as [|c r]; [reflexivity|];
      cbn [startsWith];
      destruct (N.eqb_spec c V) as [->|Hne];
      [rewrite ?N.eqb_refl; cbn [andb]|reflexivity]
  end.

(** Where [cursor\/?] ends when matched at the head of [rest]. *)
Lemma cursor_tail (pos : nat) (prev : option char) (rest : jsstring) :
  option_map m_pos
    (rmatch
       (RSeq (RChar 99%N) (RSeq (RChar 117%N) (RSeq (RChar 114%N)
          (RSeq (RChar 115%N) (RSeq (RChar 111%N) (RSeq (RChar 114%N)
             (RSeq (RQuant 0 (Some 1) true (RChar 47%N)) REmpty)))))))
       (fun y => Some y) (MState pos prev rest []))
  = if startsWith rest (str "cursor/") then Some (7 + pos)
    else if startsWith rest (str "cursor") then Some (6 + pos)
    else None.
Proof.
  change (str "cursor/") with [99; 117; 114; 115; 111; 114; 47]%N.
  change (str "cursor") with [99; 117; 114; 115; 111; 114]%N.
  next_unit 99%N. next_unit 117%N. next_unit 114%N. next_unit 115%N.
  next_unit 111%N. next_unit 114%N.
  rewrite seq_step, opt_char. cbn [m_rest m_pos m_caps rmatch].
  match goal with
  | |- context [startsWith ?r [47%N]] =>
      destruct r as [|c r']; [reflexivity|]
  end.
  cbn [startsWith].
  rewrite (N.eqb_sym 47%N c), startsWith_nil.
  destruct (N.eqb c 47%N); reflexivity.
Qed.

Lemma replace_bol (r : re) (p : jsstring) (e : option nat) :
  option_map m_pos (match_here (RSeq RBol r) 0 None p) = e ->
  replace (RSeq RBol r) [] p
  = match e with Some n => skipn n p | None => p end.
Proof.
  intros <-. unfold replace. rewrite exec_bol.
  destruct (match_here _ 0 None p); reflexivity.
Qed.

Lemma end_or_else (a b : option mstate) :
  option_map m_pos (match a with Some z => Some z | None => b end)
  = match option_map m_pos a with
    | Some n => Some n
    | None => option_map m_pos b
    end.
Proof. destruct a; reflexivity. Qed.

(** X16.  The expression [/^\.?cursor\/?/] with which both collectors
    normalise the patterns removes one of the prefixes [.cursor/],
    [.cursor], [cursor/] and [cursor], the longest that fits, and nothing
    else; so it also shortens a pattern that merely begins with these
    letters. *)
Theorem normalizePatterns_strips (patterns : list jsstring) :
  normalizePatterns patterns = map strip_prefix patterns.
Proof.
  unfold normalizePatterns. apply map_ext. intros p.
  set (r := lit "^\.?cursor\/?"). vm_compute in r. subst r.
  unfold strip_prefix.
  change (str ".cursor/") with (46%N :: str "cursor/").
  change (str ".cursor") with (46%N :: str "cursor").
  destruct p as [|c0 p0]; [reflexivity|].
  change (startsWith (c0 :: p0) (46%N :: str "cursor/"))
    with (N.eqb c0 46%N && startsWith p0 (str "cursor/")).
  change (startsWith (c0 :: p0) (46%N :: str "cursor"))
    with (N.eqb c0 46%N && startsWith p0 (str "cursor")).
  destruct (N.eqb_spec c0 46%N) as [->|Hne]; cbn [andb].
  - erewrite replace_bol;
      [|unfold match_here; rewrite bol_step, seq_step, opt_char;
        cbn [m_rest m_pos m_caps]; change (N.eqb 46%N 46%N) with true;
        cbv iota;
        rewrite end_or_else, (cursor_tail 1), (cursor_tail 0); reflexivity].
    change (startsWith (46%N :: p0) (str "cursor/")) with false.
    change (startsWith (46%N :: p0) (str "cursor")) with false.
    cbn [Nat.add].
    destruct (startsWith p0 (str "cursor/")); [reflexivity|].
    destruct (startsWith p0 (str "cursor")); reflexivity.
  - erewrite replace_bol;
      [|unfold match_here; rewrite bol_step, seq_step, opt_char;
        cbn [m_rest m_pos m_caps]; rewrite (N.eqb_sym 46%N c0);
        rewrite (proj2 (N.eqb_neq c0 46%N) Hne); apply cursor_tail].
    cbn [Nat.add].
    destruct (startsWith (c0 :: p0) (str "cursor/")); [reflexivity|].
    destruct (startsWith (c0 :: p0) (str "cursor")); reflexivity.
Qed.

(** ** Which patterns make [fetchAllFiles] enter a directory *)

Lemma flat_never_enters (patterns : list jsstring) (dir : jsstring) :
  forallb flat patterns = true -> shouldProcessDirectory dir patterns = false.
Proof.
  induction patterns as [|p rest IH]; [reflexivity|].
  cbn [forallb shouldProcessDirectory]. unfold flat at 1.
  intros H. apply andb_prop in H as [Hp Hrest].
  apply andb_prop in Hp as [Hg Hs].
  apply negb_true_iff in Hg, Hs. rewrite Hg, Hs. now apply IH.
Qed.

Lemma bind_ext {W A B : Type} (m : @M W A) (f g : A -> M B) (s : State W) :
  (forall a s', f a s' = g a s') -> bind m f s = bind m g s.
Proof.
  intros H. unfold bind. destruct (m s) as [[a|e|] s']; [apply H|reflexivity..].
Qed.

(** X17.  Patterns with neither a slash nor a globstar keep
    [fetchAllFiles] at the root of the remote tree: no directory is ever
    entered, so the local function [processDirectory] runs once and
    deeper recursion changes nothing. *)
Theorem flat_patterns_stay_at_root (W : Type) (host : Host W)
    (c : GitHubClient) (patterns : list jsstring) :
  forallb flat (normalizePatterns patterns) = true ->
  (forall dir, shouldProcessDirectory dir (normalizePatterns patterns) = false)
  /\ forall fuel (s : State W),
       fetchAllFiles host (S fuel) c patterns s
       = fetchAllFiles host 1 c patterns s.
Proof.
  intros Hflat. split; [intros dir; now apply flat_never_enters|].
  intros fuel s. unfold fetchAllFiles. cbn [processDirectory].
  apply bind_ext. intros entries s1.
  generalize (@nil (jsstring * jsstring)) as files. revert s1.
  induction entries as [|entry rest IH]; intros s1 files; [reflexivity|].
  apply bind_ext. intros relativePath s2.
  destruct (gf_type entry).
  - apply bind_ext. intros [|] s3; [|apply IH].
    apply bind_ext. intros files' s4. apply IH.
  - rewrite (flat_never_enters _ relativePath Hflat). apply IH.
  - apply IH.
Qed.

Lemma flat_patterns_stay_at_root_witness :
  (forall dir, shouldProcessDirectory dir (normalizePatterns [str "*.md"]) = false)
  /\ forall fuel (s : State unit),
       fetchAllFiles (static_host nested_remote) (S fuel) client [str "*.md"] s
       = fetchAllFiles (static_host nested_remote) 1 client [str "*.md"] s.
Proof.
  apply (@flat_patterns_stay_at_root unit (static_host nested_remote) client
           [str "*.md"]).
  vm_compute. reflexivity.
Defined.

(** X18.  A pattern that begins with a globstar switches the pruning
    off: with such a pattern in the list, every directory is entered. *)
Theorem globstar_pattern_enters_everything (patterns : list jsstring)
    (p dir : jsstring) :
  In p patterns -> startsWith p (str "**") = true ->
  shouldProcessDirectory dir patterns = true.
Proof.
  intros Hin Hp.
  assert (Hidx : indexOf p (str "**") = Some 0)
    by (destruct p; cbn [indexOf]; now rewrite Hp).
  induction patterns as [|q rest IH]; [destruct Hin|].
  cbn [shouldProcessDirectory].
  destruct Hin as [->|Hin].
  - unfold includes, split_head. rewrite Hidx. reflexivity.
  - destruct (includes q (str "**")).
    + destruct (_ || _); [reflexivity|now apply IH].
    + destruct (includes q (str "/")); [|now apply IH].
      destruct (_ || _); [reflexivity|now apply IH].
Qed.

Lemma globstar_pattern_enters_everything_witness :
  shouldProcessDirectory (str "rules/nested")
    [str "*.md"; str "**/*.mdc"] = true.
Proof.
  apply (globstar_pattern_enters_everything
           [str "*.md"; str "**/*.mdc"] (str "**/*.mdc") (str "rules/nested")).
  - right. left. reflexivity.
  - reflexivity.
Defined.

(** ** The two requests of [pushFile] *)

(** X19.  With a token, [pushFile] sends exactly two requests and
    touches nothing else: first a [GET] for the file under the branch,
    then a [PUT] to the same address without the query, whose body holds
    the message, the encoded content and the branch; the body names a
    [sha] only when the [GET] was answered with a file object, and then
    it is the [sha] of that object. *)
Theorem pushFile_protocol (W : Type) (host : Host W) (c : GitHubClient)
    (path content message : jsstring) (s : State W) :
  truthy (token c) = true ->
  let out := pushFile host c path content message s in
  exists get put body,
    sent (snd out) = put :: get :: sent s
    /\ fs (snd out) = fs s /\ result (snd out) = result s
    /\ fst out <> Beyond
    /\ rq_method get = GET /\ rq_method put = PUT
    /\ rq_url get = rq_url put ++ str "?ref=" ++ gh_branch c
    /\ rq_url put = contents_url c (prefixed c path)
    /\ rq_body put = Some body
    /\ pb_message body = message
    /\ pb_content body = base64_encode host content
    /\ pb_branch body = gh_branch c
    /\ forall sha, pb_sha body = Some sha ->
         exists r w data,
           net_fetch host get (world s) = (inl r, w)
           /\ ok r = true /\ json r = JObject data /\ f_sha data = sha.
Proof.
  intros Htok. cbv zeta.
  destruct (pushFile host c path content message s) as [o s'] eqn:E.
  cbn [fst snd]. revert E.
  unfold pushFile. rewrite Htok. cbn [negb].
  unfold fetchFile. unfold try_catch, bind, fetch, throw, ret.
  set (get := {| rq_method := GET;
                 rq_url := contents_url c (prefixed c path) ++ str "?ref="
                             ++ gh_branch c;
                 rq_headers := getHeaders c; rq_body := None |}).
  destruct (net_fetch host get (world s)) as [[r|e] w] eqn:Hget;
    [destruct (negb (ok r)) eqn:Hok;
     [|apply negb_false_iff in Hok;
       destruct (json r) as [files|data|e|m0] eqn:Hjson]|];
    cbn [world fs sent result globalState fst snd gc_sha];
    match goal with
    | |- context [net_fetch host ?rq w] =>
        destruct (net_fetch host rq w) as [[r2|e2] w2]
    end;
    try (destruct (negb (ok r2)));
    intros [= <- <-];
    (exists get; do 2 eexists;
     cbn [world fs sent result globalState fst snd rq_method rq_url rq_body
          pb_message pb_content pb_branch pb_sha];
     repeat split; try reflexivity; try discriminate;
     try (intros ? ?; discriminate));
    destruct (f_sha data) as [|x xs] eqn:Hsha;
    cbn; intros sha [= <-];
    exists r, w, data; repeat split; assumption.
Qed.

Lemma pushFile_protocol_witness :
  let c := {| repoInfo := {| owner := str "owner"; repo := str "dotfiles" |};
              gh_branch := str "main"; basePath := str "cursor";
              token := Some (str "t0k") |} in
  let out := pushFile (static_host rules_remote) c (str "a.md") (str "A")
               (str "Update a.md") (start empty_local) in
  exists get put body,
    sent (snd out) = put :: get :: sent (start empty_local)
    /\ fs (snd out) = fs (start empty_local)
    /\ result (snd out) = result (start empty_local)
    /\ fst out <> Beyond
    /\ rq_method get = GET /\ rq_method put = PUT
    /\ rq_url get = rq_url put ++ str "?ref=" ++ gh_branch c
    /\ rq_url put = contents_url c (prefixed c (str "a.md"))
    /\ rq_body put = Some body
    /\ pb_message body = str "Update a.md"
    /\ pb_content body = base64_encode (static_host rules_remote) (str "A")
    /\ pb_branch body = gh_branch c
    /\ forall sha, pb_sha body = Some sha ->
         exists r w data,
           net_fetch (static_host rules_remote) get (world (start empty_local))
           = (inl r, w)
           /\ ok r = true /\ json r = JObject data /\ f_sha data = sha.
Proof.
  intros c.
  apply (@pushFile_protocol unit (static_host rules_remote) c (str "a.md")
           (str "A") (str "Update a.md") (start empty_local)).
  reflexivity.
Defined.

(** ** A push under [useRemote] *)

(** X20.  Under the policy [useRemote], pushing a file whose remote copy
    differs sends nothing beyond the one [GET] that read the remote copy:
    no [PUT] follows, the file is not counted, no error is recorded, and
    the conflict is recorded as resolved to [useRemote]. *)
Theorem push_file_useRemote_keeps_remote (W : Type) (host : Host W)
    (config : SyncConfig) (github : GitHubClient)
    (relativePath localContent remoteContent : jsstring) (s s1 : State W) :
  conflictResolution config = policy_useRemote ->
  fetchFileRaw host github relativePath s = (Ret remoteContent, s1) ->
  remoteContent <> localContent ->
  let out := push_file host config github relativePath localContent s in
  fst out = Ret tt
  /\ (exists get, sent (snd out) = get :: sent s /\ rq_method get = GET)
  /\ fs (snd out) = fs s
  /\ filesProcessed (result (snd out)) = filesProcessed (result s)
  /\ errors (result (snd out)) = errors (result s)
  /\ conflicts (result (snd out))
     = conflicts (result s)
       ++ [{| ci_path := relativePath; Engine.localContent := localContent;
              Engine.remoteContent := remoteContent;
              resolution := Some useRemote |}].
Proof.
  intros Hpol Hraw Hne. cbv zeta.
  assert (Hs1 : (exists get, sent s1 = get :: sent s /\ rq_method get = GET)
                /\ fs s1 = fs s /\ result s1 = result s).
  { revert Hraw. unfold fetchFileRaw, bind, fetch.
    destruct (net_fetch host _ (world s)) as [[r|e] w]; [|discriminate].
    destruct (negb (ok r)); [discriminate|].
    intros [= _ <-]. cbn. split; [eexists; split; reflexivity|now split]. }
  destruct Hs1 as (Hsent & Hfs & Hres).
  unfold push_file, try_catch, bind. rewrite Hraw.
  unfold strings_differ. rewrite (eqs_neq Hne). cbn [negb].
  rewrite Hpol. cbn. rewrite Hres. repeat split; assumption.
Qed.

Lemma push_file_useRemote_keeps_remote_witness :
  let config := config_with [str ".cursorrules"] policy_useRemote "t0k" in
  let out := push_file (static_host rules_remote) config client
               (str ".cursorrules") (str "X") (start rules_local) in
  fst out = Ret tt
  /\ (exists get, sent (snd out) = get :: sent (start rules_local)
                  /\ rq_method get = GET)
  /\ fs (snd out) = fs (start rules_local)
  /\ filesProcessed (result (snd out))
     = filesProcessed (result (start rules_local))
  /\ errors (result (snd out)) = errors (result (start rules_local))
  /\ conflicts (result (snd out))
     = conflicts (result (start rules_local))
       ++ [{| ci_path := str ".cursorrules";
              Engine.localContent := str "X";
              Engine.remoteContent := str "Y";
              resolution := Some useRemote |}].
Proof.
  intros config.
  apply (@push_file_useRemote_keeps_remote unit (static_host rules_remote)
           config client (str ".cursorrules") (str "X") (str "Y")
           (start rules_local)
           (snd (fetchFileRaw (static_host rules_remote) client
                   (str ".cursorrules") (start rules_local))));
    [reflexivity|vm_compute; reflexivity|vm_compute; discriminate].
Defined.

(** ** Where a pulled file lands *)

Lemma join_app (l m : list jsstring) :
  l <> [] -> m <> [] ->
  JS.join (str "/") (l ++ m)
  = JS.join (str "/") l ++ Path.slash :: JS.join (str "/") m.
Proof.
  intros Hl Hm. induction l as [|x l IH]; [now contradiction Hl|].
  destruct l as [|y l].
  - destruct m as [|z m]; [now contradiction Hm|].
    cbn [app]. rewrite join_two. reflexivity.
  - cbn [app] in *. rewrite !join_two, IH by discriminate.
    now rewrite <- app_assoc.
Qed.

(** X21.  Below a sync root built as [getTargetPath] builds it, a remote
    path in normal form other than [.cursorrules] is mapped to the text
    of the root, a slash, and the path itself: such a file is written
    inside the root and nowhere else. *)
Theorem mapToLocalPath_below_root (base p : jsstring) :
  Path.normalized_relative p = true ->
  p <> str ".cursorrules" ->
  let root := Path.join base CURSOR_DIR in
  mapToLocalPath p root = root ++ str "/" ++ p.
Proof.
  intros Hp Hne root.
  destruct (join_cursor base) as [S0 Eroot]. fold root in Eroot.
  unfold mapToLocalPath. rewrite (eqs_neq Hne), Eroot.
  rewrite join_render;
    [|discriminate|now apply shaped_cursor|exact Hp].
  assert (Np : Path.split_slash p <> [])
    by (destruct (split_slash_cons p) as (h & r & ->); discriminate).
  assert (Nr : rev (str ".cursor" :: fold_left
                      (Path.norm_step (negb (Path.isAbsolute base)))
                      (Path.split_slash base) []) <> [])
    by (cbn [rev]; intros E; now apply app_eq_nil in E as [_ E]).
  unfold render. destruct (Path.isAbsolute base);
    rewrite (join_app Nr Np), join_split; cbn [app];
    now rewrite <- ?app_assoc.
Qed.

Lemma mapToLocalPath_below_root_witness :
  mapToLocalPath (str "rules/a.mdc") (Path.join (str "/home/u/proj") CURSOR_DIR)
  = Path.join (str "/home/u/proj") CURSOR_DIR ++ str "/" ++ str "rules/a.mdc".
Proof.
  apply (@mapToLocalPath_below_root (str "/home/u/proj") (str "rules/a.mdc")).
  - reflexivity.
  - vm_compute. discriminate.
Defined.

(** ** The age shown in the status line *)

(** X22.  For time stamps less than 2^53 milliseconds apart, the age
    that [formatLastSynced] shows is the whole number of minutes, hours
    or days that have passed, in the coarsest unit that fits: never [0]
    of a unit, fewer than 60 minutes, fewer than 24 hours; less than a
    minute, or a time stamp ahead of the clock, reads [just now]; and a
    missing time stamp, or the time stamp [0], reads [Never synced]. *)
Theorem formatLastSynced_age (state : SyncState) (now : Z) :
  (forall t, lastSyncedAt state = Some t -> (Z.abs (now - t) < 2 ^ 53)%Z) ->
  match lastSyncedAt state with
  | None => formatLastSynced state now = Ret (str "Never synced")
  | Some t =>
      if (t =? 0)%Z
      then formatLastSynced state now = Ret (str "Never synced")
      else
        let d := (now - t)%Z in
        exists ago,
          formatLastSynced state now
          = Ret (arrow (lastSyncDirection state) ++ str " " ++ ago ++ str " ("
                   ++ target_word (lastSyncTarget state) ++ str ")")
          /\ ((ago = str "just now" /\ (d < 60000)%Z)
              \/ (exists n, ago = dec (Z.to_N n) ++ str "m ago"
                            /\ (1 <= n < 60)%Z
                            /\ (n * 60000 <= d < (n + 1) * 60000)%Z)
              \/ (exists n, ago = dec (Z.to_N n) ++ str "h ago"
                            /\ (1 <= n < 24)%Z
                            /\ (n * 3600000 <= d < (n + 1) * 3600000)%Z)
              \/ (exists n, ago = dec (Z.to_N n) ++ str "d ago"
                            /\ (1 <= n)%Z
                            /\ (n * 86400000 <= d < (n + 1) * 86400000)%Z))
  end.
Proof.
  intros Hsafe. unfold formatLastSynced.
  destruct (lastSyncedAt state) as [t|]; [|reflexivity].
  destruct (t =? 0)%Z; [reflexivity|].
  specialize (Hsafe t eq_refl). apply Z.ltb_lt in Hsafe.
  cbv zeta. unfold timeAgo, safe_integer. rewrite Hsafe. clear Hsafe.
  eexists. split; [reflexivity|].
  generalize (now - t)%Z as d. intros d.
  destruct (Z.ltb_spec (d / 60000) 1) as [H1|H1].
  { left. split; [reflexivity|]. Z.div_mod_to_equations. lia. }
  destruct (Z.ltb_spec (d / 60000) 60) as [H2|H2].
  { right. left. exists (d / 60000)%Z. split; [reflexivity|].
    Z.div_mod_to_equations. lia. }
  destruct (Z.ltb_spec (d / 60000 / 60) 24) as [H3|H3].
  { right. right. left. exists (d / 60000 / 60)%Z. split; [reflexivity|].
    Z.div_mod_to_equations. lia. }
  right. right. right. exists (d / 60000 / 60 / 24)%Z. split; [reflexivity|].
  Z.div_mod_to_equations. lia.
Qed.

(** A push to the global target three hours and some minutes ago. *)
Lemma formatLastSynced_age_witness :
  let state := {| lastSyncedAt := Some 1734556000000%Z;
                  lastSyncTarget := Some global;
                  lastSyncDirection := Some dir_push;
                  lastSyncFiles := [str "mcp.json"]; lastError := None |} in
  let now := 1734567890000%Z in
  formatLastSynced state now
  = Ret ([8593%N] ++ str " " ++ str "3h ago" ++ str " (global)")
  /\ exists ago,
       formatLastSynced state now
       = Ret (arrow (lastSyncDirection state) ++ str " " ++ ago ++ str " ("
                ++ target_word (lastSyncTarget state) ++ str ")")
       /\ ((ago = str "just now" /\ (11890000 < 60000)%Z)
           \/ (exists n, ago = dec (Z.to_N n) ++ str "m ago"
                         /\ (1 <= n < 60)%Z
                         /\ (n * 60000 <= 11890000 < (n + 1) * 60000)%Z)
           \/ (exists n, ago = dec (Z.to_N n) ++ str "h ago"
                         /\ (1 <= n < 24)%Z
                         /\ (n * 3600000 <= 11890000 < (n + 1) * 3600000)%Z)
           \/ (exists n, ago = dec (Z.to_N n) ++ str "d ago"
                         /\ (1 <= n)%Z
                         /\ (n * 86400000 <= 11890000
                             < (n + 1) * 86400000)%Z)).
Proof.
  intros state now. split; [vm_compute; reflexivity|].
  apply (formatLastSynced_age state now).
  intros t [= <-]. vm_compute. reflexivity.
Defined.

(** ** The success flag when a write to the memento is rejected *)

Tactic Notation "bind_thr" hyp(H) "as" ident(a) ident(s0) ident(E) :=
  apply bind_throws in H as [H | (a & s0 & E & H)].

Section Rejecting.

Context {W : Type}.
Variable host : Host W.
Variable env : Env.
Variable memento_update : W -> option exn * W.

Local Notation "x <- c ;; k" := (bind c (fun x => k))
  (at level 61, c at next level, right associativity).
Local Notation "c ;;; k" := (bind c (fun _ => k))
  (at level 61, right associativity).









(** The operations over a memento that takes every write are the
    operations of the engine. *)
Lemma storing_accepting_update (partial : PartialSyncState) (s : State W) :
  Storing.updateSyncState Storing.accepting partial s
  = updateSyncState partial s.
Proof.
  destruct s as [f g w snt r]. unfold Storing.updateSyncState, updateSyncState.
  cbn. destruct g; reflexivity.
Qed.

Lemma storing_accepting_run github target op (s : State W) :
  Storing.run host env Storing.accepting github target op s
  = run host env github target op s.
Proof.
  assert (C : forall e (s0 : State W),
             Storing.top_catch Storing.accepting e s0 = top_catch e s0).
  { intros e s0. unfold Storing.top_catch, top_catch.
    apply bind_ext. intros _ s1. apply bind_ext. intros r0 s2.
    apply storing_accepting_update. }
  assert (K : forall (a b : @M W unit) (s0 : State W),
             (forall s1, a s1 = b s1) ->
             (update_result (fun _ => initial_result) ;;;
              try_catch a (Storing.top_catch Storing.accepting) ;;;
              get_result) s0
             = (update_result (fun _ => initial_result) ;;;
                try_catch b top_catch ;;; get_result) s0).
  { intros a b s0 Hab. apply bind_ext. intros _ s1.
    unfold bind, try_catch. rewrite Hab.
    destruct (b s1) as [[u|e|] s2]; try reflexivity. now rewrite C. }
  destruct op as [fuel|]; cbn [Storing.run run];
    unfold Storing.pull, pull, Storing.push, push; apply K; intros s1.
  - unfold Storing.pull_try, pull_try.
    repeat (apply bind_ext; intros ? ?). apply storing_accepting_update.
  - unfold Storing.push_try, push_try.
    repeat (apply bind_ext; intros ? ?). apply storing_accepting_update.
Qed.

End Rejecting.


